(** * First-link Wikipedia crawler: a shallow embedding and its properties

    The development follows the Python sources

      - [src/wiki_core.py]                          ([WikiCrawler])
      - [src/crawlers/parallel_wiki_crawler.py]     ([GeneralWikiCrawler],
                                                     [ParallelWikiController])
      - [src/crawlers/large_wiki_graph_crawler.py]  ([DeepWikiCrawler],
                                                     [LargeWikiGraphController])

    and, further down, the callers of the walker in
    [src/wiki_single_article.py] and [src/db/wiki_db_storage.py], the
    storage class [WikiDatabaseStorage] of the two crawler files and the
    corrector of [src/scripts/correct_paths.py].

    A Python [str] is a [string] (its characters standing for code points
    below 256); a Python [set] of titles is a [gset string]; the [titles]
    dictionary is a [gmap string string]; a path is a [list string] of
    locators; Python integers are [Z].  Code that uses the network, sleeps or
    may raise lives in a state-and-exception monad over an abstract network;
    a controller job is a program over the actions it shares with the other
    threads, and a controller run is an interleaving of such actions.
    Console output is not modelled. *)

From stdpp Require Import gmap strings list.
From Stdlib Require Import ZArith Ascii.

#[local] Set Warnings "-register-all".

(** ** Python string operations *)

Module PyStr.

(** [s.startswith(p)] *)
Fixpoint startswith (s p : string) : bool :=
  match p, s with
  | EmptyString, _ => true
  | String _ _, EmptyString => false
  | String c p', String d s' => if Ascii.eqb c d then startswith s' p' else false
  end.

(** [x in s] for strings: [x] occurs in [s] as a contiguous block. *)
Fixpoint contains (s x : string) : bool :=
  if startswith s x then true
  else match s with
       | EmptyString => false
       | String _ s' => contains s' x
       end.

(** [s.count(c)] for a one-character [c]. *)
Fixpoint count (s : string) (c : ascii) : nat :=
  match s with
  | EmptyString => 0
  | String d s' => (if Ascii.eqb d c then 1 else 0) + count s' c
  end.

(** [s.replace(a, b)] for one-character [a] and [b]. *)
Fixpoint replace (s : string) (a b : ascii) : string :=
  match s with
  | EmptyString => EmptyString
  | String d s' => String (if Ascii.eqb d a then b else d) (replace s' a b)
  end.

(** [s.split(sep)[-1]]: what follows the last [sep] (all of [s] if none). *)
Fixpoint last_segment (s : string) (sep : ascii) : string :=
  match s with
  | EmptyString => EmptyString
  | String d s' =>
      if contains s' (String sep EmptyString) then last_segment s' sep
      else if Ascii.eqb d sep then s' else s
  end.

(** The characters [str.strip()] removes, for code points below 256. *)
Definition isspace (c : ascii) : bool :=
  let n := nat_of_ascii c in
  (((9 <=? n) && (n <=? 13)) || ((28 <=? n) && (n <=? 32))
   || (n =? 133) || (n =? 160))%nat.

(** [s.lstrip()], [s.rstrip()] and [s.strip()]. *)
Fixpoint lstrip (s : string) : string :=
  match s with
  | EmptyString => EmptyString
  | String c s' => if isspace c then lstrip s' else s
  end.

Fixpoint rstrip (s : string) : string :=
  match s with
  | EmptyString => EmptyString
  | String c s' =>
      match rstrip s' with
      | EmptyString => if isspace c then EmptyString else String c EmptyString
      | t => String c t
      end
  end.

Definition strip (s : string) : string := rstrip (lstrip s).

(** [not s.strip()]: nothing is left of [s] once white space is stripped. *)
Fixpoint blank (s : string) : bool :=
  match s with
  | EmptyString => true
  | String c s' => isspace c && blank s'
  end.

(** Propositional readings used in statements. *)
Definition is_prefix (p s : string) : Prop := ∃ t, s = p +:+ t.
Definition occurs_in (x s : string) : Prop := ∃ a b, s = a +:+ x +:+ b.

End PyStr.

(** ** [WikiCrawler.is_valid_wiki_link] (wiki_core.py) *)

Definition namespaces : list string :=
  ["File:"; "Wikipedia:"; "Help:"; "Template:";
   "Category:"; "Portal:"; "Talk:"; "Special:"].

Definition non_article_markers : list string := ["#"; "(disambiguation)"].

Definition is_valid_wiki_link (href : string) : bool :=
  if negb (PyStr.startswith href "/wiki/") then false
  else if PyStr.contains href ":"
          && existsb (fun namespace => PyStr.contains href namespace) namespaces
       then false
  else if existsb (fun x => PyStr.contains href x) non_article_markers then false
  else true.


(** ** Parsed pages

    [BeautifulSoup(response.text, 'html.parser')] yields a tree.  A node is a
    text node, another string node that [.text] leaves out (a comment), or a
    tag carrying the attributes the crawler reads: [id], [class] (a list of
    tokens, empty when absent) and [href]. *)

Inductive node : Type :=
| NavigableString (s : string)
| Comment (s : string)
| Tag (name : string) (id : option string) (classes : list string)
      (href : option string) (contents : list node).

(** An element together with its place in the tree: its ancestors (nearest
    first, as [.parents] yields them) and its previous siblings (nearest
    first, as repeated [.previous_sibling] yields them). *)
Record located : Type := Located {
  loc_parents : list node;
  loc_previous : list node;
  loc_node : node
}.

Definition tag_named (nm : string) (n : node) : bool :=
  match n with
  | Tag name _ _ _ _ => String.eqb name nm
  | _ => false
  end.

Definition has_id (i : string) (n : node) : bool :=
  match n with
  | Tag _ (Some j) _ _ _ => String.eqb j i
  | _ => false
  end.

(** [n.get('class', [])] *)
Definition get_class (n : node) : list string :=
  match n with
  | Tag _ _ classes _ _ => classes
  | _ => []
  end.

Definition has_class (c : string) (n : node) : bool :=
  existsb (String.eqb c) (get_class n).

(** [n.get('href')] *)
Definition get_href (n : node) : option string :=
  match n with
  | Tag _ _ _ href _ => href
  | _ => None
  end.

(** [bool(n)]: a tag is always truthy, a string node unless it is empty. *)
Definition truthy (n : node) : bool :=
  match n with
  | NavigableString s | Comment s => negb (String.eqb s "")
  | Tag _ _ _ _ _ => true
  end.

(** [isinstance(n, str)], with the string when it is one. *)
Definition as_str (n : node) : option string :=
  match n with
  | NavigableString s | Comment s => Some s
  | Tag _ _ _ _ _ => None
  end.

(** [n.string]: a string node is its own string; a tag has one only when it
    has exactly one child, whose [.string] it then is. *)
Fixpoint node_string (n : node) : option string :=
  match n with
  | NavigableString s | Comment s => Some s
  | Tag _ _ _ _ contents =>
      match contents with
      | [child] => node_string child
      | _ => None
      end
  end.

(** [n.text]: the text nodes below [n], concatenated in document order. *)
Fixpoint get_text (n : node) : string :=
  match n with
  | NavigableString s => s
  | Comment _ => ""
  | Tag _ _ _ _ contents =>
      (fix join (l : list node) : string :=
         match l with
         | [] => ""
         | child :: l' => get_text child +:+ join l'
         end) contents
  end.

(** [n.descendants], in document order; [parents] are the ancestors of [n]. *)
Fixpoint descendants (parents : list node) (n : node) : list located :=
  match n with
  | Tag _ _ _ _ contents =>
      (fix children (previous : list node) (l : list node) : list located :=
         match l with
         | [] => []
         | child :: l' =>
             Located (n :: parents) previous child
             :: descendants (n :: parents) child ++ children (child :: previous) l'
         end) [] contents
  | _ => []
  end.

(** [e.find_all(...)] with a test on the element, and [e.find(...)]. *)
Definition find_all (test : node → bool) (e : located) : list located :=
  List.filter (λ d, test (loc_node d)) (descendants (loc_parents e) (loc_node e)).

Definition find (test : node → bool) (e : located) : option located :=
  head (find_all test e).

(** [e.find_all(name, recursive=False)]: direct children only. *)
Definition find_all_children (test : node → bool) (e : located) : list located :=
  List.filter (λ d, test (loc_node d)
                    && bool_decide (length (loc_parents d) = S (length (loc_parents e))))
              (descendants (loc_parents e) (loc_node e)).

(** [e.select(...)] for a chain of child combinators: the element passes
    [test] and its ancestors, nearest first, pass [chain] one by one. *)
Fixpoint parents_match (chain : list (node → bool)) (parents : list node) : bool :=
  match chain, parents with
  | [], _ => true
  | t :: chain', p :: parents' => t p && parents_match chain' parents'
  | _ :: _, [] => false
  end.

Definition select (tests : list (list (node → bool) * (node → bool))) (e : located)
  : list located :=
  List.filter
    (λ d, existsb (λ '(chain, test), test (loc_node d) && parents_match chain (loc_parents d))
            tests)
    (descendants (loc_parents e) (loc_node e)).

Definition parser_output (n : node) : bool :=
  tag_named "div" n && has_class "mw-parser-output" n.

(** The text of a run of nodes, and nodes whose text the sibling scan
    reads in full (used in statements). *)
Definition text_of (l : list node) : string :=
  foldr (λ n acc, get_text n +:+ acc) "" l.

Definition plain (n : node) : Prop :=
  match n with
  | NavigableString s => s ≠ ""
  | Tag _ _ _ _ [NavigableString s] => s ≠ ""
  | _ => False
  end.

(** ** [WikiCrawler.extract_first_link]: one parsed page *)

Definition base_url : string := "https://en.wikipedia.org".

Definition skip_classes : list string :=
  ["infobox"; "sidebar"; "metadata"; "navbox"; "vertical-navbox"; "hatnote"].

(** The walk up [paragraph.parents] that sets [should_skip]. *)
Definition should_skip (paragraph : located) : bool :=
  existsb (λ parent,
             existsb (λ cls, existsb (String.eqb cls) skip_classes) (get_class parent))
          (loc_parents paragraph).

(** [e.find_all('a', href=True)] *)
Definition anchors (e : located) : list located :=
  find_all (λ n, tag_named "a" n && bool_decide (is_Some (get_href n))) e.

(** [link.get('href', '')] *)
Definition href_of (link : located) : string :=
  default "" (get_href (loc_node link)).

(** The [while prev_sibling:] loop, which prepends to [prev_text] what each
    previous sibling contributes and ends at the first falsy sibling. *)
Fixpoint prev_text_loop (previous : list node) (prev_text : string) : string :=
  match previous with
  | [] => prev_text
  | prev_sibling :: rest =>
      if truthy prev_sibling then
        prev_text_loop rest
          match node_string prev_sibling with
          | Some s =>
              if negb (String.eqb s "") then s +:+ prev_text
              else match as_str prev_sibling with
                   | Some t => t +:+ prev_text
                   | None => prev_text
                   end
          | None =>
              match as_str prev_sibling with
              | Some t => t +:+ prev_text
              | None => prev_text
              end
          end
      else prev_text
  end.

Definition prev_text (link : located) : string :=
  prev_text_loop (loc_previous link) "".

Definition open_count (link : located) : nat := PyStr.count (prev_text link) "(".
Definition close_count (link : located) : nat := PyStr.count (prev_text link) ")".

(** [open_count > close_count]: the link is taken to be inside parentheses. *)
Definition in_parentheses (link : located) : bool :=
  bool_decide (close_count link < open_count link).

(** The [for link in all_links] loop of the lead-paragraph scan: the [href]
    it returns with, if any. *)
Fixpoint scan_links (all_links : list located) : option string :=
  match all_links with
  | [] => None
  | link :: rest =>
      if negb (is_valid_wiki_link (href_of link)) then scan_links rest
      else if in_parentheses link then scan_links rest
      else Some (href_of link)
  end.

(** The [for paragraph in paragraphs] loop. *)
Fixpoint scan_paragraphs (paragraphs : list located) : option string :=
  match paragraphs with
  | [] => None
  | paragraph :: rest =>
      if PyStr.blank (get_text (loc_node paragraph)) then scan_paragraphs rest
      else if should_skip paragraph then scan_paragraphs rest
      else match scan_links (anchors paragraph) with
           | Some href => Some href
           | None => scan_paragraphs rest
           end
  end.

(** The two fallback loops (list items, then every paragraph): the first
    valid link of the first container that has one. *)
Fixpoint scan_fallback (containers : list located) : option string :=
  match containers with
  | [] => None
  | item :: rest =>
      match List.find (λ link, is_valid_wiki_link (href_of link)) (anchors item) with
      | Some link => Some (href_of link)
      | None => scan_fallback rest
      end
  end.

(** The choice of [paragraphs]. *)
Definition lead_paragraphs (content_div : located) : list located :=
  match select [([parser_output], tag_named "p")] content_div with
  | [] =>
      match find_all_children (tag_named "p") content_div with
      | [] => find_all (tag_named "p") content_div
      | paragraphs => paragraphs
      end
  | paragraphs => paragraphs
  end.

Definition list_items (content_div : located) : list located :=
  select [([tag_named "ul"; parser_output], tag_named "li");
          ([tag_named "ol"; parser_output], tag_named "li")] content_div.

(** The three stages over a content container: the chosen [href]. *)
Definition first_href (content_div : located) : option string :=
  match scan_paragraphs (lead_paragraphs content_div) with
  | Some href => Some href
  | None =>
      match scan_fallback (list_items content_div) with
      | Some href => Some href
      | None => scan_fallback (find_all (tag_named "p") content_div)
      end
  end.

(** ** The outside world

    What the crawler reaches through libraries: the network (an HTTP session
    whose answers are parsed into trees) and [urllib.parse]. *)

Inductive fetch_result : Type :=
| FetchError                 (* [session.get] or the parser raised *)
| FetchOk (soup : node).     (* the parsed page, a [[document]] tag *)

Class Platform : Type := {
  (** state of the network, as far as the crawler can tell *)
  world : Type;
  (** [BeautifulSoup(session.get(url).text, 'html.parser')] *)
  session_get : string → world → fetch_result * world;
  (** [session.get(Special:Random, allow_redirects=True).url];
      [None] when the request raises *)
  special_random : world → option string * world;
  (** [urllib.parse.urljoin] *)
  urljoin : string → string → string;
  (** [urllib.parse.urlparse(url).path]; [None] when it raises *)
  urlparse_path : string → option string;
  (** [urllib.parse.unquote] *)
  unquote : string → string
}.

(** Effects a run leaves behind: page requests and pauses (milliseconds). *)
Inductive event : Type :=
| Requested (url : string)
| Slept (ms : nat).

Inductive result (A : Type) : Type :=
| Ok (a : A)
| Raised.                    (* an exception left the function *)
Arguments Ok {A} a.
Arguments Raised {A}.

Section Crawler.
Context `{Platform}.

Record state : Type := State { net : world; log : list event }.

(** Computations that use the network, pause and may raise. *)
Definition io (A : Type) : Type := state → result A * state.

#[export] Instance io_ret : MRet io := λ A a st, (Ok a, st).
#[export] Instance io_bind : MBind io := λ A B f m st,
  match m st with
  | (Ok a, st') => f a st'
  | (Raised, st') => (Raised, st')
  end.

Definition raise {A} : io A := λ st, (Raised, st).

(** [time.sleep] *)
Definition sleep (ms : nat) : io unit :=
  λ st, (Ok (), State (net st) (log st ++ [Slept ms])).

(** [self.session.get(url)] and the parse, exceptions caught by the caller *)
Definition fetch (url : string) : io fetch_result :=
  λ st, let '(r, w) := session_get url (net st) in
        (Ok r, State w (log st ++ [Requested url])).

(** [WikiCrawler.get_random_article] *)
Definition get_random_article : io string :=
  λ st, let '(r, w) := special_random (net st) in
        let st' :=
          State w (log st ++ [Requested "https://en.wikipedia.org/wiki/Special:Random"]) in
        match r with
        | Some url => (Ok url, st')
        | None => (Raised, st')
        end.

(** [WikiCrawler.get_title_from_url] *)
Definition get_title_from_url (url : string) : string :=
  match urlparse_path url with
  | Some path => unquote (PyStr.replace (PyStr.last_segment path "/") "_" " ")
  | None => url
  end.

(** One pass of the [try] block of [extract_first_link] over a fetched page:
    [None] when the content container is missing (the pass is retried),
    else the pair [(next_url, title)] it returns. *)
Definition parse_article (url : string) (soup : node) : option (option string * string) :=
  let document := Located [] [] soup in
  let title :=
    match find (λ n, tag_named "h1" n && has_id "firstHeading" n) document with
    | Some title_element => get_text (loc_node title_element)
    | None => get_title_from_url url
    end in
  match find (λ n, tag_named "div" n && has_id "mw-content-text" n) document with
  | None => None
  | Some content_div =>
      match first_href content_div with
      | Some href => Some (Some (urljoin base_url href), title)
      | None => Some (None, title)
      end
  end.

Definition max_retries : nat := 3.

(** The [while retry_count < max_retries] loop, by the attempts left. *)
Fixpoint extract_attempts (attempts_left : nat) (url : string)
  : io (option string * string) :=
  match attempts_left with
  | O => mret (None, get_title_from_url url)
  | S attempts_left' =>
      response ← fetch url;
      match response with
      | FetchOk soup =>
          match parse_article url soup with
          | Some found => mret found
          | None => _ ← sleep 1000; extract_attempts attempts_left' url
          end
      | FetchError => _ ← sleep 2000; extract_attempts attempts_left' url
      end
  end.

(** [WikiCrawler.extract_first_link]: [(next_url, title)] *)
Definition extract_first_link (url : string) : io (option string * string) :=
  extract_attempts max_retries url.

(** Readings of the effect log, used in statements. *)
Definition requests (l : list event) : nat :=
  length (List.filter (λ e, match e with Requested _ => true | Slept _ => false end) l).

Definition pauses (l : list event) : list nat :=
  omap (λ e, match e with Slept ms => Some ms | Requested _ => None end) l.

(** ** Walkers

    The bookkeeping a crawler object keeps for itself ([self.graph],
    [self.visited], [self.paths]) is written and never read on the way to a
    return value; it is left out. *)

(** How a walk ended.  The sources report the exit on the console only; the
    model returns it next to the walker's own return value.  [LoopDetected]
    carries the [loop_index] and the [loop] the loop branch computes
    ([-1] and no loop when the locator is not found in the path). *)
Inductive PathOutcome : Type :=
| Completed
| DeadEnd
| LoopDetected (loop_index : Z) (loop : list string)
| StepLimitReached
| AlreadyKnown.

(** Truthiness of a value that is [None] or a string: [Some s] when it is
    a non-empty string [s], [None] when [not url] holds. *)
Definition truthy_url (url : option string) : option string :=
  match url with
  | Some s => if String.eqb s "" then None else Some s
  | None => None
  end.

(** [l.index(x)] *)
Fixpoint index_of (x : string) (l : list string) : option nat :=
  match l with
  | [] => None
  | y :: l' => if String.eqb y x then Some 0 else S <$> index_of x l'
  end.

(** [path[:-1]] *)
Definition all_but_last (path : list string) : list string := removelast path.

(** [start_url] as given, or a random article when it is falsy. *)
Definition resolve_start (start_url : option string) : io string :=
  match truthy_url start_url with
  | Some url => mret url
  | None => get_random_article
  end.

(** *** [WikiCrawler.follow_path] *)

Record follow_path_vars : Type := FollowPathVars {
  fp_current_url : string;
  fp_path : list string;
  fp_titles : gmap string string;
  fp_steps : Z
}.

(** One turn of the [while steps < max_steps] loop: the variables after it
    and, when the turn ends in [break], why. *)
Definition follow_path_turn (v : follow_path_vars)
  : io (follow_path_vars * option PathOutcome) :=
  '(next_url, current_title) ← extract_first_link (fp_current_url v);
  let titles := <[fp_current_url v := current_title]> (fp_titles v) in
  let v := FollowPathVars (fp_current_url v) (fp_path v) titles (fp_steps v) in
  if String.eqb current_title "Philosophy" then mret (v, Some Completed)
  else if bool_decide (fp_current_url v ∈ all_but_last (fp_path v)) then
    match index_of (fp_current_url v) (fp_path v) with
    | Some loop_index =>
        mret (v, Some (LoopDetected (Z.of_nat loop_index) (drop loop_index (fp_path v))))
    | None => raise
    end
  else
    match truthy_url next_url with
    | None => mret (v, Some DeadEnd)
    | Some next =>
        _ ← sleep 500;
        mret (FollowPathVars next (fp_path v ++ [next]) titles (fp_steps v + 1), None)
    end.

Fixpoint follow_path_loop (turns_left : nat) (v : follow_path_vars)
  : io (follow_path_vars * PathOutcome) :=
  match turns_left with
  | O => mret (v, StepLimitReached)
  | S turns_left' =>
      '(v', ended) ← follow_path_turn v;
      match ended with
      | Some why => mret (v', why)
      | None => follow_path_loop turns_left' v'
      end
  end.

(** [follow_path] from a given start: [(path, steps, titles)] and the exit.
    [steps] starts at 0 and grows by one per completed turn, so the loop
    guard [steps < max_steps] allows [max_steps] turns (none when
    [max_steps <= 0]). *)
Definition follow_path_from (start_url : string) (max_steps : Z)
  : io (list string * Z * gmap string string * PathOutcome) :=
  '(v, why) ← follow_path_loop (Z.to_nat max_steps)
                 (FollowPathVars start_url [start_url] ∅ 0);
  mret (fp_path v, fp_steps v, fp_titles v, why).

Definition follow_path (start_url : option string) (max_steps : Z)
  : io (list string * Z * gmap string string * PathOutcome) :=
  start ← resolve_start start_url;
  follow_path_from start max_steps.


(** *** [GeneralWikiCrawler.follow_general_path] *)

Record general_vars : Type := GeneralVars {
  gp_current_url : string;
  gp_path : list string;
  gp_titles : gmap string string;
  gp_steps : Z;
  gp_visited_in_path : gset string
}.

(** The loop branch: [loop_index] and [loop] for a repeated [next_url]. *)
Definition loop_found (path : list string) (next_url : string) : PathOutcome :=
  match (if bool_decide (next_url ∈ path) then index_of next_url path else None) with
  | Some loop_index =>
      LoopDetected (Z.of_nat loop_index) (drop loop_index path ++ [next_url])
  | None => LoopDetected (-1) []
  end.

(** One turn of the loop.  [Completed] stands for the [return] under the
    target-depth test, the other outcomes for a [break]. *)
Definition follow_general_path_turn (target_depth : Z) (v : general_vars)
  : io (general_vars * option PathOutcome) :=
  '(next_url, current_title) ← extract_first_link (gp_current_url v);
  let titles := <[gp_current_url v := current_title]> (gp_titles v) in
  let v := GeneralVars (gp_current_url v) (gp_path v) titles (gp_steps v)
             (gp_visited_in_path v) in
  if bool_decide (target_depth - 1 ≤ gp_steps v)%Z then mret (v, Some Completed)
  else
    match truthy_url next_url with
    | None => mret (v, Some DeadEnd)
    | Some next =>
        if bool_decide (next ∈ gp_visited_in_path v) then
          mret (v, Some (loop_found (gp_path v) next))
        else
          _ ← sleep 500;
          mret (GeneralVars next (gp_path v ++ [next]) titles (gp_steps v + 1)
                  ({[next]} ∪ gp_visited_in_path v), None)
    end.

Fixpoint follow_general_path_loop (target_depth : Z) (turns_left : nat) (v : general_vars)
  : io (general_vars * PathOutcome) :=
  match turns_left with
  | O => mret (v, StepLimitReached)
  | S turns_left' =>
      '(v', ended) ← follow_general_path_turn target_depth v;
      match ended with
      | Some why => mret (v', why)
      | None => follow_general_path_loop target_depth turns_left' v'
      end
  end.

(** [follow_general_path] from a given start, for a crawler built with
    [target_depth] and [max_steps]: [(path, titles, reached_depth)] and the
    exit. *)
Definition follow_general_path_from (target_depth max_steps : Z) (start_url : string)
  : io (list string * gmap string string * bool * PathOutcome) :=
  '(v, why) ← follow_general_path_loop target_depth (Z.to_nat max_steps)
                 (GeneralVars start_url [start_url] ∅ 0 {[start_url]});
  mret (gp_path v, gp_titles v,
        match why with
        | Completed => true
        | _ => bool_decide (target_depth - 1 ≤ gp_steps v)%Z
        end,
        why).

Definition follow_general_path (target_depth max_steps : Z) (start_url : option string)
  : io (list string * gmap string string * bool * PathOutcome) :=
  start ← resolve_start start_url;
  follow_general_path_from target_depth max_steps start.

(** *** [DeepWikiCrawler.crawl_deeply] *)

Record deep_vars : Type := DeepVars {
  dp_current_url : string;
  dp_path : list string;
  dp_titles : gmap string string;
  dp_steps : Z;
  dp_visited_in_path : gset string;
  dp_visited_articles : gset string;
  (** the caller's set object, which the walk adds to; [None] when the
      caller passed none *)
  dp_visited_global : option (gset string)
}.

(** [visited_global is not None and title in visited_global] *)
Definition known_globally (visited_global : option (gset string)) (title : string) : bool :=
  match visited_global with
  | Some g => bool_decide (title ∈ g)
  | None => false
  end.

(** [if visited_global is not None: visited_global.add(title)] *)
Definition add_globally (visited_global : option (gset string)) (title : string)
  : option (gset string) :=
  (λ g, {[title]} ∪ g) <$> visited_global.

Definition crawl_deeply_turn (v : deep_vars) : io (deep_vars * option PathOutcome) :=
  '(next_url, current_title) ← extract_first_link (dp_current_url v);
  let titles := <[dp_current_url v := current_title]> (dp_titles v) in
  let v := DeepVars (dp_current_url v) (dp_path v) titles (dp_steps v)
             (dp_visited_in_path v) (dp_visited_articles v) (dp_visited_global v) in
  match truthy_url next_url with
  | None => mret (v, Some DeadEnd)
  | Some next =>
      let next_title := get_title_from_url next in
      if bool_decide (next ∈ dp_visited_in_path v) then
        mret (v, Some (loop_found (dp_path v) next))
      else if known_globally (dp_visited_global v) next_title then
        mret (DeepVars (dp_current_url v) (dp_path v ++ [next])
                (<[next := next_title]> titles) (dp_steps v)
                (dp_visited_in_path v) (dp_visited_articles v) (dp_visited_global v),
              Some AlreadyKnown)
      else
        _ ← sleep 500;
        mret (DeepVars next (dp_path v ++ [next]) titles (dp_steps v + 1)
                ({[next]} ∪ dp_visited_in_path v)
                ({[next_title]} ∪ dp_visited_articles v)
                (add_globally (dp_visited_global v) next_title), None)
  end.

Fixpoint crawl_deeply_loop (turns_left : nat) (v : deep_vars)
  : io (deep_vars * PathOutcome) :=
  match turns_left with
  | O => mret (v, StepLimitReached)
  | S turns_left' =>
      '(v', ended) ← crawl_deeply_turn v;
      match ended with
      | Some why => mret (v', why)
      | None => crawl_deeply_loop turns_left' v'
      end
  end.

(** What a deep walk hands back: the returned triple, the caller's set as
    the walk left it, and the exit. *)
Record deep_walk : Type := DeepWalk {
  dw_path : list string;
  dw_titles : gmap string string;
  dw_visited_articles : gset string;
  dw_visited_global : option (gset string);
  dw_outcome : PathOutcome
}.

(** [crawl_deeply] from a given start, for a crawler built with [max_steps]. *)
Definition crawl_deeply_from (max_steps : Z) (start_url : string)
    (visited_global : option (gset string)) : io deep_walk :=
  let start_title := get_title_from_url start_url in
  if known_globally visited_global start_title then
    mret (DeepWalk [start_url] ∅ ∅ visited_global AlreadyKnown)
  else
    '(v, why) ← crawl_deeply_loop (Z.to_nat max_steps)
                   (DeepVars start_url [start_url] ∅ 0 {[start_url]}
                      {[start_title]} (add_globally visited_global start_title));
    mret (DeepWalk (dp_path v) (dp_titles v) (dp_visited_articles v)
            (dp_visited_global v) why).

Definition crawl_deeply (max_steps : Z) (start_url : option string)
    (visited_global : option (gset string)) : io deep_walk :=
  start ← resolve_start start_url;
  crawl_deeply_from max_steps start visited_global.

(** The heads of the loop a deep walk passes through: the loop variables
    and the state of the world at the start of each turn of the walk made by
    [crawl_deeply_from max_steps start_url visited_global] from [st0]. *)
Inductive deep_walk_at (max_steps : Z) (start_url : string)
    (visited_global : option (gset string)) (st0 : state)
  : deep_vars → state → Prop :=
| at_first_turn :
    known_globally visited_global (get_title_from_url start_url) = false →
    deep_walk_at max_steps start_url visited_global st0
      (DeepVars start_url [start_url] ∅ 0 {[start_url]}
         {[get_title_from_url start_url]}
         (add_globally visited_global (get_title_from_url start_url)))
      st0
| at_next_turn v st v' st' :
    deep_walk_at max_steps start_url visited_global st0 v st →
    (dp_steps v < max_steps)%Z →
    crawl_deeply_turn v st = (Ok (v', None), st') →
    deep_walk_at max_steps start_url visited_global st0 v' st'.

(** ** Controllers

    A job ([crawl_article]) runs on a pool thread.  It is written as a
    program over the actions through which it touches what it shares with
    the other threads (the stop flag, the set of known titles, the
    database) and the network; a block under the controller's lock is one
    action.  The semantics below interleaves the actions of all jobs. *)

Inductive action : Type → Type :=
| StopFlagIsSet : action bool
    (* [self.stop_flag.is_set()] *)
| Network {A : Type} (c : io A) : action (result A)
    (* a call into the job's own crawler object *)
| ReadVisited : action (gset string)
    (* under the lock: the set of known titles, read or copied *)
| AddVisited (titles : gset string) : action unit
    (* under the lock: [update] / repeated [add] *)
| ConnectToDatabase : action bool
    (* [connect_to_database()] returned a connection *)
| StorePathInDb (path : list string) (titles : gmap string string)
                (start_article : string) (succeeded : bool) : action (option Z).
    (* [store_path_in_db]: the stored row's id, or [None] *)

Inductive prog (R : Type) : Type :=
| Return (r : R)
| Throw                                        (* an exception leaves the job *)
| Perform {X : Type} (a : action X) (k : X → prog R).
Arguments Return {R} r.
Arguments Throw {R}.
Arguments Perform {R X} a k.

Fixpoint prog_bind {A B : Type} (f : A → prog B) (p : prog A) : prog B :=
  match p with
  | Return a => f a
  | Throw => Throw
  | Perform a k => Perform a (λ x, prog_bind f (k x))
  end.

#[export] Instance prog_mret : MRet prog := @Return.
#[export] Instance prog_mbind : MBind prog := @prog_bind.

Definition perform {X : Type} (a : action X) : prog X := Perform a Return.

(** A crawler call whose exception, if any, leaves the job. *)
Definition network {A : Type} (c : io A) : prog A :=
  r ← perform (Network c);
  match r with
  | Ok a => Return a
  | Raised => Throw
  end.

(** The dictionary a job returns; a key one controller does not set is
    [None]. *)
Record crawl_result : Type := CrawlResult {
  r_start_url : string;
  r_start_title : string;
  r_end_title : option string;
  r_steps : Z;
  r_reached_target : option bool;
  r_path : list string;
  r_path_titles : list string;
  r_path_id : option Z
}.

(** [titles.get(url, crawler.get_title_from_url(url))] *)
Definition title_of (titles : gmap string string) (url : string) : string :=
  default (get_title_from_url url) (titles !! url).

(** *** [LargeWikiGraphController.crawl_article] *)

Definition large_crawl_article (max_steps : Z) (start_url : option string)
  : prog (option crawl_result) :=
  stopped ← perform StopFlagIsSet;
  if stopped : bool then Return None
  else
    start_url ← network (resolve_start start_url);
    visited_global ← perform ReadVisited;
    walk ← network (crawl_deeply max_steps (Some start_url) (Some visited_global));
    let path := dw_path walk in
    let titles := dw_titles walk in
    _ ← perform (AddVisited (dw_visited_articles walk));
    match path with
    | [] => Throw                              (* [path[0]] *)
    | first :: _ =>
        let start_title := title_of titles first in
        let end_title := title_of titles (List.last path first) in
        stopped ← perform StopFlagIsSet;
        if stopped : bool then Return None
        else
          db ← perform ConnectToDatabase;
          path_id ← (if db : bool
                     then perform (StorePathInDb path titles start_title true)
                     else Return None);
          Return (Some (CrawlResult start_url start_title (Some end_title)
                          (Z.of_nat (length path) - 1) None path
                          (title_of titles <$> path) path_id))
    end.

(** *** [ParallelWikiController.crawl_article] *)

(** The [for _ in range(max_retries)] search for an unmapped random start. *)
Fixpoint pick_unmapped (tries : nat) (mapped_articles : gset string)
    (start_url start_title : string) : prog (string * string) :=
  match tries with
  | O => Return (start_url, start_title)
  | S tries' =>
      new_url ← network get_random_article;
      let new_title := get_title_from_url new_url in
      if bool_decide (new_title ∉ mapped_articles) then Return (new_url, new_title)
      else pick_unmapped tries' mapped_articles start_url start_title
  end.

Definition parallel_crawl_article (target_depth max_steps : Z) (article_or_url : string)
  : prog (option crawl_result) :=
  stopped ← perform StopFlagIsSet;
  if stopped : bool then Return None
  else
    let start_url :=
      if PyStr.startswith article_or_url "http" then article_or_url
      else "https://en.wikipedia.org/wiki/"
           +:+ PyStr.replace (PyStr.strip article_or_url) " " "_" in
    let start_title := get_title_from_url start_url in
    mapped_articles ← perform ReadVisited;
    '(start_url, start_title) ←
      (if bool_decide (start_title ∈ mapped_articles)
       then pick_unmapped 5 mapped_articles start_url start_title
       else Return (start_url, start_title));
    walk ← network (follow_general_path target_depth max_steps (Some start_url));
    let '(path, titles, reached_target, _) := walk in
    stopped ← perform StopFlagIsSet;
    if stopped : bool then Return None
    else
      db ← perform ConnectToDatabase;
      path_id ← (if db : bool
                 then
                   path_id ← perform (StorePathInDb path titles start_title reached_target);
                   _ ← perform (AddVisited (list_to_set (title_of titles <$> path)));
                   Return path_id
                 else Return None);
      Return (Some (CrawlResult start_url start_title None
                      (Z.of_nat (length path) - 1) (Some reached_target) path
                      (title_of titles <$> path) path_id)).

Inductive crawl_job : prog (option crawl_result) → Prop :=
| job_large max_steps start_url :
    crawl_job (large_crawl_article max_steps start_url)
| job_parallel target_depth max_steps article_or_url :
    crawl_job (parallel_crawl_article target_depth max_steps article_or_url).

(** *** The running controller *)

Record system : Type := System {
  stop_flag : bool;                            (* [self.stop_flag] *)
  visited_articles : gset string;              (* [self.visited_articles] /
                                                  [self.mapped_articles] *)
  stored : list (nat * list string);           (* store calls so far: job, path *)
  pool : list (prog (option crawl_result))     (* the jobs accepted so far *)
}.

Definition initial : system := System false ∅ [] [].

(** What an action may be answered in a state: the flag and the set are
    read as they are; the network and the database answer as they please. *)
Definition answers (s : system) {X : Type} (a : action X) : X → Prop :=
  match a in action X return X → Prop with
  | StopFlagIsSet => λ x, x = stop_flag s
  | Network c => λ x, ∃ st st', c st = (x, st')
  | ReadVisited => λ x, x = visited_articles s
  | AddVisited _ => λ _, True
  | ConnectToDatabase => λ _, True
  | StorePathInDb _ _ _ _ => λ _, True
  end.

(** What an action of job [j] does to the shared state. *)
Definition effect (s : system) (j : nat) {X : Type} (a : action X)
  : list (prog (option crawl_result)) → system :=
  match a with
  | AddVisited titles =>
      System (stop_flag s) (visited_articles s ∪ titles) (stored s)
  | StorePathInDb path _ _ _ =>
      System (stop_flag s) (visited_articles s) (stored s ++ [(j, path)])
  | _ => System (stop_flag s) (visited_articles s) (stored s)
  end.

Inductive label : Type :=
| Submit (p : prog (option crawl_result))
    (* a job is accepted: [executor.submit(self.crawl_article, ...)], or
       the call made directly by [run_large_graph_crawl] *)
| SetStopFlag
    (* [self.stop_flag.set()]: the size monitor, the interrupt handler *)
| Seed (titles : gset string)
    (* [load_existing_articles] / [load_mapped_articles] *)
| Act (j : nat) {X : Type} (a : action X) (x : X).
    (* job [j] performs [a] and is answered [x] *)

Inductive step : system → label → system → Prop :=
| step_submit s p :
    crawl_job p →
    step s (Submit p)
      (System (stop_flag s) (visited_articles s) (stored s) (pool s ++ [p]))
| step_set_stop_flag s :
    step s SetStopFlag (System true (visited_articles s) (stored s) (pool s))
| step_seed s titles :
    step s (Seed titles)
      (System (stop_flag s) (visited_articles s ∪ titles) (stored s) (pool s))
| step_act s j X (a : action X) k x :
    pool s !! j = Some (Perform a k) →
    answers s a x →
    step s (Act j a x) (effect s j a (<[j := k x]> (pool s))).

(** Runs: a sequence of steps with its labels in order. *)
Inductive run : system → list label → system → Prop :=
| run_nil s : run s [] s
| run_snoc s t s' l s'' : run s t s' → step s' l s'' → run s (t ++ [l]) s''.

(** Readings of a label. *)
Definition is_store_by (j : nat) (l : label) : Prop :=
  match l with
  | Act j' (StorePathInDb _ _ _ _) _ => j' = j
  | _ => False
  end.

Definition is_network_by (j : nat) (l : label) : Prop :=
  match l with
  | Act j' (Network _) _ => j' = j
  | _ => False
  end.

Definition is_act_by (j : nat) (l : label) : Prop :=
  match l with
  | Act j' _ _ => j' = j
  | _ => False
  end.

Definition sees_flag (j : nat) (b : bool) (l : label) : Prop :=
  match l with
  | Act j' a x =>
      j' = j ∧
      match a in action X return X → Prop with
      | StopFlagIsSet => λ x, x = b
      | _ => λ _, False
      end x
  | _ => False
  end.

(** The jobs accepted in a run so far; the next one gets this index. *)
Definition accepted (t : list label) : nat :=
  length (List.filter (λ l, match l with Submit _ => true | _ => false end) t).

(** What a job read from the stop flag, if [a] is such a read. *)
Definition flag_read {X : Type} (a : action X) : X → option bool :=
  match a in action X return X → option bool with
  | StopFlagIsSet => λ x, Some x
  | _ => λ _, None
  end.

Definition is_store {X : Type} (a : action X) : bool :=
  match a with
  | StorePathInDb _ _ _ _ => true
  | _ => false
  end.

(** A job run on its own ends with [r], for some answers to its actions. *)
Fixpoint yields {R : Type} (p : prog R) (r : result R) : Prop :=
  match p with
  | Return a => r = Ok a
  | Throw => r = Raised
  | Perform a k => ∃ x, (∃ s, answers s a x) ∧ yields (k x) r
  end.

(** ** Invariants

    What the proofs below carry along the walkers' loops and along the runs
    of a controller. *)

(** What holds of the loop variables at the head of the loop. *)
Definition follow_path_inv (v : follow_path_vars) : Prop :=
  ∃ front, fp_path v = front ++ [fp_current_url v]
    ∧ NoDup front
    ∧ fp_steps v = (Z.of_nat (length (fp_path v)) - 1)%Z.

(** What holds once the walk has ended. *)
Definition follow_path_post (v : follow_path_vars) (why : PathOutcome) : Prop :=
  ∃ front, fp_path v = front ++ [fp_current_url v]
    ∧ NoDup front
    ∧ fp_steps v = (Z.of_nat (length (fp_path v)) - 1)%Z
    ∧ ∀ loop_index loop, why = LoopDetected loop_index loop →
        ∃ i, loop_index = Z.of_nat i
          ∧ front !! i = Some (fp_current_url v)
          ∧ (∀ j, front !! j = Some (fp_current_url v) → j = i)
          ∧ loop = drop i (fp_path v).

Definition general_inv (v : general_vars) : Prop :=
  (∃ front, gp_path v = front ++ [gp_current_url v])
  ∧ NoDup (gp_path v)
  ∧ gp_visited_in_path v = list_to_set (gp_path v)
  ∧ gp_steps v = (Z.of_nat (length (gp_path v)) - 1)%Z.

(** What the exit says about the loop variables. *)
Definition general_exit (target_depth : Z) (v : general_vars) (why : PathOutcome) : Prop :=
  match why with
  | Completed => (target_depth - 1 ≤ gp_steps v)%Z
  | DeadEnd => (gp_steps v < target_depth - 1)%Z
  | LoopDetected loop_index loop =>
      (gp_steps v < target_depth - 1)%Z
      ∧ ∃ i repeated,
          loop_index = Z.of_nat i
          ∧ gp_path v !! i = Some repeated
          ∧ loop = drop i (gp_path v) ++ [repeated]
  | StepLimitReached | AlreadyKnown => False
  end.

(** At the head of the loop of a deep walk run against [supplied]. *)
Definition deep_inv (supplied : option (gset string)) (v : deep_vars) : Prop :=
  (∃ front, dp_path v = front ++ [dp_current_url v])
  ∧ NoDup (dp_path v)
  ∧ dp_visited_in_path v = list_to_set (dp_path v)
  ∧ dp_steps v = (Z.of_nat (length (dp_path v)) - 1)%Z
  ∧ (∀ url, url ∈ dp_path v → known_globally supplied (get_title_from_url url) = false)
  ∧ dp_visited_global v = (λ g, dp_visited_articles v ∪ g) <$> supplied.

(** After the walk. *)
Definition deep_exit (supplied : option (gset string)) (v : deep_vars)
    (why : PathOutcome) : Prop :=
  NoDup (dp_path v)
  ∧ dp_path v ≠ []
  ∧ match why with
    | AlreadyKnown =>
        dp_steps v = (Z.of_nat (length (dp_path v)) - 2)%Z
        ∧ ∃ front next,
            dp_path v = front ++ [next]
            ∧ (∀ url, url ∈ front →
                 known_globally supplied (get_title_from_url url) = false)
    | LoopDetected loop_index loop =>
        dp_steps v = (Z.of_nat (length (dp_path v)) - 1)%Z
        ∧ ∃ i repeated,
            loop_index = Z.of_nat i
            ∧ dp_path v !! i = Some repeated
            ∧ loop = drop i (dp_path v) ++ [repeated]
    | _ => dp_steps v = (Z.of_nat (length (dp_path v)) - 1)%Z
    end.

Definition deep_start (start_url : string) (visited_global : option (gset string))
  : deep_vars :=
  DeepVars start_url [start_url] ∅ 0 {[start_url]}
    {[get_title_from_url start_url]}
    (add_globally visited_global (get_title_from_url start_url)).

(** Nothing the job can still do reads the stop flag. *)
Fixpoint reads_no_flag {R : Type} (p : prog R) : Prop :=
  match p with
  | Perform a k => ∀ x, flag_read a x = None ∧ reads_no_flag (k x)
  | _ => True
  end.

(** The job keeps to the protocol: when a read of the flag is answered
    [true] it returns [None] on the spot, and once it has called the store
    it does not read the flag again. *)
Fixpoint heeds_flag (p : prog (option crawl_result)) : Prop :=
  match p with
  | Perform a k =>
      ∀ x, match flag_read a x with
           | Some true => k x = Return None
           | _ => if is_store a then reads_no_flag (k x) else heeds_flag (k x)
           end
  | _ => True
  end.

(** The job begins by reading the flag. *)
Definition begins_with_check (p : prog (option crawl_result)) : Prop :=
  match p with
  | Perform a k => ∀ x, flag_read a x ≠ None
  | _ => False
  end.

(** Where a job stands with respect to the flag, given the run so far. *)
Definition job_ok (t : list label) (j : nat) (p : prog (option crawl_result)) : Prop :=
  (Forall (λ l, ¬ sees_flag j true l) t
   ∧ Forall (λ l, ¬ is_store_by j l) t
   ∧ heeds_flag p)
  ∨ (Forall (λ l, ¬ is_store_by j l) t ∧ p = Return None)
  ∨ (Forall (λ l, ¬ sees_flag j true l) t ∧ reads_no_flag p).

Definition pool_ok (t : list label) (s : system) : Prop :=
  (∀ j p, pool s !! j = Some p → job_ok t j p)
  ∧ Forall (λ l, ∀ j, is_act_by j l → j < length (pool s)) t.

End Crawler.

Arguments Return {_ R} r.
Arguments Throw {_ R}.
Arguments Perform {_ R X} a k.

(** ** A small static web, for worked examples

    Pages are served from a fixed table and never fail.  On the locators and
    [href]s used here ([https://en.wikipedia.org/wiki/<name>] and
    [/wiki/<name>], with no [%], [?], [#] or dot segment) the three [urllib]
    functions below agree with Python's. *)

Module Scenario.

Definition wiki (name : string) : string := "https://en.wikipedia.org/wiki/" +:+ name.

Definition link (name : string) : node :=
  Tag "a" None [] (Some ("/wiki/" +:+ name)) [NavigableString name].

(** A page as the parser returns it: heading, content container, one lead
    paragraph. *)
Definition article (title : string) (lead : list node) : node :=
  Tag "[document]" None [] None
    [Tag "html" None [] None
       [Tag "body" None [] None
          [Tag "h1" (Some "firstHeading") ["firstHeading"] None [NavigableString title];
           Tag "div" (Some "mw-content-text") ["mw-body-content"] None
             [Tag "div" None ["mw-parser-output"] None
                [Tag "p" None [] None lead]]]]].

Definition pages : list (string * node) :=
  [ (* the lead of scenario A *)
    (wiki "A", article "A" [NavigableString "A thing (see "; link "B";
                            NavigableString ") relates to "; link "C";
                            NavigableString "."]);
    (* a cycle X -> Y -> Z -> X *)
    (wiki "X", article "X" [NavigableString "X is a kind of "; link "Y";
                            NavigableString "."]);
    (wiki "Y", article "Y" [NavigableString "Y is a kind of "; link "Z";
                            NavigableString "."]);
    (wiki "Z", article "Z" [NavigableString "Z is a kind of "; link "X";
                            NavigableString "."]);
    (* a lead whose only link is inside parentheses *)
    (wiki "P", article "P" [NavigableString "A thing (see "; link "B";
                            NavigableString ")."]);
    (* a page without links *)
    (wiki "Dead", article "Dead" [NavigableString "Nothing to follow here."]) ].

Fixpoint lookup_page (url : string) (table : list (string * node)) : fetch_result :=
  match table with
  | [] => FetchError
  | (u, page) :: table' => if String.eqb u url then FetchOk page else lookup_page url table'
  end.

(** The part of a locator after [scheme://host]. *)
Definition path_of (url : string) : option string :=
  if PyStr.startswith url base_url
  then Some (String.substring (String.length base_url)
               (String.length url - String.length base_url) url)
  else Some url.

Definition static_web : Platform := {|
  world := unit;
  session_get url w := (lookup_page url pages, w);
  special_random w := (Some (wiki "X"), w);
  urljoin base href := base +:+ href;
  urlparse_path := path_of;
  unquote s := s
|}.

(** A network on which every request fails. *)
Definition offline : Platform := {|
  world := unit;
  session_get url w := (FetchError, w);
  special_random w := (None, w);
  urljoin base href := base +:+ href;
  urlparse_path := path_of;
  unquote s := s
|}.

Definition start : @state static_web := @State static_web () [].

End Scenario.

(** * More of the sources

    The rest of [wiki_core.py] ([remove_parentheses], [run_experiment]),
    the callers of its walker ([wiki_single_article.py],
    [db/wiki_db_storage.py]), the storage class the two controllers write
    through ([WikiDatabaseStorage.store_path]) and the corrector that reads
    stored paths back ([scripts/correct_paths.py]). *)

(** ** [WikiCrawler.remove_parentheses] (wiki_core.py) *)

Module PyText.

(** [s.replace(old, new)] for a non-empty [old]: occurrences are found from
    the left and do not overlap; [skip] counts the characters of a match
    still to be passed over. *)
Fixpoint replace_from (old new : string) (skip : nat) (s : string) : string :=
  match s with
  | "" => ""
  | String c s' =>
      match skip with
      | S skip' => replace_from old new skip' s'
      | O =>
          if PyStr.startswith s old
          then new +:+ replace_from old new (String.length old - 1) s'
          else String c (replace_from old new 0 s')
      end
  end.

Definition replace (s old new : string) : string := replace_from old new 0 s.

(** The characters of a string. *)
Fixpoint chars (s : string) : list ascii :=
  match s with
  | "" => []
  | String c s' => c :: chars s'
  end.

End PyText.

(** [text[i] == paren and (i == 0 or text[i-1] != '\\')], with [previous]
    the character before position [i], if any. *)
Definition unescaped (paren c : ascii) (previous : option ascii) : bool :=
  Ascii.eqb c paren
  && match previous with
     | None => true
     | Some p => negb (Ascii.eqb p "\")
     end.

(** The [while i < len(text)] loop over what is left of [text]. *)
Fixpoint remove_parentheses_loop (previous : option ascii) (text : string)
    (depth : nat) (result : string) : string :=
  match text with
  | "" => result
  | String c text' =>
      if unescaped "(" c previous then
        remove_parentheses_loop (Some c) text' (depth + 1) result
      else if unescaped ")" c previous then
        remove_parentheses_loop (Some c) text'
          (if bool_decide (0 < depth) then depth - 1 else depth) result
      else if bool_decide (depth = 0) then
        remove_parentheses_loop (Some c) text' depth (result +:+ String c "")
      else
        remove_parentheses_loop (Some c) text' depth result
  end.

Definition remove_parentheses (html_text : string) : string :=
  let text := PyText.replace (PyText.replace html_text "&lt;" "<") "&gt;" ">" in
  remove_parentheses_loop None text 0 "".

(** Used in statements about [remove_parentheses]. *)

(** Every parenthesis of [s] comes right after a backslash, [before] being
    the character in front of [s]. *)
Fixpoint parens_escaped (before : option ascii) (s : string) : Prop :=
  match s with
  | "" => True
  | String c s' =>
      (c = "("%char ∨ c = ")"%char → before = Some "\"%char)
      ∧ parens_escaped (Some c) s'
  end.

(** Characters that are neither a parenthesis, nor a backslash, nor the
    start of an entity. *)
Definition ordinary (s : string) : Prop :=
  Forall (λ c, c ∉ ["("; ")"; "\"; "&"]%char) (PyText.chars s).

Definition not_backslash (previous : option ascii) : Prop := previous ≠ Some "\"%char.

Definition no_ampersand (s : string) : Prop :=
  Forall (λ c, c ≠ "&"%char) (PyText.chars s).

(** ** Callers of [follow_path] *)

Definition philosophy_url : string := "https://en.wikipedia.org/wiki/Philosophy".

(** [f"https://en.wikipedia.org/wiki/{article.strip().replace(' ', '_')}"]
    (wiki_single_article.py, db/wiki_db_storage.py and, for an argument that
    does not start with [http], [ParallelWikiController.crawl_article]) *)
Definition article_url (article : string) : string :=
  "https://en.wikipedia.org/wiki/" +:+ PyStr.replace (PyStr.strip article) " " "_".

(** What [main] of wiki_single_article.py prints under [=== RESULT ===]. *)
Inductive report : Type :=
| PathTaken (lines : list string)
| MaximumSteps
| LoopCycle (loop_titles : list string)
| DeadEndAt (last_title : string).

(** One entry of the list [run_experiment] returns. *)
Record experiment_result : Type := ExperimentResult {
  e_start_url : string;
  e_start_title : string;
  e_steps : Z;
  e_reached_philosophy : bool;
  e_path : list string;
  e_path_titles : list string
}.

(** Each locator of [path] but the first is the next link [step] gives for
    the one before it. *)
Definition first_link_chain {A : Type} (step : string → option string * A)
    (path : list string) : Prop :=
  ∀ i url next,
    path !! i = Some url → path !! S i = Some next →
    truthy_url (step url).1 = Some next.

Section Callers.
Context `{Platform}.

(** The branches of [main] after the walk; [None] stands for the
    [IndexError] of [path[-1]] on an empty path. *)
Definition single_article_report (args_steps : Z) (path : list string) (steps : Z)
    (titles : gmap string string) : option report :=
  if bool_decide (philosophy_url ∈ path) then
    Some (PathTaken (title_of titles <$> path))
  else if bool_decide (args_steps ≤ steps)%Z then Some MaximumSteps
  else
    last_url ← last path;
    if bool_decide (last_url ∈ all_but_last path) then
      loop_index ← index_of last_url path;
      Some (LoopCycle (title_of titles <$> drop loop_index path))
    else Some (DeadEndAt (title_of titles last_url)).

(** [main] of wiki_single_article.py up to the report, with the walker's
    own exit beside it. *)
Definition single_article (article : string) (args_steps : Z)
  : io (option report * PathOutcome) :=
  '(path, steps, titles, why) ← follow_path (Some (article_url article)) args_steps;
  mret (single_article_report args_steps path steps titles, why).

(** [any(title == "Philosophy" for title in titles.values())] *)
Definition any_title_is_philosophy (titles : gmap string string) : bool :=
  existsb (λ title, String.eqb title "Philosophy") (map_to_list titles).*2.

(** [crawl_and_store] (db/wiki_db_storage.py) up to the flag it computes
    from the walk: [(path, titles, reached_philosophy)], with the walker's
    exit beside it. *)
Definition crawl_and_store_walk (article_title : string) (max_steps : Z)
  : io (list string * gmap string string * bool * PathOutcome) :=
  '(path, steps, titles, why) ← follow_path (Some (article_url article_title)) max_steps;
  mret (path, titles, any_title_is_philosophy titles, why).

(** The body of the [for i in range(num_articles)] loop of
    [run_experiment]; a missing key of [titles] raises. *)
Definition experiment (max_steps : Z) : io experiment_result :=
  start_url ← get_random_article;
  '(path, steps, titles, _) ← follow_path (Some start_url) max_steps;
  let reached_philosophy := bool_decide (philosophy_url ∈ path) in
  match titles !! start_url with
  | None => raise
  | Some start_title =>
      match mapM (λ url, titles !! url) path with
      | None => raise
      | Some path_titles =>
          _ ← sleep 1000;
          mret (ExperimentResult start_url start_title steps reached_philosophy
                  path path_titles)
      end
  end.

Fixpoint run_experiment_loop (max_steps : Z) (articles_left : nat)
    (results : list experiment_result) : io (list experiment_result) :=
  match articles_left with
  | O => mret results
  | S articles_left' =>
      result ← experiment max_steps;
      run_experiment_loop max_steps articles_left' (results ++ [result])
  end.

(** [WikiCrawler.run_experiment] *)
Definition run_experiment (num_articles max_steps : Z) : io (list experiment_result) :=
  run_experiment_loop max_steps (Z.to_nat num_articles) [].

(** The network answers steadily: whenever it is asked, the extractor
    returns [answer url] for [url]. *)
Definition steady (answer : string → option string * string) : Prop :=
  ∀ url st, ∃ st', extract_first_link url st = (Ok (answer url), st').

(** ** More invariants of the walkers *)

(** At the head of the loop of [follow_path], for a walk begun in [st0]
    with [max_steps] allowed and [turns_left] turns to go. *)
Definition follow_path_head (max_steps : Z) (st0 : state) (turns_left : nat)
    (v : follow_path_vars) (st : state) : Prop :=
  ∃ front new,
    fp_path v = front ++ [fp_current_url v]
    ∧ fp_steps v = Z.of_nat (length front)
    ∧ (Z.of_nat turns_left + fp_steps v = Z.of_nat (Z.to_nat max_steps))%Z
    ∧ dom (fp_titles v) = list_to_set front
    ∧ (∀ url title, fp_titles v !! url = Some title → title ≠ "Philosophy")
    ∧ log st = log st0 ++ new
    ∧ requests new ≤ 3 * length front
    ∧ (∀ url, Requested url ∈ new → url ∈ front).

(** After the loop. *)
Definition follow_path_end (max_steps : Z) (st0 : state)
    (v : follow_path_vars) (why : PathOutcome) (st : state) : Prop :=
  ∃ front new,
    fp_path v = front ++ [fp_current_url v]
    ∧ fp_steps v = Z.of_nat (length front)
    ∧ (why = StepLimitReached ↔ (max_steps ≤ fp_steps v)%Z)
    ∧ (fp_steps v ≤ Z.of_nat (Z.to_nat max_steps))%Z
    ∧ dom (fp_titles v)
      = list_to_set (match why with StepLimitReached => front | _ => fp_path v end)
    ∧ (why = Completed ↔ ∃ url, fp_titles v !! url = Some "Philosophy")
    ∧ (why = Completed → fp_titles v !! fp_current_url v = Some "Philosophy")
    ∧ (why = DeadEnd → fp_current_url v ∉ front)
    ∧ (∀ loop_index loop, why = LoopDetected loop_index loop →
         fp_current_url v ∈ front
         ∧ ∃ i, index_of (fp_current_url v) (fp_path v) = Some i
             ∧ loop_index = Z.of_nat i ∧ loop = drop i (fp_path v))
    ∧ why ≠ AlreadyKnown
    ∧ log st = log st0 ++ new
    ∧ requests new ≤ 3 * Z.to_nat max_steps
    ∧ (∀ url, Requested url ∈ new → url ∈ fp_path v).

(** At the head of the loop of [follow_general_path]. *)
Definition general_head (max_steps : Z) (st0 : state) (turns_left : nat)
    (v : general_vars) (st : state) : Prop :=
  ∃ front new,
    gp_path v = front ++ [gp_current_url v]
    ∧ NoDup (gp_path v)
    ∧ gp_visited_in_path v = list_to_set (gp_path v)
    ∧ gp_steps v = Z.of_nat (length front)
    ∧ (Z.of_nat turns_left + gp_steps v = Z.of_nat (Z.to_nat max_steps))%Z
    ∧ dom (gp_titles v) = list_to_set front
    ∧ log st = log st0 ++ new
    ∧ requests new ≤ 3 * length front
    ∧ (∀ url, Requested url ∈ new → url ∈ front).

(** After the loop. *)
Definition general_end (target_depth max_steps : Z) (st0 : state)
    (v : general_vars) (why : PathOutcome) (st : state) : Prop :=
  ∃ front new,
    gp_path v = front ++ [gp_current_url v]
    ∧ NoDup (gp_path v)
    ∧ gp_steps v = Z.of_nat (length front)
    ∧ (why = StepLimitReached ↔ (max_steps ≤ gp_steps v)%Z)
    ∧ (gp_steps v ≤ Z.of_nat (Z.to_nat max_steps))%Z
    ∧ dom (gp_titles v)
      = list_to_set (match why with StepLimitReached => front | _ => gp_path v end)
    ∧ match why with
      | Completed => (target_depth - 1 ≤ gp_steps v)%Z
      | DeadEnd | LoopDetected _ _ => (gp_steps v < target_depth - 1)%Z
      | StepLimitReached => True
      | AlreadyKnown => False
      end
    ∧ log st = log st0 ++ new
    ∧ requests new ≤ 3 * Z.to_nat max_steps
    ∧ (∀ url, Requested url ∈ new → url ∈ gp_path v).

(** At the head of the loop of [crawl_deeply], run against [supplied]. *)
Definition deep_head (supplied : option (gset string)) (max_steps : Z) (st0 : state)
    (turns_left : nat) (v : deep_vars) (st : state) : Prop :=
  ∃ front new,
    dp_path v = front ++ [dp_current_url v]
    ∧ NoDup (dp_path v)
    ∧ dp_visited_in_path v = list_to_set (dp_path v)
    ∧ dp_steps v = Z.of_nat (length front)
    ∧ (Z.of_nat turns_left + dp_steps v = Z.of_nat (Z.to_nat max_steps))%Z
    ∧ dom (dp_titles v) = list_to_set front
    ∧ dp_visited_articles v = list_to_set (get_title_from_url <$> dp_path v)
    ∧ (∀ url, url ∈ dp_path v → known_globally supplied (get_title_from_url url) = false)
    ∧ dp_visited_global v = (λ g, dp_visited_articles v ∪ g) <$> supplied
    ∧ log st = log st0 ++ new
    ∧ requests new ≤ 3 * length front
    ∧ (∀ url, Requested url ∈ new → url ∈ front).

(** After the loop; [walked] are the locators the walk moved to, the start
    included. *)
Definition deep_end (supplied : option (gset string)) (max_steps : Z) (st0 : state)
    (v : deep_vars) (why : PathOutcome) (st : state) : Prop :=
  ∃ front new,
    let walked := front ++ [dp_current_url v] in
    NoDup (dp_path v)
    ∧ match why with
      | AlreadyKnown =>
          ∃ next, dp_path v = walked ++ [next]
            ∧ known_globally (dp_visited_global v) (get_title_from_url next) = true
            ∧ dp_titles v !! next = Some (get_title_from_url next)
      | Completed => False
      | _ => dp_path v = walked
      end
    ∧ dp_steps v = Z.of_nat (length front)
    ∧ (why = StepLimitReached ↔ (max_steps ≤ dp_steps v)%Z)
    ∧ (dp_steps v ≤ Z.of_nat (Z.to_nat max_steps))%Z
    ∧ dom (dp_titles v)
      = list_to_set (match why with StepLimitReached => front | _ => dp_path v end)
    ∧ dp_visited_articles v = list_to_set (get_title_from_url <$> walked)
    ∧ (∀ url, url ∈ walked → known_globally supplied (get_title_from_url url) = false)
    ∧ dp_visited_global v = (λ g, dp_visited_articles v ∪ g) <$> supplied
    ∧ log st = log st0 ++ new
    ∧ requests new ≤ 3 * Z.to_nat max_steps
    ∧ (∀ url, Requested url ∈ new → url ∈ walked).

End Callers.

(** ** [WikiDatabaseStorage.store_path] (crawlers/parallel_wiki_crawler.py,
    crawlers/large_wiki_graph_crawler.py)

    The database as far as [store_path] can tell: two tables, a transaction
    that [commit] makes permanent and [rollback] discards, identity columns
    that hand out consecutive numbers, and calls of [cursor.execute] that
    may raise [oracledb.Error]. *)

(** A row of [WIKI_PATHS] (without its timestamp). *)
Record path_row : Type := PathRow {
  pr_path_id : Z;
  pr_start_article : string;
  pr_end_article : string;
  pr_steps : Z;
  pr_succeeded : Z
}.

(** A row of [WIKI_PATH_NODES]. *)
Record node_row : Type := NodeRow {
  nr_node_id : Z;
  nr_path_id : Z;
  nr_step_number : Z;
  nr_article_title : string;
  nr_article_url : string
}.

Record tables : Type := Tables {
  WIKI_PATHS : list path_row;
  WIKI_PATH_NODES : list node_row
}.

Record connection : Type := Connection {
  committed : tables;          (* what a [rollback] goes back to *)
  working : tables;            (* what the open transaction sees *)
  next_path_id : Z;            (* the identity column of [WIKI_PATHS] *)
  next_node_id : Z;            (* the identity column of [WIKI_PATH_NODES] *)
  failures : list bool         (* whether the coming calls of [execute] raise,
                                  in order; none does once the list is used up *)
}.

(** [connection.commit()] and [connection.rollback()] *)
Definition commit (c : connection) : connection :=
  Connection (working c) (working c) (next_path_id c) (next_node_id c) (failures c).

Definition rollback (c : connection) : connection :=
  Connection (committed c) (committed c) (next_path_id c) (next_node_id c) (failures c).

(** [cursor.execute(statement)]: [None] when it raises [oracledb.Error],
    the statement then having done nothing. *)
Definition execute {A : Type} (statement : connection → A * connection) (c : connection)
  : option A * connection :=
  let c' := Connection (committed c) (working c) (next_path_id c) (next_node_id c)
              (tail (failures c)) in
  match failures c with
  | true :: _ => (None, c')
  | _ => let '(a, c'') := statement c' in (Some a, c'')
  end.

(** [INSERT INTO WIKI_PATHS (...) VALUES (...) RETURNING PATH_ID INTO :path_id] *)
Definition insert_path (start_article end_article : string) (steps succeeded : Z)
    (c : connection) : Z * connection :=
  let path_id := next_path_id c in
  (path_id,
   Connection (committed c)
     (Tables (WIKI_PATHS (working c)
                ++ [PathRow path_id start_article end_article steps succeeded])
             (WIKI_PATH_NODES (working c)))
     (path_id + 1) (next_node_id c) (failures c)).

(** [INSERT INTO WIKI_PATH_NODES (...) VALUES (...)] *)
Definition insert_node (path_id step_number : Z) (article_title article_url : string)
    (c : connection) : unit * connection :=
  ((),
   Connection (committed c)
     (Tables (WIKI_PATHS (working c))
             (WIKI_PATH_NODES (working c)
                ++ [NodeRow (next_node_id c) path_id step_number article_title article_url]))
     (next_path_id c) (next_node_id c + 1) (failures c)).

(** The [for i, url in enumerate(path)] loop from index [i] on; [None] when
    an [execute] raised.  [title_for] is the default of the [titles.get]. *)
Fixpoint insert_nodes (title_for : string → string) (titles : gmap string string)
    (path_id : Z) (i : Z) (path : list string) (c : connection)
  : option unit * connection :=
  match path with
  | [] => (Some (), c)
  | url :: path' =>
      let title := default (title_for url) (titles !! url) in
      match execute (insert_node path_id i title url) c with
      | (Some _, c') => insert_nodes title_for titles path_id (i + 1) path' c'
      | (None, c') => (None, c')
      end
  end.

(** [store_path]: the [path_id] it returns, [None] after an error. *)
Definition store_path (title_for : string → string) (path : list string)
    (titles : gmap string string) (start_article : string) (reached_target : bool)
    (c : connection) : option Z * connection :=
  let steps := if bool_decide (0 < length path)
               then (Z.of_nat (length path) - 1)%Z else 0%Z in
  let end_article :=
    match last path with
    | Some last_url => default "Unknown" (titles !! last_url)
    | None => "Unknown"
    end in
  match execute (insert_path start_article end_article steps
                   (if reached_target then 1 else 0)%Z) c with
  | (None, c') => (None, rollback c')
  | (Some path_id, c') =>
      match insert_nodes title_for titles path_id 0 path c' with
      | (None, c'') => (None, rollback c'')
      | (Some _, c'') => (Some path_id, commit c'')
      end
  end.

(** A connection to empty tables, with no failure to come. *)
Definition empty_connection : connection :=
  Connection (Tables [] []) (Tables [] []) 1 1 [].

(** The default title of a node in crawlers/large_wiki_graph_crawler.py. *)
Definition unknown_title (url : string) : string := "Unknown".

(** The rows [store_path] writes for [path] from index [i] on. *)
Fixpoint node_rows (title_for : string → string) (titles : gmap string string)
    (path_id node_id : Z) (i : Z) (path : list string) : list node_row :=
  match path with
  | [] => []
  | url :: path' =>
      NodeRow node_id path_id i (default (title_for url) (titles !! url)) url
      :: node_rows title_for titles path_id (node_id + 1) (i + 1) path'
  end.

Section Storage.
Context `{Platform}.

(** The default title of a node in crawlers/parallel_wiki_crawler.py:
    [unquote(url.split('/')[-1].replace('_', ' '))] *)
Definition title_from_locator (url : string) : string :=
  unquote (PyStr.replace (PyStr.last_segment url "/") "_" " ").

End Storage.

(** ** [process_path] (scripts/correct_paths.py) *)

(** An entry of [corrections]. *)
Record correction : Type := Correction {
  k_path_id : Z;
  k_step : Z;
  k_current_title : string;
  k_incorrect_next : string;
  k_correct_next : string;
  k_correct_url : string;
  k_node_to_update : Z
}.

Section Corrector.
Context `{Platform}.

(** The [for i in range(len(nodes) - 1)] loop over the rows fetched for a
    path, in step order: the corrections it collects ([changes_needed] is
    their number). *)
Fixpoint find_corrections (path_id : Z) (nodes : list node_row)
  : io (list correction) :=
  match nodes with
  | [] => mret []
  | current_node :: rest =>
      match rest with
      | [] => mret []
      | next_node :: _ =>
          let next_title := nr_article_title next_node in
          if String.eqb (nr_article_title current_node) "Unknown"
          then find_corrections path_id rest
          else
            '(correct_url, _) ← extract_first_link (nr_article_url current_node);
            match truthy_url correct_url with
            | None => find_corrections path_id rest
            | Some correct_url =>
                let correct_title := get_title_from_url correct_url in
                let found :=
                  if String.eqb correct_title next_title then []
                  else [Correction path_id (nr_step_number current_node)
                          (nr_article_title current_node) next_title
                          correct_title correct_url (nr_node_id next_node)] in
                _ ← sleep 500;
                later ← find_corrections path_id rest;
                mret (found ++ later)
            end
      end
  end.

End Corrector.

Section Deeds.
Context `{Platform}.

(** ** A job on its own, with what it did

    [performs p did r]: run on its own, the job [p] performs the actions
    [did], answered as recorded, and ends with [r]. *)
Inductive deed : Type :=
| Did {X : Type} (a : action X) (x : X).

Fixpoint performs {R : Type} (p : prog R) (did : list deed) (r : result R) : Prop :=
  match p with
  | Return a => did = [] ∧ r = Ok a
  | Throw => did = [] ∧ r = Raised
  | Perform a k =>
      ∃ x rest, did = Did a x :: rest ∧ (∃ s, answers s a x) ∧ performs (k x) rest r
  end.

(** The titles a deed merges into the shared set, if it is a merge. *)
Definition merged (d : deed) : option (gset string) :=
  match d with
  | Did a _ =>
      match a with
      | AddVisited titles => Some titles
      | _ => None
      end
  end.

(** The deed is a call of the store. *)
Definition stores (d : deed) : bool :=
  match d with
  | Did a _ => is_store a
  end.

(** The deed neither merges nor stores. *)
Definition quiet (d : deed) : Prop := merged d = None ∧ stores d = false.

End Deeds.

(** ** The small static web again *)

(** The answers [static_web] gives. *)
Definition static_answer (url : string) : option string * string :=
  match (@extract_first_link Scenario.static_web url Scenario.start).1 with
  | Ok r => r
  | Raised => (None, "")
  end.

(** What the walkers return from the page without links: the deep walk
    run against an empty set, and the directed walk with target depth 3. *)
Definition dead_walk : deep_walk :=
  DeepWalk [Scenario.wiki "Dead"] {[Scenario.wiki "Dead" := "Dead"]} {["Dead"]}
    (Some ({["Dead"]} ∪ ∅)) DeadEnd.

Definition dead_path : list string * gmap string string * bool * PathOutcome :=
  ([Scenario.wiki "Dead"], {[Scenario.wiki "Dead" := "Dead"]}, false, DeadEnd).

(** A job of each controller that finds the flag raised after its walk. *)
Definition large_job_discarded : list (@deed Scenario.static_web) :=
  [Did StopFlagIsSet false;
   Did (Network (resolve_start (Some (Scenario.wiki "Dead")))) (Ok (Scenario.wiki "Dead"));
   Did ReadVisited ∅;
   Did (Network (crawl_deeply 10 (Some (Scenario.wiki "Dead")) (Some ∅))) (Ok dead_walk);
   Did (AddVisited (dw_visited_articles dead_walk)) ();
   Did StopFlagIsSet true].

Definition parallel_job_discarded : list (@deed Scenario.static_web) :=
  [Did StopFlagIsSet false;
   Did ReadVisited ∅;
   Did (Network (follow_general_path 3 10 (Some (Scenario.wiki "Dead")))) (Ok dead_path);
   Did StopFlagIsSet true].

(** ** Readings used in the statements on step counts, parentheses and retries *)

Section Readings.
Context `{Platform}.

(** [crawl_deeply] from a given start, together with the value its local
    [steps] has at the [return].  The method counts [steps] and prints it in
    its progress lines ([Step {steps}: ...]); what it returns is the triple
    alone. *)
Definition crawl_deeply_counted (max_steps : Z) (start_url : string)
    (visited_global : option (gset string)) : io (deep_walk * Z) :=
  let start_title := get_title_from_url start_url in
  if known_globally visited_global start_title then
    mret (DeepWalk [start_url] ∅ ∅ visited_global AlreadyKnown, 0%Z)
  else
    '(v, why) ← crawl_deeply_loop (Z.to_nat max_steps)
                   (DeepVars start_url [start_url] ∅ 0 {[start_url]}
                      {[start_title]} (add_globally visited_global start_title));
    mret (DeepWalk (dp_path v) (dp_titles v) (dp_visited_articles v)
            (dp_visited_global v) why,
          dp_steps v).

(** [soup.find('div', {'id': 'mw-content-text'})] *)
Definition content_container (soup : node) : option located :=
  find (λ n, tag_named "div" n && has_id "mw-content-text" n) (Located [] [] soup).

(** A transient failure of the attempt that [extract_first_link] makes on
    [url] in network state [w]: the request (or the parser) raises, or the
    page that comes back has no content container.  The value is the pause
    the source makes after it ([time.sleep(2)] in the [except] clause,
    [time.sleep(1)] under [if not content_div]) and the network state after
    the request. *)
Definition transient_failure (url : string) (w : world) : option (nat * world) :=
  match session_get url w with
  | (FetchError, w') => Some (2000, w')
  | (FetchOk soup, w') =>
      match content_container soup with
      | None => Some (1000, w')
      | Some _ => None
      end
  end.

(** [k] transient failures in a row from network state [w]: their pauses, in
    order, and the network state after the last of them. *)
Fixpoint failures_in_a_row (k : nat) (url : string) (w : world)
  : option (list nat * world) :=
  match k with
  | O => Some ([], w)
  | S k' =>
      match transient_failure url w with
      | Some (pause, w1) =>
          match failures_in_a_row k' url w1 with
          | Some (waits, w') => Some (pause :: waits, w')
          | None => None
          end
      | None => None
      end
  end.

(** What failed attempts leave in the effect log: a request and a pause each. *)
Definition retry_log (url : string) (waits : list nat) : list event :=
  flat_map (λ pause, [Requested url; Slept pause]) waits.

End Readings.

(** The test of [find_all('a', href=True)]. *)
Definition is_link (n : node) : bool :=
  tag_named "a" n && bool_decide (is_Some (get_href n)).

(** The text the [while prev_sibling:] loop gathers, said without the loop:
    going back from the link, the siblings up to the first falsy one (an
    empty string node) are read, and each contributes its [.string], or
    nothing when it has none (a tag with several children). *)
Fixpoint truthy_run (previous : list node) : list node :=
  match previous with
  | [] => []
  | n :: rest => if truthy n then n :: truthy_run rest else []
  end.

Definition gathered (previous : list node) : string :=
  foldr (λ n acc, default "" (node_string n) +:+ acc) "" (rev (truthy_run previous)).

(** Whether the text [before] a link has more [(] than [)]. *)
Definition unclosed (before : string) : Prop :=
  PyStr.count before ")" < PyStr.count before "(".

(** The children of a tag as [descendants] lists them, each followed by its
    own descendants; [parents] are the ancestors of the children, [previous]
    the siblings before [l], nearest first. *)
Fixpoint located_children (parents previous : list node) (l : list node) : list located :=
  match l with
  | [] => []
  | child :: l' =>
      Located parents previous child
      :: descendants parents child ++ located_children parents (child :: previous) l'
  end.

(** ** More pages and networks, for worked examples *)

Module Variants.

(** The text of scenario A with its parenthesis set in italics up to the first
    link: [A thing (<i>see <a>B</a></i>) relates to <a>C</a>.] *)
Definition italic_lead : list node :=
  [NavigableString "A thing (";
   Tag "i" None [] None [NavigableString "see "; Scenario.link "B"];
   NavigableString ") relates to "; Scenario.link "C"; NavigableString "."].

(** A page with a heading and a paragraph, and no content container. *)
Definition bare : node :=
  Tag "[document]" None [] None
    [Tag "html" None [] None
       [Tag "body" None [] None
          [Tag "h1" (Some "firstHeading") ["firstHeading"] None [NavigableString "A bare page"];
           Tag "p" None [] None
             [NavigableString "See "; Scenario.link "C"; NavigableString "."]]]].

Definition pages : list (string * node) :=
  [ (Scenario.wiki "Italic", Scenario.article "Italic" italic_lead);
    (Scenario.wiki "Bare", bare) ].

Definition web : Platform := {|
  world := unit;
  session_get url w := (Scenario.lookup_page url pages, w);
  special_random w := (Some (Scenario.wiki "Italic"), w);
  urljoin base href := base +:+ href;
  urlparse_path := Scenario.path_of;
  unquote s := s
|}.

(** A network that recovers.  Its state is the number of requests made: the
    first raises, the second is answered with [bare], later ones with the
    pages of the static web. *)
Definition recovering : Platform := {|
  world := nat;
  session_get url n :=
    (match n with
     | 0 => FetchError
     | 1 => FetchOk bare
     | _ => Scenario.lookup_page url Scenario.pages
     end, S n);
  special_random n := (Some (Scenario.wiki "X"), S n);
  urljoin base href := base +:+ href;
  urlparse_path := Scenario.path_of;
  unquote s := s
|}.

End Variants.

#[local] Set Warnings "-clear-no-such-hyp".
(** * Properties *)

(** ** String operations *)

Lemma append_nil_l (s : string) : "" +:+ s = s.
Proof. reflexivity. Qed.

Lemma append_cons (c : ascii) (s t : string) : String c s +:+ t = String c (s +:+ t).
Proof. reflexivity. Qed.

Ltac unfold_append := rewrite ?append_cons, ?append_nil_l in *.

Lemma string_app_assoc (a b c : string) : (a +:+ b) +:+ c = a +:+ b +:+ c.
Proof. induction a as [|x a IH]; unfold_append; [done | by rewrite IH]. Qed.

Lemma startswith_spec s p :
  PyStr.startswith s p = true ↔ PyStr.is_prefix p s.
Proof.
  revert s. induction p as [|c p IH]; intros s.
  - split; [intros _; exists s; reflexivity | by destruct s].
  - destruct s as [|d s]; simpl.
    + split; [done | intros [t Ht]; discriminate].
    + destruct (Ascii.eqb_spec c d) as [->|Hne].
      * rewrite IH. split; intros [t Ht]; exists t; unfold_append.
        -- by rewrite Ht.
        -- by injection Ht.
      * split; [done | intros [t Ht]; unfold_append; injection Ht; congruence].
Qed.

Lemma contains_unfold s x :
  PyStr.contains s x =
    if PyStr.startswith s x then true
    else match s with
         | "" => false
         | String _ s' => PyStr.contains s' x
         end.
Proof. by destruct s. Qed.

Lemma contains_spec s x :
  PyStr.contains s x = true ↔ PyStr.occurs_in x s.
Proof.
  induction s as [|d s IH]; rewrite contains_unfold.
  - destruct (PyStr.startswith "" x) eqn:E.
    + apply startswith_spec in E as [t Ht].
      split; [intros _; exists "", t; by unfold_append | done].
    + split; [done|]. intros (a & b & Hab).
      destruct a; unfold_append; [|discriminate].
      assert (PyStr.startswith "" x = true) as Hx
        by (apply startswith_spec; exists b; by unfold_append).
      congruence.
  - destruct (PyStr.startswith (String d s) x) eqn:E.
    + apply startswith_spec in E as [t Ht].
      split; [intros _; exists "", t; by unfold_append | done].
    + rewrite IH. split.
      * intros (a & b & ->). exists (String d a), b. by unfold_append.
      * intros (a & b & Hab). destruct a as [|e a]; unfold_append.
        -- assert (PyStr.startswith (String d s) x = true) as Hx
             by (apply startswith_spec; exists b; by unfold_append).
           congruence.
        -- injection Hab as _ ->. by exists a, b.
Qed.

Lemma occurs_in_prefix x s : PyStr.is_prefix x s → PyStr.occurs_in x s.
Proof. intros [t ->]. exists "", t. by unfold_append. Qed.

Lemma occurs_in_app_r x a s : PyStr.occurs_in x s → PyStr.occurs_in x (a +:+ s).
Proof.
  intros (u & v & ->). exists (a +:+ u), v. by rewrite string_app_assoc.
Qed.

Lemma occurs_in_trans x y s :
  PyStr.occurs_in x y → PyStr.occurs_in y s → PyStr.occurs_in x s.
Proof.
  intros (a & b & ->) (c & d & ->). exists (c +:+ a), (b +:+ d).
  by rewrite !string_app_assoc.
Qed.

Lemma existsb_false_elem {A} (f : A → bool) (l : list A) x :
  existsb f l = false → x ∈ l → f x = false.
Proof.
  induction l as [|y l IH]; simpl; intros Hf Hx.
  - by apply elem_of_nil in Hx.
  - apply orb_false_iff in Hf as [Hy Hl].
    apply elem_of_cons in Hx as [->|Hx]; auto.
Qed.

(** What [s.split(sep)[-1]] is: the piece of [s] after its last [sep]. *)
Lemma last_segment_spec s sep :
  let seg := PyStr.last_segment s sep in
  ¬ PyStr.occurs_in (String sep "") seg
  ∧ (s = seg ∨ ∃ before, s = before +:+ String sep seg).
Proof.
  induction s as [|d s [IHno IHsplit]]; simpl.
  - split; [|by left]. intros (a & b & Hab). destruct a; unfold_append; discriminate.
  - destruct (PyStr.contains s (String sep "")) eqn:Hc.
    + split; [done|]. right. destruct IHsplit as [Heq|[before Hb]].
      * apply contains_spec in Hc. rewrite Heq in Hc. by destruct IHno.
      * exists (String d before). unfold_append. by rewrite <- Hb.
    + assert (¬ PyStr.occurs_in (String sep "") s) as Hs.
      { intros Ho. apply contains_spec in Ho. congruence. }
      destruct (Ascii.eqb_spec d sep) as [->|Hne].
      * split; [done|]. right. exists "". by unfold_append.
      * split; [|by left]. intros (a & b & Hab).
        destruct a as [|e a]; unfold_append.
        -- injection Hab as ? _. congruence.
        -- injection Hab as _ ->. apply Hs. by exists a, b.
Qed.

(** ** The link-validity predicate *)

Lemma namespaces_have_colon ns : ns ∈ namespaces → PyStr.occurs_in ":" ns.
Proof.
  intros Hin. apply contains_spec. revert ns Hin.
  apply Forall_forall. unfold namespaces. repeat constructor.
Qed.

(** The predicate exactly: the namespace and marker tests are substring
    tests over the whole [href]. *)
Lemma is_valid_wiki_link_iff href :
  is_valid_wiki_link href = true ↔
    PyStr.is_prefix "/wiki/" href
    ∧ (∀ ns, ns ∈ namespaces → ¬ PyStr.occurs_in ns href)
    ∧ (∀ x, x ∈ non_article_markers → ¬ PyStr.occurs_in x href).
Proof.
  unfold is_valid_wiki_link.
  destruct (PyStr.startswith href "/wiki/") eqn:Hp; cbn [negb].
  2:{ split; [done|]. intros (Hpre & _). apply startswith_spec in Hpre. congruence. }
  apply startswith_spec in Hp.
  destruct (existsb (λ namespace, PyStr.contains href namespace) namespaces) eqn:Hn.
  { apply existsb_exists in Hn as (ns & Hin & Hc).
    apply list_elem_of_In in Hin. apply contains_spec in Hc.
    assert (PyStr.contains href ":" = true) as ->.
    { apply contains_spec. eapply occurs_in_trans; [|done].
      by apply namespaces_have_colon. }
    cbn [andb]. split; [done|]. intros (_ & Hns & _). by destruct (Hns ns). }
  rewrite andb_false_r.
  destruct (existsb (λ x, PyStr.contains href x) non_article_markers) eqn:Hm.
  { split; [done|]. intros (_ & _ & Hx).
    apply existsb_exists in Hm as (x & Hin & Hc).
    apply list_elem_of_In in Hin. apply contains_spec in Hc. by destruct (Hx x). }
  split; [intros _|done]. split; [done|]. split.
  - intros ns Hin Hocc. eapply existsb_false_elem in Hn; [|done].
    apply contains_spec in Hocc. congruence.
  - intros x Hin Hocc. eapply existsb_false_elem in Hm; [|done].
    apply contains_spec in Hocc. congruence.
Qed.

(** C5. An [href] accepted by [is_valid_wiki_link] starts with the article
    prefix [/wiki/]; the page name after that prefix does not begin with any
    of the non-article namespaces [File:], [Wikipedia:], [Help:],
    [Template:], [Category:], [Portal:], [Talk:], [Special:] (compared
    character by character, hence case-sensitively); and the [href] contains
    neither [#] nor [(disambiguation)]. *)
Theorem is_valid_wiki_link_only_if (href : string) :
  is_valid_wiki_link href = true →
  ∃ page, href = "/wiki/" +:+ page
    ∧ (∀ ns, ns ∈ ["File:"; "Wikipedia:"; "Help:"; "Template:";
                    "Category:"; "Portal:"; "Talk:"; "Special:"] →
             ¬ PyStr.is_prefix ns page)
    ∧ ¬ PyStr.occurs_in "#" href
    ∧ ¬ PyStr.occurs_in "(disambiguation)" href.
Proof.
  intros Hvalid.
  apply is_valid_wiki_link_iff in Hvalid as ([page ->] & Hns & Hm).
  exists page. split; [done|]. split; [|split].
  - intros ns Hin Hpre. apply (Hns ns Hin).
    by apply occurs_in_app_r, occurs_in_prefix.
  - apply Hm. unfold non_article_markers. set_solver.
  - apply Hm. unfold non_article_markers. set_solver.
Qed.

Lemma is_valid_wiki_link_only_if_witness :
  ∃ page, "/wiki/Philosophy" = "/wiki/" +:+ page
    ∧ (∀ ns, ns ∈ ["File:"; "Wikipedia:"; "Help:"; "Template:";
                    "Category:"; "Portal:"; "Talk:"; "Special:"] →
             ¬ PyStr.is_prefix ns page)
    ∧ ¬ PyStr.occurs_in "#" "/wiki/Philosophy"
    ∧ ¬ PyStr.occurs_in "(disambiguation)" "/wiki/Philosophy".
Proof. apply (is_valid_wiki_link_only_if "/wiki/Philosophy"). reflexivity. Defined.

(** The prefix test is case-sensitive, and the namespace test looks at the
    whole [href], not only at the start of the page name. *)
Example is_valid_wiki_link_cases :
  is_valid_wiki_link "/wiki/Philosophy" = true
  ∧ is_valid_wiki_link "/wiki/File:Plato.jpg" = false
  ∧ is_valid_wiki_link "/wiki/file:Plato.jpg" = true
  ∧ is_valid_wiki_link "/wiki/Mercury_(disambiguation)" = false
  ∧ is_valid_wiki_link "/wiki/Plato#Life" = false
  ∧ is_valid_wiki_link "/w/index.php" = false
  ∧ is_valid_wiki_link "/wiki/Notes_on_Help:Contents" = false.
Proof. repeat split. Qed.

Lemma string_app_nil_r (s : string) : s +:+ "" = s.
Proof. induction s as [|c s IH]; unfold_append; [done | by rewrite IH]. Qed.

Lemma text_of_app (l1 l2 : list node) : text_of (l1 ++ l2) = text_of l1 +:+ text_of l2.
Proof.
  unfold text_of. induction l1 as [|n l1 IH]; cbn [foldr app]; unfold_append; [done|].
  by rewrite IH, string_app_assoc.
Qed.

(** ** The lead-paragraph scan *)

(** [scan_links] returns the first valid link whose preceding text does not
    have more opening than closing parentheses. *)
Lemma scan_links_spec (all_links : list located) :
  match scan_links all_links with
  | Some href =>
      ∃ before link after,
        all_links = before ++ link :: after
        ∧ href_of link = href
        ∧ is_valid_wiki_link (href_of link) = true
        ∧ open_count link ≤ close_count link
        ∧ ∀ l, l ∈ before → is_valid_wiki_link (href_of l) = true →
               close_count l < open_count l
  | None =>
      ∀ l, l ∈ all_links → is_valid_wiki_link (href_of l) = true →
           close_count l < open_count l
  end.
Proof.
  induction all_links as [|link rest IH]; cbn [scan_links].
  - intros l Hl. by apply elem_of_nil in Hl.
  - destruct (is_valid_wiki_link (href_of link)) eqn:Hvalid; cbn [negb].
    + unfold in_parentheses. case_bool_decide as Hpar.
      * destruct (scan_links rest) as [href|].
        -- destruct IH as (before & chosen & after & -> & Hhref & Hv & Hle & Hbefore).
           exists (link :: before), chosen, after. repeat split; try done.
           intros l Hl Hlv. apply elem_of_cons in Hl as [->|Hl]; auto.
        -- intros l Hl Hlv. apply elem_of_cons in Hl as [->|Hl]; auto.
      * exists [], link, rest. repeat split; try done; [lia|].
        intros l Hl. by apply elem_of_nil in Hl.
    + destruct (scan_links rest) as [href|].
      * destruct IH as (before & chosen & after & -> & Hhref & Hv & Hle & Hbefore).
        exists (link :: before), chosen, after. repeat split; try done.
        intros l Hl Hlv. apply elem_of_cons in Hl as [->|Hl]; [congruence|auto].
      * intros l Hl Hlv. apply elem_of_cons in Hl as [->|Hl]; [congruence|auto].
Qed.

(** On a run of plain siblings (non-empty text nodes, and tags around one
    non-empty text node, such as links) the backward scan collects exactly
    the text that precedes the link. *)
Lemma prev_text_loop_plain (previous : list node) (acc : string) :
  Forall plain previous →
  prev_text_loop previous acc = text_of (rev previous) +:+ acc.
Proof.
  revert acc. induction previous as [|n previous IH]; intros acc Hplain.
  - reflexivity.
  - apply Forall_cons in Hplain as [Hn Hprev].
    cbn [prev_text_loop rev]. rewrite text_of_app, string_app_assoc.
    destruct n as [s| |name id classes href [|[s| |] [|]]]; try done; simpl in Hn.
    + cbn [truthy node_string]. apply String.eqb_neq in Hn. rewrite Hn. cbn [negb].
      rewrite IH by done. f_equal. unfold text_of. cbn [foldr get_text].
      by rewrite string_app_nil_r.
    + cbn [truthy node_string]. apply String.eqb_neq in Hn. rewrite Hn. cbn [negb].
      rewrite IH by done. f_equal. unfold text_of. cbn [foldr get_text].
      by rewrite !string_app_nil_r.
Qed.

(** ** Which text the parenthesis test counts *)

Lemma gathered_snoc (l : list node) (n : node) :
  foldr (λ n acc, default "" (node_string n) +:+ acc) "" (l ++ [n])
  = foldr (λ n acc, default "" (node_string n) +:+ acc) "" l
    +:+ default "" (node_string n).
Proof.
  induction l as [|m l IH]; cbn [foldr app].
  - by rewrite string_app_nil_r.
  - by rewrite IH, string_app_assoc.
Qed.

(** The loop gathers the [.string]s of the truthy siblings nearest to the
    link, in document order. *)
Lemma prev_text_loop_gathered (previous : list node) (acc : string) :
  prev_text_loop previous acc = gathered previous +:+ acc.
Proof.
  unfold gathered. revert acc.
  induction previous as [|n previous IH]; intros acc; cbn [prev_text_loop truthy_run].
  - reflexivity.
  - destruct (truthy n) eqn:Htruthy; [|reflexivity].
    cbn [rev]. rewrite gathered_snoc, IH, string_app_assoc. f_equal.
    destruct (node_string n) as [s|] eqn:Hstring.
    + destruct (String.eqb_spec s "") as [->|Hne]; cbn [negb default]; [|done].
      destruct n as [t|t|name id classes href contents]; cbn in *; [| |done].
      * by injection Hstring as ->.
      * by injection Hstring as ->.
    + destruct n as [t|t|name id classes href contents]; cbn in *; done.
Qed.

Lemma descendants_tag (parents : list node) name id classes href (contents : list node) :
  descendants parents (Tag name id classes href contents)
  = located_children (Tag name id classes href contents :: parents) [] contents.
Proof.
  cbn [descendants]. generalize (Tag name id classes href contents) as p. intros p.
  generalize (@nil node) as previous.
  induction contents as [|c l IH]; intros previous; [done|].
  cbn [located_children]. by rewrite <- IH.
Qed.

Lemma get_text_tag name id classes href (contents : list node) :
  get_text (Tag name id classes href contents) = text_of contents.
Proof.
  cbn [get_text]. unfold text_of.
  induction contents as [|c l IH]; [done|]. cbn [foldr]. by rewrite <- IH.
Qed.

(** A plain node holds no link below it. *)
Lemma plain_no_links_below (parents : list node) (n : node) :
  plain n → List.filter (λ d, is_link (loc_node d)) (descendants parents n) = [].
Proof.
  destruct n as [s|s|name id classes href [|[s| |] [|]]]; done.
Qed.

Lemma plain_link_href (c : node) :
  is_link c = true → ∃ h, get_href c = Some h.
Proof.
  unfold is_link. intros Hlink. apply andb_true_iff in Hlink as [_ Hhref].
  apply bool_decide_eq_true in Hhref as [h Hh]. by exists h.
Qed.

(** The scan over the children of a paragraph made of plain nodes: [pre] are
    the children already passed. *)
Lemma scan_links_flat (parents pre l : list node) :
  Forall plain pre → Forall plain l →
  match scan_links (List.filter (λ d, is_link (loc_node d))
                      (located_children parents (rev pre) l)) with
  | Some chosen =>
      ∃ i link,
        l !! i = Some link
        ∧ is_link link = true
        ∧ get_href link = Some chosen
        ∧ is_valid_wiki_link chosen = true
        ∧ ¬ unclosed (text_of (pre ++ take i l))
        ∧ ∀ j c, j < i → l !! j = Some c → is_link c = true →
                 is_valid_wiki_link (default "" (get_href c)) = true →
                 unclosed (text_of (pre ++ take j l))
  | None =>
      ∀ j c, l !! j = Some c → is_link c = true →
             is_valid_wiki_link (default "" (get_href c)) = true →
             unclosed (text_of (pre ++ take j l))
  end.
Proof.
  revert pre. induction l as [|c l IH]; intros pre Hpre Hl.
  { cbn. intros j c Hj. by rewrite lookup_nil in Hj. }
  apply Forall_cons in Hl as [Hc Hl].
  cbn [located_children List.filter]. cbv beta. cbn [loc_node].
  rewrite List.filter_app, (plain_no_links_below _ _ Hc), app_nil_l.
  replace (c :: rev pre) with (rev (pre ++ [c])) by by rewrite rev_app_distr.
  assert (Forall plain (pre ++ [c])) as Hpre'.
  { apply Forall_app. split; [done|]. by apply Forall_singleton. }
  specialize (IH (pre ++ [c]) Hpre' Hl).
  assert (∀ j, (pre ++ [c]) ++ take j l = pre ++ take (S j) (c :: l)) as Hshift.
  { intros j. by rewrite <- app_assoc. }
  assert (prev_text (Located parents (rev pre) c) = text_of pre) as Hprev.
  { unfold prev_text. cbn [loc_previous].
    rewrite prev_text_loop_plain by by apply Forall_rev.
    by rewrite rev_involutive, string_app_nil_r. }
  set (rest := List.filter (λ d, is_link (loc_node d))
                 (located_children parents (rev (pre ++ [c])) l)) in *.
  (* what the scan of the rest gives, moved one child to the right *)
  assert ((is_link c = true →
           is_valid_wiki_link (default "" (get_href c)) = true →
           unclosed (text_of pre)) →
          match scan_links rest with
          | Some chosen =>
              ∃ i link,
                (c :: l) !! i = Some link
                ∧ is_link link = true
                ∧ get_href link = Some chosen
                ∧ is_valid_wiki_link chosen = true
                ∧ ¬ unclosed (text_of (pre ++ take i (c :: l)))
                ∧ ∀ j c', j < i → (c :: l) !! j = Some c' → is_link c' = true →
                          is_valid_wiki_link (default "" (get_href c')) = true →
                          unclosed (text_of (pre ++ take j (c :: l)))
          | None =>
              ∀ j c', (c :: l) !! j = Some c' → is_link c' = true →
                      is_valid_wiki_link (default "" (get_href c')) = true →
                      unclosed (text_of (pre ++ take j (c :: l)))
          end) as Hrest.
  { intros Hhead. destruct (scan_links rest) as [chosen|].
    - destruct IH as (i & link & Hi & Hlink & Hhref & Hvalid & Hopen & Hbefore).
      exists (S i), link. rewrite <- Hshift. split_and!; try done.
      intros [|j] c' Hj Hc' Hlink' Hvalid'.
      + injection Hc' as <-. cbn [take]. rewrite app_nil_r. by apply Hhead.
      + rewrite <- Hshift. apply (Hbefore j c'); [lia|done..].
    - intros [|j] c' Hc' Hlink' Hvalid'.
      + injection Hc' as <-. cbn [take]. rewrite app_nil_r. by apply Hhead.
      + rewrite <- Hshift. by apply (IH j c'). }
  destruct (is_link c) eqn:Hlink; cbn [app].
  2:{ apply Hrest; done. }
  cbn [scan_links]. unfold href_of. cbn [loc_node].
  destruct (is_valid_wiki_link (default "" (get_href c))) eqn:Hvalid; cbn [negb].
  2:{ apply Hrest; done. }
  unfold in_parentheses, open_count, close_count. rewrite Hprev.
  case_bool_decide as Hpar.
  { apply Hrest; done. }
  destruct (plain_link_href c Hlink) as [h Hh]. rewrite Hh in *. cbn [default] in *.
  exists 0, c. cbn [take]. rewrite app_nil_r. split_and!; try done.
  intros j c' Hj. lia.
Qed.

(** C4, as it holds of the code.  The parenthesis test belongs to the scan
    of the lead paragraphs.  There a valid link is passed over exactly when
    the text gathered from its preceding siblings has more [(] than [)]: the
    link returned is the first valid one for which that is not so.  The text
    gathered is made of the [.string]s of the nodes that precede the link
    under its own parent, going back from the link to the first empty string
    node; a tag with several children contributes nothing.  In a paragraph
    whose children are non-empty texts and tags around one non-empty text
    (links among them), it is the text of the paragraph before the link, so
    that the link returned is the first valid one with no more [(] than [)]
    in the text of the paragraph before it; on the lead
    [A thing (see B) relates to C.], with B and C such links, the extractor
    returns C.  The later stages apply no such test: when the lead is
    [A thing (see B).] the paragraph scan returns nothing and the extractor
    returns B.  Nor is a parenthesis seen that is opened outside the parent
    of the link: when the lead reads as in scenario A with [see B] in
    italics, the extractor returns B. *)
Theorem parenthetical_exclusion_by_siblings :
  (∀ paragraph : located,
     match scan_links (anchors paragraph) with
     | Some href =>
         ∃ before link after,
           anchors paragraph = before ++ link :: after
           ∧ href_of link = href
           ∧ is_valid_wiki_link (href_of link) = true
           ∧ ¬ unclosed (prev_text link)
           ∧ ∀ l, l ∈ before → is_valid_wiki_link (href_of l) = true →
                  unclosed (prev_text l)
     | None =>
         ∀ l, l ∈ anchors paragraph → is_valid_wiki_link (href_of l) = true →
              unclosed (prev_text l)
     end)
  ∧ (∀ link : located, prev_text link = gathered (loc_previous link))
  ∧ (∀ (parents previous : list node) name id classes href (children : list node),
       Forall plain children →
       (∀ i, get_text (Tag name id classes href children)
             = text_of (take i children) +:+ text_of (drop i children))
       ∧ match scan_links
                 (anchors (Located parents previous (Tag name id classes href children)))
         with
         | Some chosen =>
             ∃ i link,
               children !! i = Some link
               ∧ is_link link = true
               ∧ get_href link = Some chosen
               ∧ is_valid_wiki_link chosen = true
               ∧ ¬ unclosed (text_of (take i children))
               ∧ ∀ j l, j < i → children !! j = Some l → is_link l = true →
                        is_valid_wiki_link (default "" (get_href l)) = true →
                        unclosed (text_of (take j children))
         | None =>
             ∀ j l, children !! j = Some l → is_link l = true →
                    is_valid_wiki_link (default "" (get_href l)) = true →
                    unclosed (text_of (take j children))
         end)
  ∧ (is_valid_wiki_link "/wiki/B" = true
     ∧ is_valid_wiki_link "/wiki/C" = true
     ∧ @extract_first_link Scenario.static_web (Scenario.wiki "A") Scenario.start
       = (Ok (Some (Scenario.wiki "C"), "A"),
          @State Scenario.static_web () [Requested (Scenario.wiki "A")]))
  ∧ (scan_links
       (anchors (Located [] []
                   (Tag "p" None [] None
                      [NavigableString "A thing (see "; Scenario.link "B";
                       NavigableString ")."])))
     = None
     ∧ @extract_first_link Scenario.static_web (Scenario.wiki "P") Scenario.start
       = (Ok (Some (Scenario.wiki "B"), "P"),
          @State Scenario.static_web () [Requested (Scenario.wiki "P")]))
  ∧ (get_text (Tag "p" None [] None Variants.italic_lead)
     = "A thing (see B) relates to C."
     ∧ @extract_first_link Variants.web (Scenario.wiki "Italic")
         (@State Variants.web () [])
       = (Ok (Some (Scenario.wiki "B"), "Italic"),
          @State Variants.web () [Requested (Scenario.wiki "Italic")])).
Proof.
  split_and!; try reflexivity.
  - intros paragraph. pose proof (scan_links_spec (anchors paragraph)) as Hscan.
    unfold open_count, close_count in Hscan. unfold unclosed.
    destruct (scan_links (anchors paragraph)) as [href|]; [|done].
    destruct Hscan as (before & link & after & Hsplit & Hhref & Hvalid & Hle & Hbefore).
    exists before, link, after. split_and!; try done. lia.
  - intros link. unfold prev_text.
    by rewrite prev_text_loop_gathered, string_app_nil_r.
  - intros parents previous name id classes href children Hplain. split.
    + intros i. by rewrite get_text_tag, <- text_of_app, take_drop.
    + unfold anchors, find_all. cbn [loc_parents loc_node].
      rewrite descendants_tag.
      exact (scan_links_flat _ [] children (Forall_nil_2 _) Hplain).
Qed.

(** With the parenthesis of scenario A opened outside the tag that holds the
    first link, the lead reads as in scenario A, the text before B has an
    open parenthesis, and the extractor returns B. *)
Lemma parenthesis_outside_parent_not_seen :
  get_text (Tag "p" None [] None Variants.italic_lead) = "A thing (see B) relates to C."
  ∧ is_valid_wiki_link "/wiki/B" = true
  ∧ is_valid_wiki_link "/wiki/C" = true
  ∧ PyStr.count "A thing (see " "(" = 1
  ∧ PyStr.count "A thing (see " ")" = 0
  ∧ @extract_first_link Variants.web (Scenario.wiki "Italic") (@State Variants.web () [])
    = (Ok (Some (Scenario.wiki "B"), "Italic"),
       @State Variants.web () [Requested (Scenario.wiki "Italic")]).
Proof. split_and!; reflexivity. Qed.

(** In scenario A the two links see these texts before them. *)
Example scenario_A_prev_text :
  let paragraph :=
    Located [] []
      (Tag "p" None [] None
         [NavigableString "A thing (see "; Scenario.link "B";
          NavigableString ") relates to "; Scenario.link "C";
          NavigableString "."]) in
  (λ l, (href_of l, prev_text l, in_parentheses l)) <$> anchors paragraph
  = [("/wiki/B", "A thing (see ", true);
     ("/wiki/C", "A thing (see B) relates to ", false)].
Proof. reflexivity. Qed.

(** The scan goes by siblings, not by nesting: it does not see a parenthesis
    opened outside the tag that holds the link, and it stops at an empty
    comment. *)
Example prev_text_is_sibling_scan :
  let nested :=
    Located [] []
      (Tag "p" None [] None
         [NavigableString "A thing (";
          Tag "i" None [] None [NavigableString "see "; Scenario.link "B"];
          NavigableString ")."]) in
  let cut :=
    Located [] []
      (Tag "p" None [] None
         [NavigableString "A thing ("; Comment ""; NavigableString "see ";
          Scenario.link "B"; NavigableString ")."]) in
  scan_links (anchors nested) = Some "/wiki/B"
  ∧ scan_links (anchors cut) = Some "/wiki/B".
Proof. split; reflexivity. Qed.

(** The two fallback stages take the first valid link as it comes: a lead
    whose only link is inside parentheses yields nothing in the paragraph
    scan, and the last stage returns that link. *)
Example fallback_ignores_parentheses :
  let paragraph :=
    Located [] []
      (Tag "p" None [] None
         [NavigableString "A thing (see "; Scenario.link "B"; NavigableString ")."]) in
  scan_links (anchors paragraph) = None
  ∧ @extract_first_link Scenario.static_web (Scenario.wiki "P") Scenario.start
    = (Ok (Some (Scenario.wiki "B"), "P"),
       @State Scenario.static_web () [Requested (Scenario.wiki "P")]).
Proof. split; reflexivity. Qed.

(** ** Retries of the extractor *)

Section ExtractorFacts.
Context `{Platform}.

Lemma requests_app (l1 l2 : list event) : requests (l1 ++ l2) = requests l1 + requests l2.
Proof. unfold requests. by rewrite List.filter_app, length_app. Qed.

Lemma pauses_app (l1 l2 : list event) : pauses (l1 ++ l2) = pauses l1 ++ pauses l2.
Proof. unfold pauses. apply omap_app. Qed.

(** The retry loop returns, having made at most one request per attempt
    and paused for 1 s or 2 s after each failed one. *)
Lemma extract_attempts_returns (n : nat) (url : string) (st : state) :
  ∃ r st' new,
    extract_attempts n url st = (Ok r, st')
    ∧ log st' = log st ++ new
    ∧ requests new ≤ n
    ∧ ∀ ms, ms ∈ pauses new → ms = 1000 ∨ ms = 2000.
Proof.
  revert st. induction n as [|n IH]; intros st; cbn [extract_attempts].
  - exists (None, get_title_from_url url), st, []. repeat split.
    + by rewrite app_nil_r.
    + done.
    + intros ms Hms. by apply elem_of_nil in Hms.
  - unfold mbind, io_bind, fetch.
    destruct (session_get url (net st)) as [response w] eqn:Hget.
    destruct response as [|soup].
    + cbn [sleep log net].
      destruct (IH (State w ((log st ++ [Requested url]) ++ [Slept 2000])))
        as (r & st' & new & -> & Hlog & Hreq & Hpause).
      exists r, st', ([Requested url; Slept 2000] ++ new). repeat split.
      * rewrite Hlog. cbn [log]. by rewrite <- !app_assoc.
      * rewrite requests_app. cbn. lia.
      * intros ms. rewrite pauses_app. cbn. rewrite elem_of_cons. intros [->|Hms]; auto.
    + destruct (parse_article url soup) as [found|].
      * exists found, (State w (log st ++ [Requested url])), [Requested url].
        repeat split; [cbn; lia|]. intros ms Hms. cbn in Hms.
        by apply elem_of_nil in Hms.
      * cbn [sleep log net].
        destruct (IH (State w ((log st ++ [Requested url]) ++ [Slept 1000])))
          as (r & st' & new & -> & Hlog & Hreq & Hpause).
        exists r, st', ([Requested url; Slept 1000] ++ new). repeat split.
        -- rewrite Hlog. cbn [log]. by rewrite <- !app_assoc.
        -- rewrite requests_app. cbn. lia.
        -- intros ms. rewrite pauses_app. cbn. rewrite elem_of_cons. intros [->|Hms]; auto.
Qed.

Lemma extract_first_link_returns (url : string) (st : state) :
  ∃ r st', extract_first_link url st = (Ok r, st').
Proof.
  destruct (extract_attempts_returns max_retries url st) as (r & st' & _ & Hrun & _).
  by exists r, st'.
Qed.

End ExtractorFacts.

(** ** Retries of the extractor, attempt by attempt *)

Section ExtractorRetries.
Context `{Platform}.

(** A page is retried exactly when it has no content container. *)
Lemma parse_article_container (url : string) (soup : node) :
  match content_container soup with
  | Some content_div =>
      ∃ title,
        parse_article url soup = Some (urljoin base_url <$> first_href content_div, title)
  | None => parse_article url soup = None
  end.
Proof.
  unfold parse_article, content_container.
  destruct (find (λ n, tag_named "div" n && has_id "mw-content-text" n)
              (Located [] [] soup)) as [content_div|]; [|done].
  eexists. by destruct (first_href content_div).
Qed.

Lemma transient_failure_cases (url : string) (w : world) (pause : nat) (w' : world) :
  transient_failure url w = Some (pause, w')
  ↔ (session_get url w = (FetchError, w') ∧ pause = 2000)
    ∨ (∃ soup, session_get url w = (FetchOk soup, w')
               ∧ content_container soup = None ∧ pause = 1000).
Proof.
  unfold transient_failure.
  destruct (session_get url w) as [[|soup] w1].
  - split.
    + intros [= <- <-]. by left.
    + intros [[[= ->] ->]|(soup & [=] & _)]. done.
  - destruct (content_container soup) eqn:Hdiv; split.
    + done.
    + intros [[[=] _]|(soup' & [= <- <-] & Hnone & _)]. congruence.
    + intros [= <- <-]. right. by exists soup.
    + intros [[[=] _]|(soup' & [= <- <-] & _ & ->)]. done.
Qed.

(** One transient failure: a request, the pause, and the loop goes on with
    one attempt less. *)
Lemma extract_attempts_transient (n : nat) (url : string) (st : state) pause w :
  transient_failure url (net st) = Some (pause, w) →
  extract_attempts (S n) url st
  = extract_attempts n url (State w (log st ++ [Requested url; Slept pause])).
Proof.
  unfold transient_failure. intros Hfail. cbn [extract_attempts].
  unfold mbind, io_bind, fetch.
  destruct (session_get url (net st)) as [[|soup] w'].
  - injection Hfail as <- <-. cbn [sleep log net]. by rewrite <- app_assoc.
  - pose proof (parse_article_container url soup) as Hparse.
    destruct (content_container soup); [done|]. rewrite Hparse.
    injection Hfail as <- <-. cbn [sleep log net]. by rewrite <- app_assoc.
Qed.

Lemma extract_attempts_failures (k n : nat) (url : string) (st : state) waits w :
  failures_in_a_row k url (net st) = Some (waits, w) →
  extract_attempts (k + n) url st
  = extract_attempts n url (State w (log st ++ retry_log url waits)).
Proof.
  revert st waits. induction k as [|k IH]; intros st waits; cbn [failures_in_a_row].
  - intros [= <- <-]. cbn. rewrite app_nil_r. by destruct st.
  - destruct (transient_failure url (net st)) as [[pause w1]|] eqn:Hfail; [|done].
    destruct (failures_in_a_row k url w1) as [[waits' w']|] eqn:Hrest; [|done].
    intros [= <- <-]. cbn [Nat.add].
    rewrite (extract_attempts_transient _ _ _ _ _ Hfail).
    rewrite (IH (State w1 _) waits' Hrest). cbn [log retry_log flat_map].
    by rewrite <- app_assoc.
Qed.

(** An attempt that meets a page with its content container returns what
    that page gives. *)
Lemma extract_attempts_answered (n : nat) (url : string) (st : state) soup w content_div :
  session_get url (net st) = (FetchOk soup, w) →
  content_container soup = Some content_div →
  ∃ title,
    parse_article url soup = Some (urljoin base_url <$> first_href content_div, title)
    ∧ extract_attempts (S n) url st
      = (Ok (urljoin base_url <$> first_href content_div, title),
         State w (log st ++ [Requested url])).
Proof.
  intros Hget Hdiv. pose proof (parse_article_container url soup) as Hparse.
  rewrite Hdiv in Hparse. destruct Hparse as [title Hparse].
  exists title. split; [done|].
  cbn [extract_attempts]. unfold mbind, io_bind, fetch. by rewrite Hget, Hparse.
Qed.

(** From any network state the attempts fail some number of times in a row,
    at most [n], and unless that number is [n] the next attempt meets a page
    with its content container. *)
Lemma failures_then_answer (n : nat) (url : string) (w : world) :
  ∃ k waits w',
    k ≤ n
    ∧ failures_in_a_row k url w = Some (waits, w')
    ∧ (k = n
       ∨ ∃ soup w'' content_div,
           session_get url w' = (FetchOk soup, w'')
           ∧ content_container soup = Some content_div).
Proof.
  revert w. induction n as [|n IH]; intros w.
  - exists 0, [], w. split_and!; [done|done|by left].
  - destruct (transient_failure url w) as [[pause w1]|] eqn:Hfail.
    + destruct (IH w1) as (k & waits & w' & Hk & Hrest & Hnext).
      exists (S k), (pause :: waits), w'. split_and!; [lia| |].
      * cbn [failures_in_a_row]. by rewrite Hfail, Hrest.
      * destruct Hnext as [->|Hnext]; [by left|by right].
    + exists 0, [], w. split_and!; [lia|done|right].
      unfold transient_failure in Hfail.
      destruct (session_get url w) as [[|soup] w1]; [done|].
      destruct (content_container soup) as [content_div|] eqn:Hdiv; [|done].
      by exists soup, w1, content_div.
Qed.

Lemma failures_pauses (k : nat) (url : string) (w : world) waits w' :
  failures_in_a_row k url w = Some (waits, w') →
  length waits = k ∧ ∀ pause, pause ∈ waits → pause = 1000 ∨ pause = 2000.
Proof.
  revert w waits. induction k as [|k IH]; intros w waits; cbn [failures_in_a_row].
  - intros [= <- <-]. split; [done|]. intros pause Hin. by apply elem_of_nil in Hin.
  - destruct (transient_failure url w) as [[pause w1]|] eqn:Hfail; [|done].
    destruct (failures_in_a_row k url w1) as [[waits' w2]|] eqn:Hrest; [|done].
    intros [= <- <-]. destruct (IH _ _ Hrest) as [Hlen Hp]. split; [cbn; lia|].
    intros p Hin. apply elem_of_cons in Hin as [->|Hin]; [|by apply Hp].
    apply transient_failure_cases in Hfail as [[_ ->]|(_ & _ & _ & ->)]; auto.
Qed.

(** C6. [extract_first_link] always returns (no exception leaves it).  An
    attempt fails when the request or the parser raises, and is then
    followed by a pause of 2 s, or when the page has no content container
    ([div#mw-content-text]), and is then followed by a pause of 1 s; after a
    failed attempt the page is requested again, three attempts being made at
    most.  So the call makes one request per failed attempt, each followed
    by its pause, and then either a last request, when fewer than three
    attempts failed, returning what the page with its content container
    gives, or, when three attempts failed, no further request: it returns no
    next link together with the title [get_title_from_url] derives from the
    locator alone, the part of the path after its last [/], underscores
    turned into spaces, percent-decoded. *)
Theorem extract_first_link_retries (url : string) (st : state) :
  ∃ r st' new,
    extract_first_link url st = (Ok r, st')
    ∧ log st' = log st ++ new
    ∧ requests new ≤ 3
    ∧ (∀ ms, ms ∈ pauses new → ms = 1000 ∨ ms = 2000)
    ∧ (∀ w pause w',
         transient_failure url w = Some (pause, w')
         ↔ (session_get url w = (FetchError, w') ∧ pause = 2000)
           ∨ (∃ soup, session_get url w = (FetchOk soup, w')
                      ∧ find (λ n, tag_named "div" n && has_id "mw-content-text" n)
                           (Located [] [] soup) = None
                      ∧ pause = 1000))
    ∧ (∃ k waits w, k ≤ 3 ∧ failures_in_a_row k url (net st) = Some (waits, w)
                    ∧ length waits = k
                    ∧ requests new = (if bool_decide (k = 3) then 3 else k + 1)
                    ∧ pauses new = waits)
    ∧ (∀ k waits w soup w' content_div,
         k < 3 →
         failures_in_a_row k url (net st) = Some (waits, w) →
         session_get url w = (FetchOk soup, w') →
         find (λ n, tag_named "div" n && has_id "mw-content-text" n)
           (Located [] [] soup) = Some content_div →
         parse_article url soup = Some r
         ∧ r.1 = urljoin base_url <$> first_href content_div
         ∧ net st' = w'
         ∧ new = retry_log url waits ++ [Requested url])
    ∧ (∀ waits w,
         failures_in_a_row 3 url (net st) = Some (waits, w) →
         r = (None, get_title_from_url url)
         ∧ net st' = w
         ∧ new = retry_log url waits)
    ∧ (∀ path, urlparse_path url = Some path →
         ∃ segment,
           get_title_from_url url = unquote (PyStr.replace segment "_" " ")
           ∧ ¬ PyStr.occurs_in "/" segment
           ∧ (path = segment ∨ ∃ before, path = before +:+ "/" +:+ segment)).
Proof.
  destruct (extract_attempts_returns max_retries url st)
    as (r & st' & new & Hrun & Hlog & Hreq & Hpause).
  exists r, st', new. do 4 (split; [done|]).
  unfold extract_first_link, max_retries in Hrun.
  assert (∀ k waits w soup w' content_div,
            k < 3 →
            failures_in_a_row k url (net st) = Some (waits, w) →
            session_get url w = (FetchOk soup, w') →
            content_container soup = Some content_div →
            parse_article url soup = Some r
            ∧ r.1 = urljoin base_url <$> first_href content_div
            ∧ net st' = w'
            ∧ new = retry_log url waits ++ [Requested url]) as Hanswered.
  { intros k waits w soup w' content_div Hk Hfail Hget Hdiv.
    replace 3 with (k + S (2 - k)) in Hrun by lia.
    rewrite (extract_attempts_failures _ _ _ _ _ _ Hfail) in Hrun.
    destruct (extract_attempts_answered (2 - k) url
                (State w (log st ++ retry_log url waits)) soup w' content_div Hget Hdiv)
      as (title & Hparse & Hrun').
    rewrite Hrun in Hrun'. injection Hrun' as -> ->. cbn [log] in Hlog.
    rewrite <- app_assoc in Hlog. apply app_inv_head in Hlog. by subst new. }
  assert (∀ waits w,
            failures_in_a_row 3 url (net st) = Some (waits, w) →
            r = (None, get_title_from_url url)
            ∧ net st' = w
            ∧ new = retry_log url waits) as Hexhausted.
  { intros waits w Hfail.
    change 3 with (3 + 0) in Hrun.
    rewrite (extract_attempts_failures _ _ _ _ _ _ Hfail) in Hrun.
    cbn in Hrun. injection Hrun as <- <-. cbn [log] in Hlog.
    apply app_inv_head in Hlog. by subst new. }
  split_and!.
  - apply transient_failure_cases.
  - destruct (failures_then_answer 3 url (net st)) as (k & waits & w & Hk & Hfail & Hnext).
    destruct (failures_pauses _ _ _ _ _ Hfail) as [Hlen Hwaits].
    exists k, waits, w. do 3 (split; [done|]).
    assert (∀ l, requests (retry_log url l) = length l
                 ∧ pauses (retry_log url l) = l) as Hretry.
    { induction l as [|p l [IH1 IH2]]; [done|].
      change (retry_log url (p :: l)) with ([Requested url; Slept p] ++ retry_log url l).
      rewrite requests_app, pauses_app, IH1, IH2. done. }
    destruct Hnext as [->|(soup & w' & content_div & Hget & Hdiv)].
    + destruct (Hexhausted _ _ Hfail) as (_ & _ & ->).
      rewrite bool_decide_eq_true_2 by done.
      destruct (Hretry waits) as [-> ->]. done.
    + destruct (decide (k = 3)) as [->|Hne].
      * destruct (Hexhausted _ _ Hfail) as (_ & _ & ->).
        rewrite bool_decide_eq_true_2 by done.
        destruct (Hretry waits) as [-> ->]. done.
      * destruct (Hanswered k waits w soup w' content_div ltac:(lia) Hfail Hget Hdiv)
          as (_ & _ & _ & ->).
        rewrite bool_decide_eq_false_2 by done.
        rewrite requests_app, pauses_app. destruct (Hretry waits) as [-> ->].
        cbn. rewrite app_nil_r. split; [lia|done].
  - exact Hanswered.
  - exact Hexhausted.
  - intros path Hpath. exists (PyStr.last_segment path "/").
    unfold get_title_from_url. rewrite Hpath. split; [done|].
    apply (last_segment_spec path "/").
Qed.

End ExtractorRetries.

(** A page without content container is asked for three times, with pauses
    of one second, and answered with the title read off the locator: the
    heading of the page is not used. *)
Example extract_first_link_no_container :
  @content_container (Variants.bare) = None
  ∧ @extract_first_link Variants.web (Scenario.wiki "Bare") (@State Variants.web () [])
    = (Ok (None, "Bare"),
       @State Variants.web ()
         [Requested (Scenario.wiki "Bare"); Slept 1000;
          Requested (Scenario.wiki "Bare"); Slept 1000;
          Requested (Scenario.wiki "Bare"); Slept 1000]).
Proof. split; reflexivity. Qed.

(** On the network that recovers, the page of scenario A is answered at the
    third request, after a pause of two seconds and one of one second. *)
Example extract_first_link_recovers :
  @extract_first_link Variants.recovering (Scenario.wiki "A")
    (@State Variants.recovering 0 [])
  = (Ok (Some (Scenario.wiki "C"), "A"),
     @State Variants.recovering 3
       [Requested (Scenario.wiki "A"); Slept 2000;
        Requested (Scenario.wiki "A"); Slept 1000;
        Requested (Scenario.wiki "A")]).
Proof. reflexivity. Qed.

(** With the network down, three requests and three pauses, then the title
    read off the locator. *)
Example extract_first_link_offline :
  @extract_first_link Scenario.offline (Scenario.wiki "Main_Page")
    (@State Scenario.offline () [])
  = (Ok (None, "Main Page"),
     @State Scenario.offline ()
       [Requested (Scenario.wiki "Main_Page"); Slept 2000;
        Requested (Scenario.wiki "Main_Page"); Slept 2000;
        Requested (Scenario.wiki "Main_Page"); Slept 2000]).
Proof. reflexivity. Qed.

(** ** Walkers *)

Lemma index_of_Some (x : string) (l : list string) (k : nat) :
  index_of x l = Some k → l !! k = Some x ∧ ∀ j, j < k → l !! j ≠ Some x.
Proof.
  revert k. induction l as [|y l IH]; intros k; cbn [index_of]; [done|].
  destruct (String.eqb_spec y x) as [->|Hne].
  - intros [= <-]. split; [done|]. intros j Hj. lia.
  - destruct (index_of x l) as [i|]; [|done]. intros [= <-].
    destruct (IH i eq_refl) as [Hi Hfirst]. split; [done|].
    intros [|j] Hj; cbn; [congruence|]. apply Hfirst. lia.
Qed.

Lemma index_of_elem (x : string) (l : list string) :
  x ∈ l → ∃ k, index_of x l = Some k.
Proof.
  induction l as [|y l IH]; intros Hin; [by apply elem_of_nil in Hin|].
  cbn [index_of]. destruct (String.eqb_spec y x) as [->|Hne]; [by exists 0|].
  apply elem_of_cons in Hin as [->|Hin]; [done|].
  destruct (IH Hin) as [k ->]. by exists (S k).
Qed.

Lemma index_of_app_l (x : string) (l1 l2 : list string) :
  x ∈ l1 → index_of x (l1 ++ l2) = index_of x l1.
Proof.
  induction l1 as [|y l1 IH]; intros Hin; [by apply elem_of_nil in Hin|].
  cbn [index_of app]. destruct (String.eqb_spec y x) as [->|Hne]; [done|].
  apply elem_of_cons in Hin as [->|Hin]; [done|]. by rewrite IH.
Qed.

Lemma truthy_url_Some (url : option string) (s : string) :
  truthy_url url = Some s → url = Some s ∧ s ≠ "".
Proof.
  destruct url as [t|]; cbn; [|done].
  destruct (String.eqb_spec t "") as [->|Hne]; [done|]. by intros [= <-].
Qed.

Section WalkerFacts.
Context `{Platform}.

Lemma io_bind_ok {A B : Type} (m : io A) (f : A → io B) (st st1 : state) (a : A) :
  m st = (Ok a, st1) → (m ≫= f) st = f a st1.
Proof. intros Hm. unfold mbind, io_bind. by rewrite Hm. Qed.

(** *** [follow_path] *)

Lemma follow_path_turn_spec (v : follow_path_vars) (st : state) :
  follow_path_inv v →
  ∃ v' ended st',
    follow_path_turn v st = (Ok (v', ended), st')
    ∧ match ended with
      | Some why => follow_path_post v' why
      | None => follow_path_inv v'
      end.
Proof.
  intros (front & Hpath & Hnodup & Hsteps).
  destruct (extract_first_link_returns (fp_current_url v) st)
    as ([next_url current_title] & st1 & Hext).
  unfold follow_path_turn. rewrite (io_bind_ok _ _ _ _ _ Hext).
  cbn [fp_current_url fp_path fp_titles fp_steps].
  destruct (String.eqb current_title "Philosophy").
  { eexists _, _, _. split; [done|]. exists front. by split_and!. }
  unfold all_but_last.
  replace (removelast (fp_path v)) with front
    by (rewrite Hpath; symmetry; apply removelast_last).
  case_bool_decide as Hloop.
  { destruct (index_of_elem _ _ Hloop) as [i Hi].
    replace (index_of (fp_current_url v) (fp_path v)) with (Some i)
      by (rewrite Hpath, index_of_app_l; done).
    eexists _, _, _. split; [done|]. exists front. cbn.
    split_and!; try done.
    intros loop_index loop [= <- <-]. exists i.
    apply index_of_Some in Hi as [Hi _]. split_and!; try done.
    intros j Hj. by eapply NoDup_lookup. }
  destruct (truthy_url next_url) as [next|] eqn:Hnext.
  - unfold mbind, io_bind, sleep. cbn.
    eexists _, _, _. split; [done|].
    exists (front ++ [fp_current_url v]). cbn. rewrite <- Hpath. split_and!; [done| |].
    + rewrite Hpath. apply NoDup_app. repeat split; [done| |apply NoDup_singleton].
      intros x Hx Hx'. apply list_elem_of_singleton in Hx'. by subst x.
    + rewrite length_app. cbn. lia.
  - eexists _, _, _. split; [done|]. exists front. by split_and!.
Qed.

Lemma follow_path_loop_spec (turns_left : nat) (v : follow_path_vars) (st : state) :
  follow_path_inv v →
  ∃ v' why st',
    follow_path_loop turns_left v st = (Ok (v', why), st')
    ∧ follow_path_post v' why.
Proof.
  revert v st. induction turns_left as [|n IH]; intros v st Hinv; cbn [follow_path_loop].
  - eexists _, _, _. split; [done|].
    destruct Hinv as (front & Hpath & Hnodup & Hsteps).
    exists front. by split_and!.
  - destruct (follow_path_turn_spec v st Hinv) as (v' & ended & st' & Hturn & Hpost).
    rewrite (io_bind_ok _ _ _ _ _ Hturn). destruct ended as [why|].
    + by eexists _, _, _.
    + by apply IH.
Qed.

(** [follow_path] returns; the step count it returns is the number of
    edges of the path; and when a loop was detected the path ends with the
    repeated locator, whose first and only earlier occurrence is at
    [loop_index]. *)
Lemma follow_path_from_spec (start_url : string) (max_steps : Z) (st : state) :
  ∃ path steps titles why st',
    follow_path_from start_url max_steps st = (Ok (path, steps, titles, why), st')
    ∧ steps = (Z.of_nat (length path) - 1)%Z
    ∧ ∃ front repeated,
        path = front ++ [repeated]
        ∧ NoDup front
        ∧ ∀ loop_index loop, why = LoopDetected loop_index loop →
            ∃ i, loop_index = Z.of_nat i
              ∧ front !! i = Some repeated
              ∧ (∀ j, front !! j = Some repeated → j = i)
              ∧ loop = drop i path.
Proof.
  unfold follow_path_from.
  destruct (follow_path_loop_spec (Z.to_nat max_steps)
              (FollowPathVars start_url [start_url] ∅ 0) st)
    as (v & why & st' & Hloop & front & Hpath & Hnodup & Hsteps & Hwhy).
  { exists []. split_and!; [done|apply NoDup_nil_2|done]. }
  rewrite (io_bind_ok _ _ _ _ _ Hloop). cbn.
  eexists _, _, _, _, _. split; [done|]. split; [done|].
  exists front, (fp_current_url v). by split_and!.
Qed.

(** *** [follow_general_path] *)

Lemma loop_found_spec (path : list string) (next : string) :
  next ∈ path →
  ∃ i, loop_found path next = LoopDetected (Z.of_nat i) (drop i path ++ [next])
       ∧ path !! i = Some next.
Proof.
  intros Hin. unfold loop_found. rewrite bool_decide_eq_true_2 by done.
  destruct (index_of_elem _ _ Hin) as [i Hi]. rewrite Hi. exists i.
  split; [done|]. by apply index_of_Some in Hi as [? _].
Qed.

Lemma follow_general_path_turn_spec (target_depth : Z) (v : general_vars) (st : state) :
  general_inv v →
  ∃ v' ended st',
    follow_general_path_turn target_depth v st = (Ok (v', ended), st')
    ∧ general_inv v'
    ∧ match ended with
      | Some why =>
          gp_path v' = gp_path v ∧ gp_steps v' = gp_steps v
          ∧ general_exit target_depth v' why
      | None =>
          (gp_steps v < target_depth - 1)%Z ∧ gp_steps v' = (gp_steps v + 1)%Z
      end.
Proof.
  intros ([front Hpath] & Hnodup & Hvisited & Hsteps).
  destruct (extract_first_link_returns (gp_current_url v) st)
    as ([next_url current_title] & st1 & Hext).
  unfold follow_general_path_turn. rewrite (io_bind_ok _ _ _ _ _ Hext).
  cbn [gp_current_url gp_path gp_titles gp_steps gp_visited_in_path].
  case_bool_decide as Hdepth.
  { eexists _, _, _. split; [done|]. split; [by split_and!; [exists front|..]|].
    by split_and!. }
  destruct (truthy_url next_url) as [next|] eqn:Hnext.
  2:{ eexists _, _, _. split; [done|]. split; [by split_and!; [exists front|..]|].
      split_and!; try done. cbn. lia. }
  case_bool_decide as Hloop.
  - eexists _, _, _. split; [done|]. split; [by split_and!; [exists front|..]|].
    split_and!; try done.
    rewrite Hvisited, elem_of_list_to_set in Hloop.
    destruct (loop_found_spec _ _ Hloop) as (i & -> & Hi). cbn.
    split; [lia|]. by exists i, next.
  - unfold mbind, io_bind, sleep. cbn.
    eexists _, _, _. split; [done|]. split.
    + rewrite Hvisited, elem_of_list_to_set in Hloop. split_and!; cbn.
      * by exists (gp_path v).
      * apply NoDup_app. split_and!; [done| |apply NoDup_singleton].
        intros x Hx Hx'. apply list_elem_of_singleton in Hx'. by subst x.
      * rewrite Hvisited, list_to_set_app_L. cbn. set_solver.
      * rewrite length_app. cbn. lia.
    + cbn. lia.
Qed.

Lemma follow_general_path_loop_spec (target_depth : Z) (turns_left : nat)
    (v : general_vars) (st : state) :
  general_inv v →
  ∃ v' why st',
    follow_general_path_loop target_depth turns_left v st = (Ok (v', why), st')
    ∧ general_inv v'
    ∧ ((gp_steps v ≤ target_depth - 1)%Z → (gp_steps v' ≤ target_depth - 1)%Z)
    ∧ match why with
      | StepLimitReached => gp_steps v' = (gp_steps v + Z.of_nat turns_left)%Z
      | _ => general_exit target_depth v' why
      end.
Proof.
  revert v st. induction turns_left as [|n IH]; intros v st Hinv;
    cbn [follow_general_path_loop].
  - eexists _, _, _. split; [done|]. split_and!; [done|done|lia].
  - destruct (follow_general_path_turn_spec target_depth v st Hinv)
      as (v1 & ended & st1 & Hturn & Hinv1 & Hended).
    rewrite (io_bind_ok _ _ _ _ _ Hturn). destruct ended as [why|].
    + destruct Hended as (Hpath & Hsteps & Hexit).
      eexists _, _, _. split; [done|]. split_and!; [done|lia|].
      by destruct why.
    + destruct Hended as [Hlt Hsteps].
      destruct (IH v1 st1 Hinv1) as (v' & why & st' & -> & Hinv' & Hle & Hwhy).
      eexists _, _, _. split; [done|]. split_and!; [done|lia|].
      destruct why; try done. lia.
Qed.

(** *** [crawl_deeply] *)

Lemma known_globally_mono (supplied : option (gset string)) (extra : gset string)
    (title : string) :
  known_globally supplied title = true →
  known_globally ((λ g, extra ∪ g) <$> supplied) title = true.
Proof.
  destruct supplied as [g|]; cbn; [|done].
  rewrite !bool_decide_eq_true. set_solver.
Qed.

Lemma crawl_deeply_turn_spec (supplied : option (gset string)) (v : deep_vars)
    (st : state) :
  deep_inv supplied v →
  ∃ next_url current_title st1,
    extract_first_link (dp_current_url v) st = (Ok (next_url, current_title), st1)
    ∧ ∃ v' ended st',
        crawl_deeply_turn v st = (Ok (v', ended), st')
        ∧ match ended with
          | Some why => st' = st1 ∧ deep_exit supplied v' why ∧ why ≠ StepLimitReached
          | None => deep_inv supplied v' ∧ dp_steps v' = (dp_steps v + 1)%Z
          end
        ∧ ∀ next, next_url = Some next → next ≠ "" →
            known_globally supplied (get_title_from_url next) = true →
            ended = Some AlreadyKnown
            ∧ dp_path v' = dp_path v ++ [next]
            ∧ next ∉ dp_path v.
Proof.
  intros ([front Hpath] & Hnodup & Hvisited & Hsteps & Hunknown & Hglobal).
  assert (dp_path v ≠ []) as Hnonempty by (rewrite Hpath; by destruct front).
  destruct (extract_first_link_returns (dp_current_url v) st)
    as ([next_url current_title] & st1 & Hext).
  exists next_url, current_title, st1. split; [done|].
  unfold crawl_deeply_turn. rewrite (io_bind_ok _ _ _ _ _ Hext).
  cbn [dp_current_url dp_path dp_titles dp_steps dp_visited_in_path
       dp_visited_articles dp_visited_global].
  destruct (truthy_url next_url) as [next|] eqn:Hnext.
  2:{ eexists _, _, _. split; [done|]. split; [by split_and!|].
      intros next -> Hne _. cbn in Hnext.
      apply String.eqb_neq in Hne. by rewrite Hne in Hnext. }
  apply truthy_url_Some in Hnext as [-> Hne].
  case_bool_decide as Hloop.
  - rewrite Hvisited, elem_of_list_to_set in Hloop.
    eexists _, _, _. split; [done|]. split.
    + split; [done|]. split; [|by destruct (loop_found_spec _ _ Hloop) as (? & -> & _)].
      split; [done|]. split; [done|].
      destruct (loop_found_spec _ _ Hloop) as (i & -> & Hi). cbn.
      split; [done|]. by exists i, next.
    + intros ? [= <-] _ Hknown. rewrite (Hunknown next Hloop) in Hknown. done.
  - rewrite Hvisited, elem_of_list_to_set in Hloop.
    assert (NoDup (dp_path v ++ [next])) as Hnodup'.
    { apply NoDup_app. split_and!; [done| |apply NoDup_singleton].
      intros x Hx Hx'. apply list_elem_of_singleton in Hx'. by subst x. }
    destruct (known_globally (dp_visited_global v) (get_title_from_url next)) eqn:Hknown.
    + eexists _, _, _. split; [done|]. split.
      * split; [done|]. split; [|done]. split; [done|]. cbn.
        split; [by destruct (dp_path v)|]. split.
        -- rewrite length_app. cbn. lia.
        -- by exists (dp_path v), next.
      * by intros ? [= <-] _ _.
    + unfold mbind, io_bind, sleep. cbn.
      eexists _, _, _. split; [done|]. split.
      * split; [|cbn; lia]. split_and!; cbn.
        -- by exists (dp_path v).
        -- done.
        -- rewrite Hvisited, list_to_set_app_L. cbn. set_solver.
        -- rewrite length_app. cbn. lia.
        -- intros url Hurl. apply elem_of_app in Hurl as [Hurl|Hurl]; [auto|].
           apply list_elem_of_singleton in Hurl as ->.
           destruct (known_globally supplied (get_title_from_url next)) eqn:Hs; [|done].
           rewrite Hglobal, known_globally_mono in Hknown; done.
        -- rewrite Hglobal. unfold add_globally.
           destruct supplied as [g|]; cbn; [|done]. f_equal. set_solver.
      * intros ? [= <-] _ Hs.
        rewrite Hglobal, known_globally_mono in Hknown; done.
Qed.

Lemma crawl_deeply_loop_spec (supplied : option (gset string)) (turns_left : nat)
    (v : deep_vars) (st : state) :
  deep_inv supplied v →
  ∃ v' why st',
    crawl_deeply_loop turns_left v st = (Ok (v', why), st')
    ∧ deep_exit supplied v' why.
Proof.
  revert v st. induction turns_left as [|n IH]; intros v st Hinv;
    cbn [crawl_deeply_loop].
  - eexists _, _, _. split; [done|].
    destruct Hinv as ([front Hpath] & Hnodup & _ & Hsteps & _).
    split_and!; [done| |done]. rewrite Hpath. by destruct front.
  - destruct (crawl_deeply_turn_spec supplied v st Hinv)
      as (nx & ti & sx & _ & v1 & ended & st1 & Hturn & Hended & _).
    rewrite (io_bind_ok _ _ _ _ _ Hturn). destruct ended as [why|].
    + destruct Hended as (_ & Hexit & _). by eexists _, _, _.
    + destruct Hended as [Hinv1 _]. by apply IH.
Qed.

Lemma deep_start_inv (start_url : string) (visited_global : option (gset string)) :
  known_globally visited_global (get_title_from_url start_url) = false →
  deep_inv visited_global (deep_start start_url visited_global).
Proof.
  intros Hunknown. split_and!; cbn.
  - by exists [].
  - apply NoDup_singleton.
  - set_solver.
  - done.
  - intros url Hurl. by apply list_elem_of_singleton in Hurl as ->.
  - done.
Qed.

(** The loop heads of a deep walk are heads of its loop: from each of them
    the walk goes on as the loop does with the turns that are left. *)
Lemma deep_walk_at_spec (max_steps : Z) (start_url : string)
    (visited_global : option (gset string)) (st0 : state) (v : deep_vars) (st : state) :
  deep_walk_at max_steps start_url visited_global st0 v st →
  known_globally visited_global (get_title_from_url start_url) = false
  ∧ deep_inv visited_global v
  ∧ (0 ≤ dp_steps v)%Z
  ∧ crawl_deeply_loop (Z.to_nat max_steps) (deep_start start_url visited_global) st0
    = crawl_deeply_loop (Z.to_nat (max_steps - dp_steps v)) v st.
Proof.
  induction 1 as [Hunknown|v st v' st' Hat (Hunknown & Hinv & Hpos & IH) Hlt Hturn].
  - split_and!; [done|by apply deep_start_inv|done|]. cbn. by rewrite Z.sub_0_r.
  - destruct (crawl_deeply_turn_spec visited_global v st Hinv)
      as (nx & ti & sx & _ & v1 & ended & st1 & Hturn' & Hended & _).
    rewrite Hturn in Hturn'. injection Hturn' as <- <- <-.
    destruct Hended as [Hinv' Hsteps]. split_and!; [done|done|lia|].
    rewrite IH.
    replace (Z.to_nat (max_steps - dp_steps v))
      with (S (Z.to_nat (max_steps - dp_steps v'))) by lia.
    cbn [crawl_deeply_loop]. by rewrite (io_bind_ok _ _ _ _ _ Hturn).
Qed.

End WalkerFacts.

Section WalkerTheorems.
Context `{Platform}.

Lemma follow_general_path_from_spec (target_depth max_steps : Z) (start_url : string)
    (st : state) :
  ∃ v why st',
    follow_general_path_loop target_depth (Z.to_nat max_steps)
      (GeneralVars start_url [start_url] ∅ 0 {[start_url]}) st = (Ok (v, why), st')
    ∧ follow_general_path_from target_depth max_steps start_url st
      = (Ok (gp_path v, gp_titles v,
             match why with
             | Completed => true
             | _ => bool_decide (target_depth - 1 ≤ gp_steps v)%Z
             end, why), st')
    ∧ general_inv v
    ∧ ((1 ≤ target_depth)%Z → (gp_steps v ≤ target_depth - 1)%Z)
    ∧ match why with
      | StepLimitReached => gp_steps v = Z.of_nat (Z.to_nat max_steps)
      | _ => general_exit target_depth v why
      end.
Proof.
  destruct (follow_general_path_loop_spec target_depth (Z.to_nat max_steps)
              (GeneralVars start_url [start_url] ∅ 0 {[start_url]}) st)
    as (v & why & st' & Hloop & Hinv & Hle & Hwhy).
  { split_and!; cbn; [by exists []|apply NoDup_singleton|set_solver|done]. }
  exists v, why, st'. split; [done|]. split.
  { unfold follow_general_path_from. by rewrite (io_bind_ok _ _ _ _ _ Hloop). }
  split; [done|]. split; [cbn in Hle; lia|]. by destruct why.
Qed.

(** The directed walker: a detected loop leaves the path without
    duplicates, [loop_index] pointing at the one occurrence of the repeated
    locator. *)
Lemma follow_general_path_loop_detected (target_depth max_steps : Z)
    (start_url : string) (st st' : state) path titles reached loop_index loop :
  follow_general_path_from target_depth max_steps start_url st
  = (Ok (path, titles, reached, LoopDetected loop_index loop), st') →
  NoDup path
  ∧ ∃ i repeated,
      loop_index = Z.of_nat i
      ∧ path !! i = Some repeated
      ∧ (∀ j, path !! j = Some repeated → j = i)
      ∧ loop = drop i path ++ [repeated].
Proof.
  destruct (follow_general_path_from_spec target_depth max_steps start_url st)
    as (v & why & st1 & _ & -> & (_ & Hnodup & _) & _ & Hwhy).
  intros [= <- <- <- -> <-]. split; [done|].
  destruct Hwhy as (_ & i & repeated & -> & Hi & ->).
  exists i, repeated. split_and!; try done.
  intros j Hj. by eapply NoDup_lookup.
Qed.

Lemma crawl_deeply_from_spec (max_steps : Z) (start_url : string)
    (visited_global : option (gset string)) (st : state) :
  ∃ walk st',
    crawl_deeply_from max_steps start_url visited_global st = (Ok walk, st')
    ∧ NoDup (dw_path walk)
    ∧ dw_path walk ≠ []
    ∧ ∀ loop_index loop, dw_outcome walk = LoopDetected loop_index loop →
        ∃ i repeated,
          loop_index = Z.of_nat i
          ∧ dw_path walk !! i = Some repeated
          ∧ loop = drop i (dw_path walk) ++ [repeated].
Proof.
  unfold crawl_deeply_from.
  destruct (known_globally visited_global (get_title_from_url start_url)) eqn:Hknown.
  { eexists _, _. split; [done|]. cbn. split_and!; [apply NoDup_singleton|done|done]. }
  destruct (crawl_deeply_loop_spec visited_global (Z.to_nat max_steps)
              (deep_start start_url visited_global) st (deep_start_inv _ _ Hknown))
    as (v & why & st' & Hloop & Hnodup & Hwhy).
  unfold deep_start in Hloop. rewrite (io_bind_ok _ _ _ _ _ Hloop). cbn.
  destruct Hwhy as [Hnonempty Hwhy].
  eexists _, _. split; [done|]. cbn. split_and!; [done|done|].
  intros loop_index loop ->. by destruct Hwhy as [_ Hwhy].
Qed.

(** The deep walker likewise. *)
Lemma crawl_deeply_loop_detected (max_steps : Z) (start_url : string)
    (visited_global : option (gset string)) (st st' : state) walk loop_index loop :
  crawl_deeply_from max_steps start_url visited_global st = (Ok walk, st') →
  dw_outcome walk = LoopDetected loop_index loop →
  NoDup (dw_path walk)
  ∧ ∃ i repeated,
      loop_index = Z.of_nat i
      ∧ dw_path walk !! i = Some repeated
      ∧ (∀ j, dw_path walk !! j = Some repeated → j = i)
      ∧ loop = drop i (dw_path walk) ++ [repeated].
Proof.
  destruct (crawl_deeply_from_spec max_steps start_url visited_global st)
    as (walk' & st1 & -> & Hnodup & _ & Hloop).
  intros Heq Hwhy. injection Heq as <- <-. split; [done|].
  destruct (Hloop _ _ Hwhy) as (i & repeated & -> & Hi & ->).
  exists i, repeated. split_and!; try done.
  intros j Hj. by eapply NoDup_lookup.
Qed.

(** C2. At any turn of a walk run against a supplied set of known titles:
    when the extractor hands back a next link whose title (read off its
    locator) is in the supplied set, the walk ends there; its path is the
    path so far with that link appended, the link was not in the path
    before, the outcome is [AlreadyKnown], and nothing more is requested
    (the final state is the one the extractor left). *)
Theorem already_known_appended_once (max_steps : Z) (start_url : string)
    (supplied : gset string) (st0 : state) (v : deep_vars) (st st1 : state)
    (next current_title : string) :
  deep_walk_at max_steps start_url (Some supplied) st0 v st →
  (dp_steps v < max_steps)%Z →
  extract_first_link (dp_current_url v) st = (Ok (Some next, current_title), st1) →
  next ≠ "" →
  get_title_from_url next ∈ supplied →
  ∃ walk,
    crawl_deeply_from max_steps start_url (Some supplied) st0 = (Ok walk, st1)
    ∧ dw_path walk = dp_path v ++ [next]
    ∧ (next ∉ dp_path v)
    ∧ dw_outcome walk = AlreadyKnown.
Proof.
  intros Hat Hlt Hext Hne Hknown.
  apply deep_walk_at_spec in Hat as (Hstart & Hinv & Hpos & Hloop).
  unfold crawl_deeply_from. rewrite Hstart.
  unfold deep_start in Hloop. unfold mbind, io_bind. rewrite Hloop.
  replace (Z.to_nat (max_steps - dp_steps v))
    with (S (Z.to_nat (max_steps - dp_steps v - 1))) by lia.
  cbn [crawl_deeply_loop].
  destruct (crawl_deeply_turn_spec (Some supplied) v st Hinv)
    as (next_url & title & st2 & Hext' & v' & ended & st' & Hturn & Hended & Hnext).
  rewrite Hext in Hext'. injection Hext' as <- <- <-.
  destruct (Hnext next eq_refl Hne) as (-> & Hpath & Hfresh).
  { cbn. by rewrite bool_decide_eq_true. }
  destruct Hended as (-> & _).
  rewrite (io_bind_ok _ _ _ _ _ Hturn). cbn.
  eexists. split; [done|]. by cbn.
Qed.

(** C10. A deep walk whose start has its title in the supplied set returns
    at once: the path is the start alone, no title was recorded, no title
    was newly visited, and neither the network nor the clock was touched;
    merging the newly visited titles into the controller's set leaves that
    set as it was. *)
Theorem crawl_deeply_known_start (max_steps : Z) (start_url : string)
    (visited_global : gset string) (st : state) :
  start_url ≠ "" →
  get_title_from_url start_url ∈ visited_global →
  ∃ walk,
    crawl_deeply max_steps (Some start_url) (Some visited_global) st = (Ok walk, st)
    ∧ dw_path walk = [start_url]
    ∧ dw_titles walk = ∅
    ∧ dw_visited_articles walk = ∅
    ∧ ∀ s j jobs,
        visited_articles (effect s j (AddVisited (dw_visited_articles walk)) jobs)
        = visited_articles s.
Proof.
  intros Hne Hknown. unfold crawl_deeply, resolve_start. cbn [truthy_url].
  apply String.eqb_neq in Hne. rewrite Hne.
  unfold mbind, io_bind, mret, io_ret. unfold crawl_deeply_from.
  cbn [known_globally]. rewrite bool_decide_eq_true_2 by done.
  eexists. split; [done|]. cbn. split_and!; try done.
  intros s j jobs. set_solver.
Qed.

(** C9. A directed walk with target depth [d >= 1] and more than [d - 1]
    steps allowed returns a path of at most [d] locators; it has exactly [d]
    when it ended on the depth test, and then reports the depth as reached;
    it has fewer when it ended on a dead end or a loop, and then reports it
    as not reached.  The depth test comes first in a turn: at a turn with
    the step counter at [d - 1] the walk returns with the depth reached
    whatever next link, if any, the extractor found. *)
Theorem target_depth_checked_first (target_depth max_steps : Z) (start_url : string)
    (st : state) :
  (1 ≤ target_depth)%Z →
  (target_depth - 1 < max_steps)%Z →
  (∃ path titles reached why st',
     follow_general_path_from target_depth max_steps start_url st
     = (Ok (path, titles, reached, why), st')
     ∧ (Z.of_nat (length path) ≤ target_depth)%Z
     ∧ (Z.of_nat (length path) = target_depth → reached = true ∧ why = Completed)
     ∧ ((Z.of_nat (length path) < target_depth)%Z →
          reached = false
          ∧ (why = DeadEnd ∨ ∃ loop_index loop, why = LoopDetected loop_index loop)))
  ∧ (∀ (v : general_vars) (st : state),
       gp_steps v = (target_depth - 1)%Z →
       ∃ next_url current_title st1,
         extract_first_link (gp_current_url v) st = (Ok (next_url, current_title), st1)
         ∧ follow_general_path_turn target_depth v st
           = (Ok (GeneralVars (gp_current_url v) (gp_path v)
                    (<[gp_current_url v := current_title]> (gp_titles v))
                    (gp_steps v) (gp_visited_in_path v),
                  Some Completed), st1)).
Proof.
  intros Hdepth Hbudget. split.
  - destruct (follow_general_path_from_spec target_depth max_steps start_url st)
      as (v & why & st' & _ & Hrun & (_ & _ & _ & Hsteps) & Hle & Hwhy).
    eexists _, _, _, _, _. split; [done|].
    specialize (Hle Hdepth). split; [lia|]. split.
    + intros Hlen. destruct why; cbn in Hwhy; try done; try lia.
      all: try (destruct Hwhy as [? _]; lia).
    + intros Hlen. destruct why; cbn in Hwhy; try lia; try done.
      * split; [|by left]. apply bool_decide_eq_false_2. lia.
      * split; [|right; by eexists _, _]. apply bool_decide_eq_false_2. lia.
  - intros v st2 Hsteps.
    destruct (extract_first_link_returns (gp_current_url v) st2)
      as ([next_url current_title] & st1 & Hext).
    exists next_url, current_title, st1. split; [done|].
    unfold follow_general_path_turn. rewrite (io_bind_ok _ _ _ _ _ Hext).
    cbn [gp_steps]. rewrite bool_decide_eq_true_2 by lia. done.
Qed.

End WalkerTheorems.

(** ** Loop detection in the three walkers *)

(** On the cycle X -> Y -> Z -> X, with five steps allowed, [follow_path]
    returns the path [X, Y, Z, X] and the step count 3: it moves onto the
    repeated locator before it notices the loop, so that locator is in the
    path twice. *)
Lemma follow_path_appends_repeated_locator :
  ∃ titles st',
    @follow_path_from Scenario.static_web (Scenario.wiki "X") 5 Scenario.start
    = (Ok ([Scenario.wiki "X"; Scenario.wiki "Y"; Scenario.wiki "Z"; Scenario.wiki "X"],
           3%Z, titles,
           LoopDetected 0
             [Scenario.wiki "X"; Scenario.wiki "Y"; Scenario.wiki "Z"; Scenario.wiki "X"]),
       st')
    ∧ [Scenario.wiki "X"; Scenario.wiki "Y"; Scenario.wiki "Z"; Scenario.wiki "X"]
      ≠ [Scenario.wiki "X"; Scenario.wiki "Y"; Scenario.wiki "Z"]
    ∧ 3%Z ≠ 2%Z.
Proof.
  assert (match @follow_path_from Scenario.static_web (Scenario.wiki "X") 5
                  Scenario.start with
          | (Ok (path, steps, _, why), _) =>
              (path, steps, why)
              = ([Scenario.wiki "X"; Scenario.wiki "Y"; Scenario.wiki "Z";
                  Scenario.wiki "X"], 3%Z,
                 LoopDetected 0 [Scenario.wiki "X"; Scenario.wiki "Y";
                                 Scenario.wiki "Z"; Scenario.wiki "X"])
          | _ => False
          end) as Hrun by (vm_compute; reflexivity).
  destruct (@follow_path_from Scenario.static_web (Scenario.wiki "X") 5 Scenario.start)
    as [[[[[path steps] titles] why]|] st']; [|done].
  injection Hrun as -> -> ->. exists titles, st'.
  split; [done|]. split; discriminate.
Qed.

(** C1, in the form that holds of all three walkers.  In the directed
    walker ([follow_general_path]) and the deep walker ([crawl_deeply]) a
    walk that ends on a detected loop returns a path without duplicates: the
    repeated locator was not appended again, and [loop_index] is the
    position of its one occurrence, where the cycle starts.  On the cycle
    X -> Y -> Z -> X with five steps allowed both return the path [X, Y, Z]
    (two edges) with the cycle starting at X.  The base walker
    ([follow_path]) notices a loop one turn later, once it has moved onto
    the repeated locator: its path is a duplicate-free front followed by
    that locator, [loop_index] is the locator's one position in the front,
    and the step count is still the number of edges of the path; on the
    same cycle it returns [X, Y, Z, X] and 3. *)
Theorem loop_detected_shape :
  (∀ (P : Platform) target_depth max_steps start_url (st st' : @state P)
     path titles reached loop_index loop,
     @follow_general_path_from P target_depth max_steps start_url st
     = (Ok (path, titles, reached, LoopDetected loop_index loop), st') →
     NoDup path
     ∧ ∃ i repeated,
         loop_index = Z.of_nat i
         ∧ path !! i = Some repeated
         ∧ (∀ j, path !! j = Some repeated → j = i)
         ∧ loop = drop i path ++ [repeated])
  ∧ (∀ (P : Platform) max_steps start_url visited_global (st st' : @state P)
       walk loop_index loop,
       @crawl_deeply_from P max_steps start_url visited_global st = (Ok walk, st') →
       dw_outcome walk = LoopDetected loop_index loop →
       NoDup (dw_path walk)
       ∧ ∃ i repeated,
           loop_index = Z.of_nat i
           ∧ dw_path walk !! i = Some repeated
           ∧ (∀ j, dw_path walk !! j = Some repeated → j = i)
           ∧ loop = drop i (dw_path walk) ++ [repeated])
  ∧ (∀ (P : Platform) start_url max_steps (st st' : @state P)
       path steps titles loop_index loop,
       @follow_path_from P start_url max_steps st
       = (Ok (path, steps, titles, LoopDetected loop_index loop), st') →
       steps = (Z.of_nat (length path) - 1)%Z
       ∧ ∃ front repeated i,
           path = front ++ [repeated]
           ∧ NoDup front
           ∧ loop_index = Z.of_nat i
           ∧ front !! i = Some repeated
           ∧ (∀ j, front !! j = Some repeated → j = i)
           ∧ loop = drop i path)
  ∧ (∃ titles st',
       @follow_general_path_from Scenario.static_web 10 5 (Scenario.wiki "X")
         Scenario.start
       = (Ok ([Scenario.wiki "X"; Scenario.wiki "Y"; Scenario.wiki "Z"], titles, false,
              LoopDetected 0 [Scenario.wiki "X"; Scenario.wiki "Y"; Scenario.wiki "Z";
                              Scenario.wiki "X"]),
          st'))
  ∧ (∃ walk st',
       @crawl_deeply_from Scenario.static_web 1000 (Scenario.wiki "X") (Some ∅)
         Scenario.start
       = (Ok walk, st')
       ∧ dw_path walk = [Scenario.wiki "X"; Scenario.wiki "Y"; Scenario.wiki "Z"]
       ∧ dw_outcome walk
         = LoopDetected 0 [Scenario.wiki "X"; Scenario.wiki "Y"; Scenario.wiki "Z";
                           Scenario.wiki "X"])
  ∧ (∃ titles st',
       @follow_path_from Scenario.static_web (Scenario.wiki "X") 5 Scenario.start
       = (Ok ([Scenario.wiki "X"; Scenario.wiki "Y"; Scenario.wiki "Z";
               Scenario.wiki "X"],
              3%Z, titles,
              LoopDetected 0 [Scenario.wiki "X"; Scenario.wiki "Y"; Scenario.wiki "Z";
                              Scenario.wiki "X"]),
          st')).
Proof.
  split_and!.
  - intros P. apply @follow_general_path_loop_detected.
  - intros P. apply @crawl_deeply_loop_detected.
  - intros P start_url max_steps st st' path steps titles loop_index loop Hrun.
    destruct (@follow_path_from_spec P start_url max_steps st)
      as (path' & steps' & titles' & why & st1 & Hrun' & Hsteps & front & repeated
          & Hpath & Hnodup & Hloop).
    rewrite Hrun in Hrun'. injection Hrun' as <- <- <- <- <-.
    split; [done|].
    destruct (Hloop _ _ eq_refl) as (i & -> & Hi & Hunique & ->).
    by exists front, repeated, i.
  - assert (match @follow_general_path_from Scenario.static_web 10 5
                    (Scenario.wiki "X") Scenario.start with
            | (Ok (path, _, reached, why), _) =>
                (path, reached, why)
                = ([Scenario.wiki "X"; Scenario.wiki "Y"; Scenario.wiki "Z"], false,
                   LoopDetected 0 [Scenario.wiki "X"; Scenario.wiki "Y";
                                   Scenario.wiki "Z"; Scenario.wiki "X"])
            | _ => False
            end) as Hrun by (vm_compute; reflexivity).
    destruct (@follow_general_path_from Scenario.static_web 10 5 (Scenario.wiki "X")
                Scenario.start) as [[[[[path titles] reached] why]|] st']; [|done].
    injection Hrun as -> -> ->. by exists titles, st'.
  - assert (match @crawl_deeply_from Scenario.static_web 1000 (Scenario.wiki "X")
                    (Some ∅) Scenario.start with
            | (Ok walk, _) =>
                (dw_path walk, dw_outcome walk)
                = ([Scenario.wiki "X"; Scenario.wiki "Y"; Scenario.wiki "Z"],
                   LoopDetected 0 [Scenario.wiki "X"; Scenario.wiki "Y";
                                   Scenario.wiki "Z"; Scenario.wiki "X"])
            | _ => False
            end) as Hrun by (vm_compute; reflexivity).
    destruct (@crawl_deeply_from Scenario.static_web 1000 (Scenario.wiki "X") (Some ∅)
                Scenario.start) as [[walk|] st']; [|done].
    injection Hrun as Hpath Hwhy. by exists walk, st'.
  - assert (match @follow_path_from Scenario.static_web (Scenario.wiki "X") 5
                    Scenario.start with
            | (Ok (path, steps, _, why), _) =>
                (path, steps, why)
                = ([Scenario.wiki "X"; Scenario.wiki "Y"; Scenario.wiki "Z";
                    Scenario.wiki "X"], 3%Z,
                   LoopDetected 0 [Scenario.wiki "X"; Scenario.wiki "Y";
                                   Scenario.wiki "Z"; Scenario.wiki "X"])
            | _ => False
            end) as Hrun by (vm_compute; reflexivity).
    destruct (@follow_path_from Scenario.static_web (Scenario.wiki "X") 5
                Scenario.start) as [[[[[path steps] titles] why]|] st']; [|done].
    injection Hrun as -> -> ->. by exists titles, st'.
Qed.

(** ** Controllers *)

Section ControllerFacts.
Context `{Platform}.

(** *** The set of known titles *)

Lemma step_visited_mono (s s' : system) (l : label) :
  step s l s' → visited_articles s ⊆ visited_articles s'.
Proof.
  intros Hstep. destruct Hstep as [s p _| s | s titles | s j X a k x _ _]; cbn;
    [done|done|set_solver|].
  destruct a; cbn; set_solver.
Qed.

Lemma step_stop_flag_mono (s s' : system) (l : label) :
  step s l s' → stop_flag s = true → stop_flag s' = true.
Proof.
  intros Hstep. destruct Hstep as [s p _| s | s titles | s j X a k x _ _]; cbn;
    [done|done|done|].
  by destruct a.
Qed.

(** C8. Along any run of the controller, whatever the order in which the
    jobs' actions interleave, the set of known titles only gains members:
    it is included in every later value of itself, and its size never goes
    down. *)
Theorem visited_set_only_grows (s s' : system) (t : list label) :
  run s t s' →
  visited_articles s ⊆ visited_articles s'
  ∧ size (visited_articles s) ≤ size (visited_articles s').
Proof.
  intros Hrun.
  assert (visited_articles s ⊆ visited_articles s') as Hsub.
  { induction Hrun as [s|s t s' l s'' _ IH Hstep]; [done|].
    apply step_visited_mono in Hstep. set_solver. }
  split; [done|]. by apply subseteq_size.
Qed.

(** *** The stop flag *)

Lemma run_stop_flag_mono (s s' : system) (t : list label) :
  run s t s' → stop_flag s = true → stop_flag s' = true.
Proof.
  induction 1 as [s|s t s' l s'' _ IH Hstep]; [done|].
  intros Hset. eapply step_stop_flag_mono; eauto.
Qed.

Lemma run_app (s s1 s2 : system) (t1 t2 : list label) :
  run s t1 s1 → run s1 t2 s2 → run s (t1 ++ t2) s2.
Proof.
  intros H1 H2. induction H2 as [s1|s1 t2 s2 l s3 _ IH Hstep].
  - by rewrite app_nil_r.
  - rewrite app_assoc. eapply run_snoc; eauto.
Qed.

Lemma run_cons (s s1 s2 : system) (l : label) (t : list label) :
  step s l s1 → run s1 t s2 → run s (l :: t) s2.
Proof.
  intros Hstep Hrun. apply (run_app s s1 s2 [l] t); [|done].
  apply (run_snoc s [] s l s1); [constructor|done].
Qed.

Lemma run_snoc_inv (s s'' : system) (t : list label) (l : label) :
  run s (t ++ [l]) s'' → ∃ s', run s t s' ∧ step s' l s''.
Proof.
  intros Hrun. remember (t ++ [l]) as tl eqn:Heq. revert Heq.
  destruct Hrun as [s|s t0 s' l0 s'' Hrun Hstep]; intros Heq.
  - by destruct t.
  - apply app_inj_tail in Heq as [-> ->]. eauto.
Qed.

Lemma run_nil_inv (s s' : system) : run s [] s' → s' = s.
Proof.
  intros Hrun. remember [] as tl eqn:Heq. revert Heq.
  destruct Hrun as [s|s t0 s' l0 s'' Hrun Hstep]; intros Heq; [done|].
  by destruct t0.
Qed.

Lemma run_app_inv (s s2 : system) (t1 t2 : list label) :
  run s (t1 ++ t2) s2 → ∃ s1, run s t1 s1 ∧ run s1 t2 s2.
Proof.
  revert s2. induction t2 as [|l t2 IH] using rev_ind; intros s2 Hrun.
  - rewrite app_nil_r in Hrun. exists s2. split; [done|constructor].
  - rewrite app_assoc in Hrun. apply run_snoc_inv in Hrun as (s' & Hrun' & Hstep).
    destruct (IH _ Hrun') as (s1 & Hrun1 & Hrun2).
    exists s1. split; [done|]. eapply run_snoc; eauto.
Qed.

Lemma run_cons_inv (s s2 : system) (l : label) (t : list label) :
  run s (l :: t) s2 → ∃ s1, step s l s1 ∧ run s1 t s2.
Proof.
  intros Hrun. apply (run_app_inv s s2 [l] t) in Hrun as (s1 & Hl & Ht).
  exists s1. split; [|done].
  apply (run_snoc_inv s s1 [] l) in Hl as (s0 & Hnil & Hstep).
  by apply run_nil_inv in Hnil as ->.
Qed.

Lemma accepted_snoc (t : list label) (l : label) :
  accepted (t ++ [l])
  = accepted t + match l with Submit _ => 1 | _ => 0 end.
Proof.
  unfold accepted. rewrite List.filter_app, length_app. by destruct l.
Qed.

Lemma run_pool_length (s : system) (t : list label) :
  run initial t s → length (pool s) = accepted t.
Proof.
  remember initial as s0 eqn:Hs0.
  induction 1 as [s|s t s' l s'' _ IH Hstep]; [by subst|].
  rewrite accepted_snoc, <- (IH Hs0).
  destruct Hstep as [s' p _| s' | s' titles | s' j X a k x _ _]; cbn.
  - rewrite length_app. cbn. lia.
  - lia.
  - lia.
  - destruct a; cbn; rewrite length_insert; lia.
Qed.

Lemma pick_unmapped_heeds_flag (tries : nat) mapped start_url start_title
    (k : string * string → prog (option crawl_result)) :
  (∀ x, heeds_flag (k x)) →
  heeds_flag (pick_unmapped tries mapped start_url start_title ≫= k).
Proof.
  intros Hk. induction tries as [|n IH]; cbn; [done|].
  intros [new_url|]; cbn; [|done]. case_bool_decide; cbn; [done|]. apply IH.
Qed.

Lemma crawl_job_heeds_flag (p : prog (option crawl_result)) :
  crawl_job p → heeds_flag p ∧ begins_with_check p.
Proof.
  intros [max_steps start_url|target_depth max_steps article_or_url].
  - split; [|done]. cbn. intros [|]; [done|]. cbn.
    intros [start|]; cbn; [|done]. intros visited_global. cbn.
    intros [walk|]; cbn; [|done]. intros []. cbn.
    destruct (dw_path walk) as [|first rest]; [done|]. cbn.
    intros [|]; [done|]. cbn. intros [|]; cbn; [|done]. by intros path_id.
  - split; [|done]. cbn -[pick_unmapped]. intros [|]; [done|].
    cbn -[pick_unmapped]. intros mapped_articles.
    match goal with |- heeds_flag (_ ≫= ?k) => set (rest := k) end.
    assert (∀ x, heeds_flag (rest x)) as Hrest.
    { intros [start_url start_title]. unfold rest. cbn.
      intros [[[[path titles] reached] why]|]; cbn; [|done].
      intros [|]; [done|]. cbn. intros [|]; cbn; [|done]. by intros path_id []. }
    case_bool_decide; [|unfold mbind, prog_mbind; cbn [prog_bind]; apply Hrest].
    by apply pick_unmapped_heeds_flag.
Qed.

Lemma sees_flag_act (j j' : nat) (b : bool) {X : Type} (a : action X) (x : X) :
  sees_flag j b (Act j' a x) ↔ j' = j ∧ flag_read a x = Some b.
Proof. destruct a; cbn; naive_solver. Qed.

Lemma is_store_by_act (j j' : nat) {X : Type} (a : action X) (x : X) :
  is_store_by j (Act j' a x) ↔ j' = j ∧ is_store a = true.
Proof. destruct a; cbn; naive_solver. Qed.

Lemma sees_flag_is_act (j : nat) (b : bool) (l : label) :
  sees_flag j b l → is_act_by j l.
Proof. destruct l as [| | |j' X a x]; cbn; naive_solver. Qed.

Lemma is_store_by_is_act (j : nat) (l : label) : is_store_by j l → is_act_by j l.
Proof. destruct l as [| | |j' X a x]; cbn; [done..|]. by destruct a. Qed.

Lemma sees_flag_exclusive (j : nat) (b : bool) (l : label) :
  sees_flag j b l → ¬ is_store_by j l ∧ ¬ is_network_by j l.
Proof. destruct l as [| | |j' X a x]; cbn; [done..|]. destruct a; naive_solver. Qed.

Lemma pool_effect (s : system) (j : nat) {X : Type} (a : action X)
    (jobs : list (prog (option crawl_result))) :
  pool (effect s j a jobs) = jobs ∧ stop_flag (effect s j a jobs) = stop_flag s.
Proof. by destruct a. Qed.

(** Closes goals about a label that is plainly not of the kind asked. *)
Ltac other_label :=
  solve [ done | by intros [] | cbn; done | cbn; congruence | cbn; by intros [] ].

Lemma job_ok_other (t : list label) (l : label) (j : nat) p :
  ¬ is_act_by j l → job_ok t j p → job_ok (t ++ [l]) j p.
Proof.
  intros Hother. assert (¬ sees_flag j true l) by (intros ?%sees_flag_is_act; done).
  assert (¬ is_store_by j l) by (intros ?%is_store_by_is_act; done).
  intros [(? & ? & ?)|[(? & ?)|(? & ?)]]; [left|right; left|right; right];
    rewrite ?Forall_app, ?Forall_singleton; done.
Qed.

Lemma job_ok_act (t : list label) (j : nat) {X : Type} (a : action X) k (x : X) :
  job_ok t j (Perform a k) → job_ok (t ++ [Act j a x]) j (k x).
Proof.
  intros [(Hflag & Hstore & Hheeds)|[(_ & ?)|(Hflag & Hreads)]]; [|done|].
  - cbn in Hheeds. specialize (Hheeds x).
    destruct (flag_read a x) as [[|]|] eqn:Hread.
    + right; left. split; [|done]. rewrite Forall_app, Forall_singleton.
      split; [done|]. rewrite is_store_by_act. intros [_ Hs].
      destruct a; cbn in *; done.
    + destruct (is_store a) eqn:Hs.
      * destruct a; cbn in *; done.
      * left. split_and!; [| |done]; rewrite Forall_app, Forall_singleton;
          (split; [done|]).
        -- rewrite sees_flag_act. intros [_ ?]. congruence.
        -- rewrite is_store_by_act. intros [_ ?]. congruence.
    + destruct (is_store a) eqn:Hs.
      * right; right. split; [|done]. rewrite Forall_app, Forall_singleton.
        split; [done|]. rewrite sees_flag_act. intros [_ ?]. congruence.
      * left. split_and!; [| |done]; rewrite Forall_app, Forall_singleton;
          (split; [done|]).
        -- rewrite sees_flag_act. intros [_ ?]. congruence.
        -- rewrite is_store_by_act. intros [_ ?]. congruence.
  - cbn in Hreads. destruct (Hreads x) as [Hread Hreads'].
    right; right. split; [|done]. rewrite Forall_app, Forall_singleton.
    split; [done|]. rewrite sees_flag_act. intros [_ ?]. congruence.
Qed.

Lemma run_pool_ok (t : list label) (s : system) : run initial t s → pool_ok t s.
Proof.
  remember initial as s0 eqn:Hs0.
  induction 1 as [s|s t s' l s'' Hrun IH Hstep].
  - subst. split; [|constructor]. intros j p Hj. by destruct j.
  - destruct (IH Hs0) as [Hjobs Hacts]. clear IH.
    destruct Hstep as [s' p Hp| s' | s' titles | s' j0 X a k x Hj0 Hans].
    + split; cbn.
      * intros j q Hj. destruct (decide (j < length (pool s'))) as [Hlt|Hge].
        -- rewrite lookup_app_l in Hj by done.
           apply job_ok_other; [by intros []|auto].
        -- assert (j = length (pool s')) as ->.
           { apply lookup_lt_Some in Hj. rewrite length_app in Hj. cbn in Hj. lia. }
           rewrite list_lookup_middle in Hj by done. injection Hj as <-.
           left. split_and!.
           ++ rewrite Forall_app, Forall_singleton. split; [|other_label].
              eapply Forall_impl; [done|]. intros l Hl Hsees%sees_flag_is_act.
              apply Hl in Hsees. lia.
           ++ rewrite Forall_app, Forall_singleton. split; [|other_label].
              eapply Forall_impl; [done|]. intros l Hl Hst%is_store_by_is_act.
              apply Hl in Hst. lia.
           ++ by apply crawl_job_heeds_flag.
      * rewrite Forall_app, Forall_singleton. split; [|other_label].
        eapply Forall_impl; [done|]. intros l Hl j Hj. rewrite length_app.
        apply Hl in Hj. lia.
    + split; cbn.
      * intros j q Hj. apply job_ok_other; [by intros []|auto].
      * rewrite Forall_app, Forall_singleton. split; [done|other_label].
    + split; cbn.
      * intros j q Hj. apply job_ok_other; [by intros []|auto].
      * rewrite Forall_app, Forall_singleton. split; [done|other_label].
    + destruct (pool_effect s' j0 a (<[j0:=k x]> (pool s'))) as [Hpool _].
      split; rewrite Hpool.
      * intros j q Hj. destruct (decide (j = j0)) as [->|Hne].
        -- rewrite list_lookup_insert_eq in Hj by (by eapply lookup_lt_Some).
           injection Hj as <-. apply job_ok_act. auto.
        -- rewrite list_lookup_insert_ne in Hj by done.
           apply job_ok_other; [cbn; congruence|auto].
      * rewrite length_insert, Forall_app, Forall_singleton. split; [done|].
        intros j Hj. cbn in Hj. subst j. by eapply lookup_lt_Some.
Qed.

Lemma run_flag_raised (t : list label) (s s' : system) :
  run s t s' → SetStopFlag ∈ t → stop_flag s' = true.
Proof.
  induction 1 as [s|s t s' l s'' Hrun IH Hstep]; intros Hin.
  - by apply elem_of_nil in Hin.
  - apply elem_of_app in Hin as [Hin|Hin].
    + eapply step_stop_flag_mono; eauto.
    + apply list_elem_of_singleton in Hin as <-.
      by inversion Hstep.
Qed.

(** A job accepted with the flag up: from then on it can only read the flag,
    be answered [true] and return [None]. *)
Lemma run_late_job (s2 s : system) (t2 : list label) (j : nat) p :
  run s2 t2 s →
  stop_flag s2 = true →
  pool s2 !! j = Some p →
  heeds_flag p → begins_with_check p →
  stop_flag s = true
  ∧ ((pool s !! j = Some p ∧ Forall (λ l, ¬ is_act_by j l) t2)
     ∨ (pool s !! j = Some (Return None)
        ∧ Forall (λ l, is_act_by j l → sees_flag j true l) t2)).
Proof.
  intros Hrun Hflag Hj Hheeds Hbegins.
  induction Hrun as [s|s t s' l s'' Hrun IH Hstep].
  - split; [done|]. left. by split.
  - destruct (IH Hflag Hj) as [Hflag' Hcases]. clear IH.
    split; [by eapply step_stop_flag_mono|].
    destruct Hstep as [s' q Hq| s' | s' titles | s' j0 X a k x Hj0 Hans]; cbn.
    + destruct Hcases as [[Hjob Hacts]|[Hjob Hacts]]; [left|right];
        (split; [by apply lookup_app_l_Some|]);
        rewrite Forall_app, Forall_singleton; (split; [done|other_label]).
    + destruct Hcases as [[Hjob Hacts]|[Hjob Hacts]]; [left|right];
        (split; [done|]); rewrite Forall_app, Forall_singleton;
        (split; [done|other_label]).
    + destruct Hcases as [[Hjob Hacts]|[Hjob Hacts]]; [left|right];
        (split; [done|]); rewrite Forall_app, Forall_singleton;
        (split; [done|other_label]).
    + destruct (pool_effect s' j0 a (<[j0:=k x]> (pool s'))) as [-> _].
      destruct (decide (j0 = j)) as [->|Hne].
      * destruct Hcases as [[Hjob Hacts]|[Hjob Hacts]]; [|congruence].
        rewrite Hj0 in Hjob. injection Hjob as <-. right.
        cbn in Hheeds, Hbegins. specialize (Hheeds x). specialize (Hbegins x).
        assert (flag_read a x = Some true) as Hread.
        { destruct a; cbn in *; try done. by rewrite Hans, Hflag'. }
        rewrite Hread in Hheeds.
        split.
        -- rewrite list_lookup_insert_eq by (by eapply lookup_lt_Some).
           by rewrite Hheeds.
        -- rewrite Forall_app, Forall_singleton. split.
           ++ eapply Forall_impl; [done|]. by intros l Hl Hact.
           ++ intros _. by apply sees_flag_act.
      * destruct Hcases as [[Hjob Hacts]|[Hjob Hacts]]; [left|right];
          (split; [by rewrite list_lookup_insert_ne|]);
          rewrite Forall_app, Forall_singleton; (split; [done|]); cbn; congruence.
Qed.

(** C7. The stop flag, once set, stays set along every run.  A job
    accepted after the flag was set performs nothing but a read of the flag,
    answered [true]: no crawler call and no store.  And a job that reads
    the flag as set, before or after its walk, has made and makes no store
    call; it ends returning [None]. *)
Theorem stop_flag_protocol :
  (∀ (s s' : system) (t : list label),
     run s t s' → stop_flag s = true → stop_flag s' = true)
  ∧ (∀ (t1 t2 : list label) (p : prog (option crawl_result)) (s : system),
       run initial (t1 ++ Submit p :: t2) s →
       SetStopFlag ∈ t1 →
       ∀ l, l ∈ t2 → is_act_by (accepted t1) l →
            sees_flag (accepted t1) true l
            ∧ ¬ is_store_by (accepted t1) l
            ∧ ¬ is_network_by (accepted t1) l)
  ∧ (∀ (t : list label) (s : system) (j : nat),
       run initial t s →
       (∃ l, l ∈ t ∧ sees_flag j true l) →
       (∀ l, l ∈ t → ¬ is_store_by j l)
       ∧ pool s !! j = Some (Return None)).
Proof.
  split_and!.
  - apply run_stop_flag_mono.
  - intros t1 t2 p s Hrun Hset l Hl Hact.
    apply run_app_inv in Hrun as (s1 & Hrun1 & Hrun).
    apply run_cons_inv in Hrun as (s2 & Hstep & Hrun2).
    assert (stop_flag s1 = true) as Hflag by (by eapply run_flag_raised).
    apply run_pool_length in Hrun1 as Hlen.
    inversion Hstep as [? ? Hjob| | |]; subst.
    destruct (crawl_job_heeds_flag p Hjob) as [Hheeds Hbegins].
    destruct (run_late_job _ _ _ (accepted t1) p Hrun2) as [_ [[_ Hacts]|[_ Hacts]]];
      try done.
    + cbn. rewrite <- Hlen. by apply list_lookup_middle.
    + rewrite Forall_forall in Hacts. by destruct (Hacts l Hl).
    + rewrite Forall_forall in Hacts. specialize (Hacts l Hl Hact).
      split; [done|]. by eapply sees_flag_exclusive.
  - intros t s j Hrun (l & Hl & Hsees).
    destruct (run_pool_ok t s Hrun) as [Hjobs Hacts].
    rewrite Forall_forall in Hacts.
    assert (j < length (pool s)) as Hj
      by (apply (Hacts l Hl); by eapply sees_flag_is_act).
    apply lookup_lt_is_Some in Hj as [p Hp].
    destruct (Hjobs j p Hp) as [(Hflag & _)|[(Hstore & ->)|(Hflag & _)]].
    + rewrite Forall_forall in Hflag. by destruct (Hflag l Hl).
    + split; [|done]. by rewrite Forall_forall in Hstore.
    + rewrite Forall_forall in Hflag. by destruct (Hflag l Hl).
Qed.

End ControllerFacts.

(** ** The step count a walk is reported with *)

Section StepCount.
Context `{Platform}.

Lemma large_crawl_article_result (max_steps : Z) (start_url : option string)
    (res : crawl_result) :
  yields (large_crawl_article max_steps start_url) (Ok (Some res)) →
  r_steps res = (Z.of_nat (length (r_path res)) - 1)%Z
  ∧ ∃ start visited_global st st' walk,
      crawl_deeply max_steps (Some start) (Some visited_global) st = (Ok walk, st')
      ∧ r_path res = dw_path walk.
Proof.
  cbn. intros ([|] & _ & Hrun); [done|]. cbn in Hrun.
  destruct Hrun as ([start|] & _ & Hrun); cbn in Hrun; [|done].
  destruct Hrun as (visited_global & _ & Hrun). cbn in Hrun.
  destruct Hrun as ([walk|] & [_ (st & st' & Hwalk)] & Hrun); cbn in Hrun; [|done].
  destruct Hrun as ([] & _ & Hrun).
  destruct (dw_path walk) as [|first rest] eqn:Hpath; [done|]. cbn in Hrun.
  destruct Hrun as ([|] & _ & Hrun); [done|]. cbn in Hrun.
  destruct Hrun as ([|] & _ & Hrun); cbn in Hrun.
  - destruct Hrun as (path_id & _ & [= ->]). cbn. split; [done|].
    exists start, visited_global, st, st', walk. by rewrite Hpath.
  - injection Hrun as ->. cbn. split; [done|].
    exists start, visited_global, st, st', walk. by rewrite Hpath.
Qed.

Lemma pick_unmapped_yields {R : Type} (tries : nat) mapped start_url start_title
    (k : string * string → prog R) (r : result R) :
  yields (pick_unmapped tries mapped start_url start_title ≫= k) r →
  r = Raised ∨ ∃ x, yields (k x) r.
Proof.
  induction tries as [|n IH]; cbn.
  - intros Hk. right. by eexists.
  - intros ([new_url|] & _ & Hrun); cbn in Hrun; [|by left].
    case_bool_decide; [|by apply IH]. right. by eexists.
Qed.

Lemma parallel_crawl_article_result (target_depth max_steps : Z)
    (article_or_url : string) (res : crawl_result) :
  yields (parallel_crawl_article target_depth max_steps article_or_url)
    (Ok (Some res)) →
  r_steps res = (Z.of_nat (length (r_path res)) - 1)%Z
  ∧ ∃ start st st' titles reached why,
      follow_general_path target_depth max_steps (Some start) st
      = (Ok (r_path res, titles, reached, why), st').
Proof.
  cbn -[pick_unmapped]. intros ([|] & _ & Hrun); [done|].
  cbn -[pick_unmapped] in Hrun. destruct Hrun as (mapped_articles & _ & Hrun).
  match type of Hrun with yields (_ ≫= ?k) _ => set (rest := k) in * end.
  assert (∃ x, yields (rest x) (Ok (Some res))) as ([start start_title] & Hrest).
  { case_bool_decide.
    - apply pick_unmapped_yields in Hrun as [Hr|Hr]; [discriminate|exact Hr].
    - eexists. exact Hrun. }
  clear Hrun. unfold rest in Hrest. cbn in Hrest.
  destruct Hrest as ([[[[path titles] reached] why]|] & [_ (st & st' & Hwalk)] & Hrun);
    cbn in Hrun; [|done].
  destruct Hrun as ([|] & _ & Hrun); [done|]. cbn in Hrun.
  destruct Hrun as ([|] & _ & Hrun); cbn in Hrun.
  - destruct Hrun as (path_id & _ & [] & _ & [= ->]). cbn. split; [done|].
    by exists start, st, st', titles, reached, why.
  - injection Hrun as ->. cbn. split; [done|].
    by exists start, st, st', titles, reached, why.
Qed.

(** Inside [crawl_deeply] the loop's own counter is not part of what is
    returned; it equals the number of edges of the path except after the
    exit on a globally known next link, which is appended without being
    counted. *)
Lemma crawl_deeply_loop_counter (supplied : option (gset string))
    (turns_left : nat) (v v' : deep_vars) (why : PathOutcome) (st st' : state) :
  deep_inv supplied v →
  crawl_deeply_loop turns_left v st = (Ok (v', why), st') →
  dp_steps v'
  = (Z.of_nat (length (dp_path v')) - match why with AlreadyKnown => 2 | _ => 1 end)%Z.
Proof.
  intros Hinv Hrun.
  destruct (crawl_deeply_loop_spec supplied turns_left v st Hinv)
    as (v1 & why1 & st1 & Hrun1 & _ & _ & Hexit).
  rewrite Hrun in Hrun1. injection Hrun1 as <- <- <-.
  destruct why; cbn in *; try done; by destruct Hexit.
Qed.

End StepCount.

(** ** The step count of a walk *)

(** On the cycle X -> Y -> Z -> X, with Y already known, a deep walk from X
    ends on the known link Y after one request. *)
Lemma deep_walk_onto_known_link :
  match @crawl_deeply_counted Scenario.static_web 1000 (Scenario.wiki "X")
          (Some {["Y"]}) Scenario.start with
  | (Ok (walk, steps), st') =>
      dw_path walk = [Scenario.wiki "X"; Scenario.wiki "Y"]
      ∧ dw_outcome walk = AlreadyKnown
      ∧ steps = 0%Z
      ∧ log st' = [Requested (Scenario.wiki "X")]
  | _ => False
  end.
Proof. vm_compute. by split_and!. Qed.

(** C3, as it holds of the two walkers.  [follow_path] returns (it never
    raises) and the [steps] it returns is the number of locators in its path
    less one, whatever way the walk ends.  [crawl_deeply] returns no step
    count; the [steps] it has counted when it returns is the number of
    locators in its path less one when the walk ends on a dead end, on a
    detected loop, at the step limit or at once on a known start, and less
    two when it ends on a next link that is already known: that link is
    appended to the path and not counted.  On the cycle X -> Y -> Z -> X with
    Y already known, the deep walk from X returns the path [X, Y] having
    counted no step. *)
Theorem step_count_is_edges_unless_known_link :
  (∀ (P : Platform) (start_url : string) (max_steps : Z) (st : @state P),
     ∃ path steps titles why st',
       @follow_path_from P start_url max_steps st = (Ok (path, steps, titles, why), st')
       ∧ steps = (Z.of_nat (length path) - 1)%Z)
  ∧ (∀ (P : Platform) (max_steps : Z) (start_url : string)
       (visited_global : option (gset string)) (st : @state P),
       ∃ walk steps st',
         @crawl_deeply_counted P max_steps start_url visited_global st
         = (Ok (walk, steps), st')
         ∧ @crawl_deeply_from P max_steps start_url visited_global st = (Ok walk, st')
         ∧ steps
           = (Z.of_nat (length (dw_path walk))
              - match dw_outcome walk with
                | AlreadyKnown =>
                    if known_globally visited_global (@get_title_from_url P start_url)
                    then 1 else 2
                | _ => 1
                end)%Z)
  ∧ (∃ walk st',
       @crawl_deeply_counted Scenario.static_web 1000 (Scenario.wiki "X") (Some {["Y"]})
         Scenario.start
       = (Ok (walk, 0%Z), st')
       ∧ dw_path walk = [Scenario.wiki "X"; Scenario.wiki "Y"]
       ∧ dw_outcome walk = AlreadyKnown).
Proof.
  split_and!.
  - intros P start_url max_steps st.
    destruct (@follow_path_from_spec P start_url max_steps st)
      as (path & steps & titles & why & st' & Hrun & Hsteps & _).
    by exists path, steps, titles, why, st'.
  - intros P max_steps start_url visited_global st.
    unfold crawl_deeply_counted, crawl_deeply_from.
    destruct (known_globally visited_global (get_title_from_url start_url)) eqn:Hknown.
    { by eexists _, _, _. }
    destruct (@crawl_deeply_loop_spec P visited_global (Z.to_nat max_steps)
                (deep_start start_url visited_global) st (deep_start_inv _ _ Hknown))
      as (v & why & st' & Hloop & _ & _ & Hexit).
    unfold deep_start in Hloop. rewrite !(io_bind_ok _ _ _ _ _ Hloop). cbn.
    eexists _, _, _. split; [done|]. split; [done|].
    destruct why; cbn in *; try done; by destruct Hexit.
  - pose proof deep_walk_onto_known_link as Hrun.
    destruct (@crawl_deeply_counted Scenario.static_web 1000 (Scenario.wiki "X")
                (Some {["Y"]}) Scenario.start) as [[[walk steps]|] st']; [|done].
    destruct Hrun as (Hpath & Hwhy & -> & _). by exists walk, st'.
Qed.

(** In that walk the count is not the number of locators in the path less
    one: the path has two locators and no step was counted. *)
Lemma crawl_deeply_known_link_not_counted :
  ∃ walk st',
    @crawl_deeply_counted Scenario.static_web 1000 (Scenario.wiki "X") (Some {["Y"]})
      Scenario.start
    = (Ok (walk, 0%Z), st')
    ∧ dw_path walk = [Scenario.wiki "X"; Scenario.wiki "Y"]
    ∧ dw_outcome walk = AlreadyKnown
    ∧ 0%Z ≠ (Z.of_nat (length (dw_path walk)) - 1)%Z.
Proof.
  pose proof deep_walk_onto_known_link as Hrun.
  destruct (@crawl_deeply_counted Scenario.static_web 1000 (Scenario.wiki "X")
              (Some {["Y"]}) Scenario.start) as [[[walk steps]|] st']; [|done].
  destruct Hrun as (Hpath & Hwhy & -> & _). exists walk, st'.
  rewrite Hpath. by split_and!.
Qed.

(** ** The theorems at work on the small web *)

Lemma already_known_appended_once_witness :
  ∃ walk,
    @crawl_deeply_from Scenario.static_web 1000 (Scenario.wiki "X") (Some {["Y"]})
      Scenario.start
    = (Ok walk, @State Scenario.static_web () [Requested (Scenario.wiki "X")])
    ∧ dw_path walk = [Scenario.wiki "X"] ++ [Scenario.wiki "Y"]
    ∧ (Scenario.wiki "Y" ∉ [Scenario.wiki "X"])
    ∧ dw_outcome walk = AlreadyKnown.
Proof.
  apply (@already_known_appended_once Scenario.static_web 1000 (Scenario.wiki "X")
           {["Y"]} Scenario.start
           (@deep_start Scenario.static_web (Scenario.wiki "X") (Some {["Y"]}))
           Scenario.start
           (@State Scenario.static_web () [Requested (Scenario.wiki "X")])
           (Scenario.wiki "Y") "X").
  - apply @at_first_turn. vm_compute. reflexivity.
  - reflexivity.
  - vm_compute. reflexivity.
  - discriminate.
  - apply elem_of_singleton. vm_compute. reflexivity.
Defined.

Lemma crawl_deeply_known_start_witness :
  ∃ walk,
    @crawl_deeply Scenario.static_web 1000 (Some (Scenario.wiki "X")) (Some {["X"]})
      Scenario.start
    = (Ok walk, Scenario.start)
    ∧ dw_path walk = [Scenario.wiki "X"]
    ∧ dw_titles walk = ∅
    ∧ dw_visited_articles walk = ∅
    ∧ ∀ s j jobs,
        visited_articles
          (@effect Scenario.static_web s j _ (AddVisited (dw_visited_articles walk)) jobs)
        = visited_articles s.
Proof.
  apply (@crawl_deeply_known_start Scenario.static_web 1000 (Scenario.wiki "X")
           {["X"]} Scenario.start).
  - discriminate.
  - apply elem_of_singleton. vm_compute. reflexivity.
Defined.

Lemma target_depth_checked_first_witness :
  ∃ path titles reached why st',
    @follow_general_path_from Scenario.static_web 1 50 (Scenario.wiki "Dead")
      Scenario.start
    = (Ok (path, titles, reached, why), st')
    ∧ (Z.of_nat (length path) ≤ 1)%Z
    ∧ (Z.of_nat (length path) = 1%Z → reached = true ∧ why = Completed)
    ∧ ((Z.of_nat (length path) < 1)%Z →
         reached = false
         ∧ (why = DeadEnd ∨ ∃ loop_index loop, why = LoopDetected loop_index loop)).
Proof.
  apply (proj1 (@target_depth_checked_first Scenario.static_web 1 50
                  (Scenario.wiki "Dead") Scenario.start
                  ltac:(lia) ltac:(lia))).
Defined.

(** The page without links, walked with target depth 1: the extractor finds
    no next link, and the walk still reports the depth as reached. *)
Example dead_end_at_target_depth :
  @extract_first_link Scenario.static_web (Scenario.wiki "Dead") Scenario.start
  = (Ok (None, "Dead"),
     @State Scenario.static_web () [Requested (Scenario.wiki "Dead")])
  ∧ match @follow_general_path_from Scenario.static_web 1 50 (Scenario.wiki "Dead")
            Scenario.start with
    | (Ok (path, _, reached, why), st') =>
        path = [Scenario.wiki "Dead"] ∧ reached = true ∧ why = Completed
        ∧ log st' = [Requested (Scenario.wiki "Dead")]
    | _ => False
    end.
Proof. split; vm_compute; [reflexivity | by split_and!]. Qed.

Lemma visited_set_only_grows_witness :
  visited_articles (@initial Scenario.static_web)
  ⊆ visited_articles (@System Scenario.static_web false (∅ ∪ {["Philosophy"]}) [] [])
  ∧ size (visited_articles (@initial Scenario.static_web))
    ≤ size (visited_articles
              (@System Scenario.static_web false (∅ ∪ {["Philosophy"]}) [] [])).
Proof.
  apply (@visited_set_only_grows Scenario.static_web initial _
           ([] ++ [Seed {["Philosophy"]}])).
  eapply run_snoc; [apply run_nil|]. apply (@step_seed Scenario.static_web initial).
Defined.

(** ** A run that discards *)

Section ControllerRuns.
Context `{Platform}.

(** A run in which the flag is raised while the only job is walking: the job
    merges what it visited, reads the flag, and returns [None] without a
    store call; a job accepted afterwards returns [None] at its first read. *)
Lemma flag_raised_during_walk (max_steps : Z) (start : string) (st st' : state)
    (walk : deep_walk) :
  start ≠ "" →
  crawl_deeply max_steps (Some start) (Some ∅) st = (Ok walk, st') →
  ∃ s,
    run initial
      [ Submit (large_crawl_article max_steps (Some start));
        Act 0 StopFlagIsSet false;
        Act 0 (Network (resolve_start (Some start))) (Ok start);
        Act 0 ReadVisited ∅;
        Act 0 (Network (crawl_deeply max_steps (Some start) (Some ∅))) (Ok walk);
        SetStopFlag;
        Act 0 (AddVisited (dw_visited_articles walk)) ();
        Act 0 StopFlagIsSet true;
        Submit (large_crawl_article max_steps (Some start));
        Act 1 StopFlagIsSet true ] s
    ∧ stop_flag s = true
    ∧ stored s = []
    ∧ pool s = [Return None; Return None]
    ∧ visited_articles s = ∅ ∪ dw_visited_articles walk.
Proof.
  intros Hne Hwalk.
  assert (∃ first rest, dw_path walk = first :: rest) as (first & rest & Hpath).
  { unfold crawl_deeply, resolve_start in Hwalk. cbn [truthy_url] in Hwalk.
    apply String.eqb_neq in Hne. rewrite Hne in Hwalk.
    unfold mbind, io_bind, mret, io_ret in Hwalk.
    destruct (crawl_deeply_from_spec max_steps start (Some ∅) st)
      as (walk' & st1 & Hrun & _ & Hnonempty & _).
    rewrite Hrun in Hwalk. injection Hwalk as -> _.
    destruct (dw_path walk) as [|first rest]; [done|]. by exists first, rest. }
  eexists. split.
  - eapply run_cons; [apply step_submit, job_large|].
    eapply run_cons; [eapply step_act; [reflexivity|reflexivity]|].
    eapply run_cons; [eapply step_act; [reflexivity|]|].
    { exists st, st. unfold resolve_start. cbn [truthy_url].
      apply String.eqb_neq in Hne. by rewrite Hne. }
    eapply run_cons; [eapply step_act; [reflexivity|reflexivity]|].
    eapply run_cons; [eapply step_act; [reflexivity|by exists st, st']|].
    eapply run_cons; [eapply step_set_stop_flag|].
    eapply run_cons; [eapply step_act; [reflexivity|done]|].
    cbn. rewrite Hpath. cbn.
    eapply run_cons; [eapply step_act; [reflexivity|reflexivity]|].
    eapply run_cons; [apply step_submit, job_large|].
    eapply run_cons; [eapply step_act; [reflexivity|reflexivity]|].
    apply run_nil.
  - cbn. by split_and!.
Qed.
End ControllerRuns.

(** * Further properties *)

(** ** The link-validity predicate, exactly *)

(** X1. [is_valid_wiki_link] accepts an [href] exactly when it starts with
    [/wiki/] and contains none of the eight namespace tokens and neither
    [#] nor [(disambiguation)], anywhere in it. *)
Theorem is_valid_wiki_link_exactly (href : string) :
  is_valid_wiki_link href = true ↔
    PyStr.is_prefix "/wiki/" href
    ∧ ¬ (∃ token, token ∈ ["File:"; "Wikipedia:"; "Help:"; "Template:"; "Category:";
                           "Portal:"; "Talk:"; "Special:"; "#"; "(disambiguation)"]
                  ∧ PyStr.occurs_in token href).
Proof.
  rewrite is_valid_wiki_link_iff. split.
  - intros (Hpre & Hns & Hm). split; [done|]. intros (token & Hin & Hocc).
    change (token ∈ namespaces ++ non_article_markers) in Hin.
    apply elem_of_app in Hin as [Hin|Hin]; [by apply (Hns token)|by apply (Hm token)].
  - intros (Hpre & Hnone). split; [done|]. split.
    + intros ns Hin Hocc. apply Hnone. exists ns. split; [|done].
      change (ns ∈ namespaces ++ non_article_markers). apply elem_of_app. by left.
    + intros x Hin Hocc. apply Hnone. exists x. split; [|done].
      change (x ∈ namespaces ++ non_article_markers). apply elem_of_app. by right.
Qed.

(** ** What the extractor chooses *)

Lemma scan_paragraphs_valid (paragraphs : list located) (href : string) :
  scan_paragraphs paragraphs = Some href →
  ∃ paragraph link,
    paragraph ∈ paragraphs ∧ link ∈ anchors paragraph
    ∧ href_of link = href ∧ is_valid_wiki_link href = true.
Proof.
  induction paragraphs as [|p rest IH]; cbn [scan_paragraphs]; [done|].
  intros Hscan.
  assert (scan_paragraphs rest = Some href →
          ∃ paragraph link, paragraph ∈ p :: rest ∧ link ∈ anchors paragraph
            ∧ href_of link = href ∧ is_valid_wiki_link href = true) as Hrest.
  { intros Hr. destruct (IH Hr) as (q & l & Hq & Hl).
    exists q, l. split; [by apply elem_of_cons; right|done]. }
  destruct (PyStr.blank _); [by apply Hrest|].
  destruct (should_skip p); [by apply Hrest|].
  pose proof (scan_links_spec (anchors p)) as Hlinks.
  destruct (scan_links (anchors p)) as [h|]; [|by apply Hrest].
  injection Hscan as ->.
  destruct Hlinks as (before & link & after & Heq & Hhref & Hvalid & _).
  exists p, link. split_and!; [by apply elem_of_cons; left| |done|by rewrite <- Hhref].
  rewrite Heq. apply elem_of_app. right. by apply elem_of_cons; left.
Qed.

Lemma find_valid_None (links : list located) :
  List.find (λ link, is_valid_wiki_link (href_of link)) links = None ↔
  ∀ link, link ∈ links → is_valid_wiki_link (href_of link) = false.
Proof.
  induction links as [|l links IH]; cbn [List.find].
  - split; [|done]. intros _ link Hin. by apply elem_of_nil in Hin.
  - destruct (is_valid_wiki_link (href_of l)) eqn:Hl.
    + split; [done|]. intros Hall. specialize (Hall l). rewrite Hl in Hall.
      by discriminate Hall; apply elem_of_cons; left.
    + rewrite IH. split.
      * intros Hall link Hin. apply elem_of_cons in Hin as [->|Hin]; auto.
      * intros Hall link Hin. apply Hall. by apply elem_of_cons; right.
Qed.

Lemma scan_fallback_spec (containers : list located) :
  match scan_fallback containers with
  | Some href =>
      ∃ item link, item ∈ containers ∧ link ∈ anchors item
        ∧ href_of link = href ∧ is_valid_wiki_link href = true
  | None =>
      ∀ item link, item ∈ containers → link ∈ anchors item →
        is_valid_wiki_link (href_of link) = false
  end.
Proof.
  induction containers as [|item rest IH]; cbn [scan_fallback].
  - intros item link Hin. by apply elem_of_nil in Hin.
  - destruct (List.find _ (anchors item)) as [link|] eqn:Hfind.
    + apply find_some in Hfind as [Hin Hvalid]. apply list_elem_of_In in Hin.
      exists item, link. split_and!; [by apply elem_of_cons; left|done|done|done].
    + rewrite find_valid_None in Hfind.
      destruct (scan_fallback rest) as [href|].
      * destruct IH as (it & link & Hit & Hl). exists it, link.
        split; [by apply elem_of_cons; right|done].
      * intros it link Hit Hl. apply elem_of_cons in Hit as [->|Hit]; eauto.
Qed.

Lemma scan_paragraphs_None (paragraphs : list located) :
  (∀ paragraph link, paragraph ∈ paragraphs → link ∈ anchors paragraph →
     is_valid_wiki_link (href_of link) = false) →
  scan_paragraphs paragraphs = None.
Proof.
  intros Hall. destruct (scan_paragraphs paragraphs) as [href|] eqn:Hscan; [|done].
  apply scan_paragraphs_valid in Hscan as (p & l & Hp & Hl & <- & Hvalid).
  rewrite (Hall p l Hp Hl) in Hvalid. discriminate.
Qed.

(** The paragraphs of the first stage are among those of the last. *)
Lemma lead_paragraphs_found (content_div paragraph : located) :
  paragraph ∈ lead_paragraphs content_div →
  paragraph ∈ find_all (tag_named "p") content_div.
Proof.
  unfold lead_paragraphs.
  assert (∀ p, p ∈ select [([parser_output], tag_named "p")] content_div →
               p ∈ find_all (tag_named "p") content_div) as Hselect.
  { intros p. unfold select, find_all. rewrite !list_elem_of_In, !filter_In.
    intros [Hin Htest]. split; [done|]. cbn [existsb] in Htest.
    rewrite orb_false_r in Htest. by apply andb_true_iff in Htest as [? _]. }
  assert (∀ p, p ∈ find_all_children (tag_named "p") content_div →
               p ∈ find_all (tag_named "p") content_div) as Hchildren.
  { intros p. unfold find_all_children, find_all. rewrite !list_elem_of_In, !filter_In.
    intros [Hin Htest]. split; [done|]. by apply andb_true_iff in Htest as [? _]. }
  destruct (select _ content_div) as [|s ss] eqn:Hs.
  - destruct (find_all_children _ content_div) as [|c cs] eqn:Hc; [done|].
    apply Hchildren.
  - apply Hselect.
Qed.

(** X2. Over a content container the three stages return an [href] only if it
    is valid and belongs to a link of a paragraph or of a top-level list
    item of the container, and they return none exactly when no link of
    any paragraph of the container, nor of any of its top-level list items,
    is valid: the rules about parentheses, empty paragraphs and boxes never
    turn a page with a valid paragraph link into a dead end. *)
Theorem first_href_exactly (content_div : located) :
  match first_href content_div with
  | Some href =>
      is_valid_wiki_link href = true
      ∧ ∃ item link,
          item ∈ find_all (tag_named "p") content_div ++ list_items content_div
          ∧ link ∈ anchors item ∧ href_of link = href
  | None =>
      ∀ item link,
        item ∈ find_all (tag_named "p") content_div ++ list_items content_div →
        link ∈ anchors item → is_valid_wiki_link (href_of link) = false
  end.
Proof.
  unfold first_href.
  destruct (scan_paragraphs (lead_paragraphs content_div)) as [href|] eqn:Hlead.
  { apply scan_paragraphs_valid in Hlead as (p & l & Hp & Hl & Hhref & Hvalid).
    split; [done|]. exists p, l. split_and!; [|done|done].
    apply elem_of_app. left. by apply lead_paragraphs_found. }
  pose proof (scan_fallback_spec (list_items content_div)) as Hitems.
  destruct (scan_fallback (list_items content_div)) as [href|].
  { destruct Hitems as (item & l & Hitem & Hl & Hhref & Hvalid).
    split; [done|]. exists item, l. split_and!; [|done|done].
    apply elem_of_app. by right. }
  pose proof (scan_fallback_spec (find_all (tag_named "p") content_div)) as Hall.
  destruct (scan_fallback (find_all (tag_named "p") content_div)) as [href|].
  { destruct Hall as (item & l & Hitem & Hl & Hhref & Hvalid).
    split; [done|]. exists item, l. split_and!; [|done|done].
    apply elem_of_app. by left. }
  intros item link Hitem Hl. apply elem_of_app in Hitem as [Hitem|Hitem]; eauto.
Qed.

Lemma first_href_valid (content_div : located) (href : string) :
  first_href content_div = Some href → is_valid_wiki_link href = true.
Proof.
  unfold first_href.
  destruct (scan_paragraphs (lead_paragraphs content_div)) as [h|] eqn:Hlead.
  { intros [= ->]. by apply scan_paragraphs_valid in Hlead as (_ & _ & _ & _ & _ & ?). }
  pose proof (scan_fallback_spec (list_items content_div)) as Hitems.
  destruct (scan_fallback (list_items content_div)) as [h|].
  { intros [= ->]. by destruct Hitems as (_ & _ & _ & _ & _ & ?). }
  pose proof (scan_fallback_spec (find_all (tag_named "p") content_div)) as Hall.
  destruct (scan_fallback (find_all (tag_named "p") content_div)) as [h|]; [|done].
  intros [= ->]. by destruct Hall as (_ & _ & _ & _ & _ & ?).
Qed.

Section ExtractorChoice.
Context `{Platform}.

Lemma parse_article_valid (url : string) (soup : node) next title :
  parse_article url soup = Some (Some next, title) →
  ∃ href, is_valid_wiki_link href = true ∧ next = urljoin base_url href.
Proof.
  unfold parse_article.
  destruct (find (λ n, tag_named "div" n && has_id "mw-content-text" n) _)
    as [content_div|]; [|done].
  destruct (first_href content_div) as [href|] eqn:Hfirst; [|done].
  intros [= <- _]. exists href. split; [|done]. by eapply first_href_valid.
Qed.

Lemma extract_attempts_valid (n : nat) (url : string) (st st' : state) next title :
  extract_attempts n url st = (Ok (Some next, title), st') →
  ∃ href, is_valid_wiki_link href = true ∧ next = urljoin base_url href.
Proof.
  revert st. induction n as [|n IH]; intros st; cbn [extract_attempts]; [done|].
  unfold mbind, io_bind, fetch.
  destruct (session_get url (net st)) as [[|soup] w].
  - cbn [sleep]. apply IH.
  - destruct (parse_article url soup) as [[next_url title']|] eqn:Hparse.
    + intros [= -> -> _]. by eapply parse_article_valid.
    + cbn [sleep]. apply IH.
Qed.

(** X3. Whatever the network answers, the next link [extract_first_link]
    returns, if any, is [base_url] joined with an [href] that
    [is_valid_wiki_link] accepts. *)
Theorem extract_first_link_valid (url : string) (st : state) :
  ∃ next_url title st',
    extract_first_link url st = (Ok (next_url, title), st')
    ∧ match next_url with
      | Some next => ∃ href, is_valid_wiki_link href = true ∧ next = urljoin base_url href
      | None => True
      end.
Proof.
  destruct (extract_first_link_returns url st) as ([next_url title] & st' & Hrun).
  exists next_url, title, st'. split; [done|].
  destruct next_url as [next|]; [|done]. by eapply extract_attempts_valid.
Qed.

End ExtractorChoice.

(** ** [remove_parentheses] *)

Lemma remove_parentheses_loop_result (previous : option ascii) (text : string)
    (depth : nat) (result : string) :
  remove_parentheses_loop previous text depth result
  = result +:+ remove_parentheses_loop previous text depth "".
Proof.
  revert previous depth result.
  induction text as [|c text IH]; intros previous depth result;
    cbn [remove_parentheses_loop].
  - by rewrite string_app_nil_r.
  - destruct (unescaped "(" c previous); [apply IH|].
    destruct (unescaped ")" c previous); [apply IH|].
    case_bool_decide; [|apply IH].
    rewrite IH. rewrite (IH _ _ ("" +:+ String c "")).
    by rewrite string_app_assoc.
Qed.

Lemma unescaped_false (paren c : ascii) (previous : option ascii) :
  unescaped paren c previous = false → c = paren → previous = Some "\"%char.
Proof.
  unfold unescaped. intros Hu ->. rewrite Ascii.eqb_refl in Hu. cbn in Hu.
  destruct previous as [p|]; [|done].
  apply negb_false_iff, Ascii.eqb_eq in Hu. by subst.
Qed.

Lemma remove_parentheses_loop_escaped (previous emitted : option ascii) (text : string)
    (depth : nat) :
  (depth = 0 → previous = Some "\"%char → emitted = Some "\"%char) →
  parens_escaped emitted (remove_parentheses_loop previous text depth "").
Proof.
  revert previous emitted depth.
  induction text as [|c text IH]; intros previous emitted depth Hlast;
    cbn [remove_parentheses_loop]; [done|].
  destruct (unescaped "(" c previous) eqn:Hopen.
  { apply IH. lia. }
  destruct (unescaped ")" c previous) eqn:Hclose.
  { apply IH. intros _ [= Hc]. unfold unescaped in Hclose. rewrite Hc in Hclose. done. }
  case_bool_decide as Hdepth.
  - rewrite remove_parentheses_loop_result. unfold_append. cbn [parens_escaped]. split.
    + intros [->| ->]; apply Hlast; try done.
      * exact (unescaped_false _ _ _ Hopen eq_refl).
      * exact (unescaped_false _ _ _ Hclose eq_refl).
    + by apply IH.
  - by apply IH.
Qed.

Lemma parens_escaped_split (before : option ascii) (pre post : string) (c : ascii) :
  parens_escaped before (pre +:+ String c post) →
  c = "("%char ∨ c = ")"%char →
  (pre = "" ∧ before = Some "\"%char) ∨ ∃ pre', pre = pre' +:+ "\".
Proof.
  revert before. induction pre as [|d pre IH]; intros before; unfold_append;
    cbn [parens_escaped]; intros [Hc Hrest] Hparen.
  - left. auto.
  - right. destruct (IH _ Hrest Hparen) as [[-> [= ->]]|[pre' ->]].
    + by exists "".
    + exists (String d pre'). by unfold_append.
Qed.

(** X4. No bare parenthesis is left: in the text [remove_parentheses] returns,
    every [(] and every [)] comes right after a backslash. *)
Theorem remove_parentheses_leaves_escaped_only (html_text pre post : string) (c : ascii) :
  remove_parentheses html_text = pre +:+ String c post →
  c = "("%char ∨ c = ")"%char →
  ∃ pre', pre = pre' +:+ "\".
Proof.
  intros Hout Hparen.
  assert (parens_escaped None (remove_parentheses html_text)) as Hesc.
  { apply remove_parentheses_loop_escaped. by intros _ [=]. }
  rewrite Hout in Hesc.
  by destruct (parens_escaped_split _ _ _ _ Hesc Hparen) as [[_ [=]]|?].
Qed.

Lemma remove_parentheses_leaves_escaped_only_witness :
  ∃ pre', "a\" = pre' +:+ "\".
Proof.
  apply (remove_parentheses_leaves_escaped_only "a\(b (c) d" "a\" "b  d" "("%char);
    [reflexivity|by left].
Defined.

Lemma ordinary_cons (c : ascii) (s : string) :
  ordinary (String c s) →
  c ≠ "("%char ∧ c ≠ ")"%char ∧ c ≠ "\"%char ∧ c ≠ "&"%char ∧ ordinary s.
Proof.
  unfold ordinary. cbn [PyText.chars]. intros Hc. apply Forall_cons in Hc as [Hc Hs].
  split_and!; try done; intros ->; apply Hc; set_solver.
Qed.

Lemma ordinary_app (a b : string) : ordinary a → ordinary b → ordinary (a +:+ b).
Proof.
  intros Ha Hb. induction a as [|c a IH]; unfold_append; [done|].
  unfold ordinary in *. cbn [PyText.chars] in *.
  apply Forall_cons in Ha as [Hc Ha]. apply Forall_cons. auto.
Qed.

(** A text without [&] has no entity to replace. *)
Lemma replace_from_no_entity (old new : string) (c0 : ascii) (old' s : string) :
  old = String c0 old' →
  Forall (λ c, c ≠ c0) (PyText.chars s) →
  PyText.replace_from old new 0 s = s.
Proof.
  intros ->. induction s as [|c s IH]; cbn [PyText.chars]; intros Hs; [done|].
  apply Forall_cons in Hs as [Hc Hs]. cbn [PyText.replace_from PyStr.startswith].
  destruct (Ascii.eqb_spec c0 c) as [->|_]; [done|]. by rewrite IH.
Qed.

(** Outside parentheses ordinary text is copied. *)
Lemma remove_parentheses_loop_outside (a rest : string) (previous : option ascii) :
  ordinary a → not_backslash previous →
  ∃ previous', not_backslash previous'
    ∧ remove_parentheses_loop previous (a +:+ rest) 0 ""
      = a +:+ remove_parentheses_loop previous' rest 0 "".
Proof.
  revert previous. induction a as [|c a IH]; intros previous Ha Hprev; unfold_append.
  - by exists previous.
  - apply ordinary_cons in Ha as (Ho & Hc & Hb & _ & Ha).
    destruct (IH (Some c) Ha) as (previous' & Hprev' & Heq).
    { intros [= ->]. done. }
    exists previous'. split; [done|]. cbn [remove_parentheses_loop]. unfold unescaped.
    apply Ascii.eqb_neq in Ho, Hc. rewrite Ho, Hc. cbn [andb bool_decide].
    rewrite bool_decide_eq_true_2 by done.
    rewrite remove_parentheses_loop_result, Heq. by unfold_append.
Qed.

(** Inside parentheses it is dropped. *)
Lemma remove_parentheses_loop_inside (b rest : string) (previous : option ascii)
    (depth : nat) :
  ordinary b → not_backslash previous →
  ∃ previous', not_backslash previous'
    ∧ remove_parentheses_loop previous (b +:+ rest) (S depth) ""
      = remove_parentheses_loop previous' rest (S depth) "".
Proof.
  revert previous. induction b as [|c b IH]; intros previous Hb Hprev; unfold_append.
  - by exists previous.
  - apply ordinary_cons in Hb as (Ho & Hc & Hbs & _ & Hb).
    destruct (IH (Some c) Hb) as (previous' & Hprev' & Heq).
    { intros [= ->]. done. }
    exists previous'. split; [done|]. cbn [remove_parentheses_loop]. unfold unescaped.
    apply Ascii.eqb_neq in Ho, Hc. rewrite Ho, Hc. cbn [andb].
    rewrite bool_decide_eq_false_2 by lia. done.
Qed.

Lemma remove_parentheses_loop_open (rest : string) (previous : option ascii) (depth : nat) :
  not_backslash previous →
  remove_parentheses_loop previous ("(" +:+ rest) depth ""
  = remove_parentheses_loop (Some "("%char) rest (depth + 1) "".
Proof.
  intros Hprev. unfold_append. cbn [remove_parentheses_loop]. unfold unescaped.
  destruct previous as [p|]; [|done].
  destruct (Ascii.eqb_spec p "\"%char) as [->|_]; [by destruct Hprev|done].
Qed.

Lemma remove_parentheses_loop_close (rest : string) (previous : option ascii) (depth : nat) :
  not_backslash previous →
  remove_parentheses_loop previous (")" +:+ rest) depth ""
  = remove_parentheses_loop (Some ")"%char) rest (depth - 1) "".
Proof.
  intros Hprev. unfold_append. cbn [remove_parentheses_loop]. unfold unescaped.
  assert (match previous with Some p => negb (Ascii.eqb p "\") | None => true end = true)
    as ->.
  { destruct previous as [p|]; [|done].
    destruct (Ascii.eqb_spec p "\"%char) as [->|_]; [by destruct Hprev|done]. }
  cbn. case_bool_decide; [done|]. by replace (depth - 1) with depth by lia.
Qed.

Lemma chars_app (a b : string) : PyText.chars (a +:+ b) = PyText.chars a ++ PyText.chars b.
Proof. induction a as [|c a IH]; unfold_append; cbn [PyText.chars]; [done|by rewrite IH]. Qed.

Lemma ordinary_no_ampersand (s : string) : ordinary s → no_ampersand s.
Proof.
  intros Hs. eapply Forall_impl; [exact Hs|]. intros c Hc ->. apply Hc. set_solver.
Qed.

Lemma no_ampersand_app (a b : string) :
  no_ampersand a → no_ampersand b → no_ampersand (a +:+ b).
Proof. unfold no_ampersand. rewrite chars_app. apply Forall_app_2. Qed.

Lemma remove_parentheses_no_entity (s : string) :
  no_ampersand s →
  remove_parentheses s = remove_parentheses_loop None s 0 "".
Proof.
  intros Hamp. unfold remove_parentheses, PyText.replace.
  rewrite (replace_from_no_entity "&lt;" "<" "&" "lt;" s eq_refl Hamp).
  by rewrite (replace_from_no_entity "&gt;" ">" "&" "gt;" s eq_refl Hamp).
Qed.

(** X5. On text whose only special characters are the parentheses shown:
    a parenthesised stretch is removed with its parentheses, a closing
    parenthesis that closes nothing is dropped, an opening one that is not
    closed takes the rest of the text with it, and text without
    parentheses comes back as it is. *)
Theorem remove_parentheses_drops_parenthesised (a b c : string) :
  ordinary a → ordinary b → ordinary c →
  remove_parentheses (a +:+ "(" +:+ b +:+ ")" +:+ c) = a +:+ c
  ∧ remove_parentheses (a +:+ ")" +:+ c) = a +:+ c
  ∧ remove_parentheses (a +:+ "(" +:+ b) = a
  ∧ remove_parentheses a = a.
Proof.
  intros Ha Hb Hc.
  assert (no_ampersand "(") as Hopen by (repeat constructor; done).
  assert (no_ampersand ")") as Hclose by (repeat constructor; done).
  pose proof (ordinary_no_ampersand _ Ha) as Ha'.
  pose proof (ordinary_no_ampersand _ Hb) as Hb'.
  pose proof (ordinary_no_ampersand _ Hc) as Hc'.
  assert (not_backslash None) as Hnone by done.
  assert (not_backslash (Some "("%char)) as Hpo by done.
  assert (not_backslash (Some ")"%char)) as Hpc by done.
  assert (∀ s previous, ordinary s → not_backslash previous →
            remove_parentheses_loop previous s 0 "" = s) as Hcopy.
  { intros s previous Hs Hprev.
    destruct (remove_parentheses_loop_outside s "" previous Hs Hprev)
      as (previous' & _ & Heq).
    rewrite string_app_nil_r in Heq. rewrite Heq. cbn. by rewrite string_app_nil_r. }
  split_and!.
  - rewrite remove_parentheses_no_entity by (repeat apply no_ampersand_app; done).
    destruct (remove_parentheses_loop_outside a ("(" +:+ b +:+ ")" +:+ c) None Ha Hnone)
      as (p1 & Hp1 & ->).
    rewrite remove_parentheses_loop_open by done. cbn [Nat.add].
    destruct (remove_parentheses_loop_inside b (")" +:+ c) (Some "("%char) 0 Hb Hpo)
      as (p2 & Hp2 & ->).
    rewrite remove_parentheses_loop_close by done. cbn [Nat.sub].
    by rewrite Hcopy.
  - rewrite remove_parentheses_no_entity by (repeat apply no_ampersand_app; done).
    destruct (remove_parentheses_loop_outside a (")" +:+ c) None Ha Hnone)
      as (p1 & Hp1 & ->).
    rewrite remove_parentheses_loop_close by done. cbn [Nat.sub].
    by rewrite Hcopy.
  - rewrite remove_parentheses_no_entity by (repeat apply no_ampersand_app; done).
    destruct (remove_parentheses_loop_outside a ("(" +:+ b) None Ha Hnone)
      as (p1 & Hp1 & ->).
    rewrite remove_parentheses_loop_open by done. cbn [Nat.add].
    destruct (remove_parentheses_loop_inside b "" (Some "("%char) 0 Hb Hpo)
      as (p2 & Hp2 & Heq).
    rewrite string_app_nil_r in Heq. rewrite Heq. cbn. by rewrite string_app_nil_r.
  - rewrite remove_parentheses_no_entity by done. by apply Hcopy.
Qed.

Lemma remove_parentheses_drops_parenthesised_witness :
  remove_parentheses ("Plato " +:+ "(" +:+ "Greek" +:+ ")" +:+ " was") = "Plato " +:+ " was"
  ∧ remove_parentheses ("Plato " +:+ ")" +:+ " was") = "Plato " +:+ " was"
  ∧ remove_parentheses ("Plato " +:+ "(" +:+ "Greek") = "Plato "
  ∧ remove_parentheses "Plato " = "Plato ".
Proof.
  apply (remove_parentheses_drops_parenthesised "Plato " "Greek" " was");
    unfold ordinary; cbn [PyText.chars]; repeat constructor; set_solver.
Defined.

(** ** The walkers, turn by turn *)

Section WalkerTurns.
Context `{Platform}.

(** What one call of the extractor adds to the log: requests of [url] and
    pauses, at most one request per attempt. *)
Lemma extract_attempts_log (n : nat) (url : string) (st : state) r st' :
  extract_attempts n url st = (Ok r, st') →
  ∃ new, log st' = log st ++ new
    ∧ requests new ≤ n
    ∧ ∀ u, Requested u ∈ new → u = url.
Proof.
  revert st. induction n as [|n IH]; intros st; cbn [extract_attempts].
  - intros [= _ <-]. exists []. rewrite app_nil_r. split_and!; [done|done|].
    intros u Hu. by apply elem_of_nil in Hu.
  - unfold mbind, io_bind, fetch.
    destruct (session_get url (net st)) as [response w].
    assert (∀ ms, extract_attempts n url
                    (State w ((log st ++ [Requested url]) ++ [Slept ms])) = (Ok r, st') →
            ∃ new, log st' = log st ++ new ∧ requests new ≤ S n
              ∧ ∀ u, Requested u ∈ new → u = url) as Hretry.
    { intros ms Hrun. destruct (IH _ Hrun) as (new & Hlog & Hreq & Hurl).
      exists ([Requested url; Slept ms] ++ new). split_and!.
      - rewrite Hlog. cbn [log]. by rewrite <- !app_assoc.
      - rewrite requests_app. cbn. lia.
      - intros u. rewrite elem_of_app, !elem_of_cons.
        intros [[[= ->]|[[=]|Hu]]|Hu]; [done| |by apply Hurl].
        by apply elem_of_nil in Hu. }
    destruct response as [|soup]; [apply Hretry|].
    destruct (parse_article url soup) as [found|]; [|apply Hretry].
    intros [= _ <-]. exists [Requested url]. split_and!; [done|cbn; lia|].
    intros u Hu. apply list_elem_of_singleton in Hu. by injection Hu.
Qed.

Lemma extract_first_link_log (url : string) (st : state) r st' :
  extract_first_link url st = (Ok r, st') →
  ∃ new, log st' = log st ++ new
    ∧ requests new ≤ 3
    ∧ ∀ u, Requested u ∈ new → u = url.
Proof. apply extract_attempts_log. Qed.

Lemma io_bind_inv {A B : Type} (m : io A) (f : A → io B) (st st' : state) (b : B) :
  (m ≫= f) st = (Ok b, st') →
  ∃ a st1, m st = (Ok a, st1) ∧ f a st1 = (Ok b, st').
Proof.
  unfold mbind, io_bind. destruct (m st) as [[a|] st1]; [|done]. by exists a, st1.
Qed.

(** *** [follow_path] *)

(** The ways a turn of [follow_path] can go. *)
Lemma follow_path_turn_cases (v v' : follow_path_vars) (ended : option PathOutcome)
    (st st' : state) :
  follow_path_turn v st = (Ok (v', ended), st') →
  ∃ next_url current_title st1,
    extract_first_link (fp_current_url v) st = (Ok (next_url, current_title), st1)
    ∧ fp_titles v' = <[fp_current_url v := current_title]> (fp_titles v)
    ∧ match ended with
      | Some why =>
          fp_current_url v' = fp_current_url v ∧ fp_path v' = fp_path v
          ∧ fp_steps v' = fp_steps v ∧ st' = st1
          ∧ match why with
            | Completed => current_title = "Philosophy"
            | LoopDetected loop_index loop =>
                current_title ≠ "Philosophy"
                ∧ fp_current_url v ∈ all_but_last (fp_path v)
                ∧ ∃ i, index_of (fp_current_url v) (fp_path v) = Some i
                    ∧ loop_index = Z.of_nat i ∧ loop = drop i (fp_path v)
            | DeadEnd =>
                current_title ≠ "Philosophy"
                ∧ (fp_current_url v ∉ all_but_last (fp_path v))
                ∧ truthy_url next_url = None
            | _ => False
            end
      | None =>
          current_title ≠ "Philosophy"
          ∧ (fp_current_url v ∉ all_but_last (fp_path v))
          ∧ ∃ next, truthy_url next_url = Some next
              ∧ fp_current_url v' = next
              ∧ fp_path v' = fp_path v ++ [next]
              ∧ fp_steps v' = (fp_steps v + 1)%Z
              ∧ st' = State (net st1) (log st1 ++ [Slept 500])
      end.
Proof.
  unfold follow_path_turn. intros Hturn.
  apply io_bind_inv in Hturn as ([next_url current_title] & st1 & Hext & Hturn).
  exists next_url, current_title, st1. split; [done|].
  cbn [fp_current_url fp_path fp_titles fp_steps] in Hturn.
  destruct (String.eqb_spec current_title "Philosophy") as [Hphil|Hphil].
  { injection Hturn as <- <- <-. by cbn. }
  case_bool_decide as Hloop.
  { destruct (index_of (fp_current_url v) (fp_path v)) as [i|] eqn:Hi; [|done].
    injection Hturn as <- <- <-. cbn. split_and!; try done. by exists i. }
  destruct (truthy_url next_url) as [next|] eqn:Hnext.
  - unfold mbind, io_bind, sleep in Hturn. cbn in Hturn.
    injection Hturn as <- <- <-. cbn. split_and!; try done. by exists next.
  - injection Hturn as <- <- <-. by cbn.
Qed.

(** Invariants of the loop of [follow_path], by the turns left. *)
Lemma follow_path_loop_rule (I : nat → follow_path_vars → state → Prop)
    (Q : follow_path_vars → PathOutcome → state → Prop) :
  (∀ v st, I 0 v st → Q v StepLimitReached st) →
  (∀ n v st v' ended st',
     I (S n) v st → follow_path_turn v st = (Ok (v', ended), st') →
     match ended with Some why => Q v' why st' | None => I n v' st' end) →
  ∀ n v st v' why st',
    I n v st → follow_path_loop n v st = (Ok (v', why), st') → Q v' why st'.
Proof.
  intros Hlimit Hturn. induction n as [|n IH]; intros v st v' why st' HI;
    cbn [follow_path_loop].
  - intros [= <- <- <-]. by apply Hlimit.
  - intros Hloop. apply io_bind_inv in Hloop as ([v1 ended] & st1 & Hstep & Hloop).
    specialize (Hturn _ _ _ _ _ _ HI Hstep). destruct ended as [why'|].
    + injection Hloop as <- <- <-. done.
    + by eapply IH.
Qed.

End WalkerTurns.

Section FollowPathFacts.
Context `{Platform}.

Lemma follow_path_head_turn (max_steps : Z) (st0 : state) (n : nat)
    (v v' : follow_path_vars) (ended : option PathOutcome) (st st' : state) :
  follow_path_head max_steps st0 (S n) v st →
  follow_path_turn v st = (Ok (v', ended), st') →
  match ended with
  | Some why => follow_path_end max_steps st0 v' why st'
  | None => follow_path_head max_steps st0 n v' st'
  end.
Proof.
  intros (front & new & Hpath & Hsteps & Hturns & Hdom & Hphil & Hlog & Hreq & Hurls) Hturn.
  apply follow_path_turn_cases in Hturn
    as (next_url & current_title & st1 & Hext & Htitles & Hcases).
  destruct (extract_first_link_log _ _ _ _ Hext) as (new1 & Hlog1 & Hreq1 & Hurls1).
  assert (all_but_last (fp_path v) = front) as Hfront.
  { unfold all_but_last. rewrite Hpath. apply removelast_last. }
  assert (dom (fp_titles v') = list_to_set (fp_path v)) as Hdom'.
  { rewrite Htitles, dom_insert_L, Hdom, Hpath, list_to_set_app_L. cbn. set_solver. }
  assert (∀ url, Requested url ∈ new ++ new1 → url ∈ fp_path v) as Hurls'.
  { intros url Hin. rewrite Hpath. apply elem_of_app in Hin as [Hin|Hin].
    - apply elem_of_app. left. by apply Hurls.
    - apply elem_of_app. right. apply list_elem_of_singleton. by apply Hurls1. }
  destruct ended as [why|].
  - destruct Hcases as (Hcur & Hpath' & Hsteps' & -> & Hwhy).
    exists front, (new ++ new1). rewrite Hcur, Hpath', Hsteps'.
    assert (why ≠ StepLimitReached ∧ why ≠ AlreadyKnown) as [Hnl Hnk]
      by (by destruct why).
    split_and!; try done.
    + split; [done|lia].
    + lia.
    + by destruct why.
    + rewrite Htitles. split.
      * intros ->. cbn in Hwhy. exists (fp_current_url v).
        by rewrite lookup_insert_eq, Hwhy.
      * intros (url & Hurl). destruct (decide (url = fp_current_url v)) as [->|Hne].
        -- rewrite lookup_insert_eq in Hurl. injection Hurl as ->.
           destruct why; try done; by destruct Hwhy as [? _].
        -- rewrite lookup_insert_ne in Hurl by done. by destruct (Hphil _ _ Hurl).
    + intros ->. cbn in Hwhy. by rewrite Htitles, lookup_insert_eq, Hwhy.
    + intros ->. destruct Hwhy as (_ & Hnot & _). by rewrite <- Hfront.
    + intros loop_index loop ->. destruct Hwhy as (_ & Hin & Hi).
      split; [by rewrite <- Hfront|done].
    + rewrite Hlog1, Hlog. by rewrite app_assoc.
    + rewrite requests_app. lia.
  - destruct Hcases as (Hne & Hnot & next & Hnext & Hcur & Hpath' & Hsteps' & ->).
    exists (fp_path v), ((new ++ new1) ++ [Slept 500]). rewrite Hcur, Hpath', Hsteps'.
    split_and!; try done.
    + rewrite Hpath, length_app. cbn. lia.
    + lia.
    + rewrite Htitles. intros url title Hurl.
      destruct (decide (url = fp_current_url v)) as [->|Hneq].
      * rewrite lookup_insert_eq in Hurl. by injection Hurl as <-.
      * rewrite lookup_insert_ne in Hurl by done. by eapply Hphil.
    + cbn [log]. rewrite Hlog1, Hlog. by rewrite !app_assoc.
    + rewrite !requests_app, Hpath, length_app. cbn. lia.
    + intros url Hin. apply elem_of_app in Hin as [Hin|Hin]; [by apply Hurls'|].
      apply list_elem_of_singleton in Hin. done.
Qed.

Lemma follow_path_head_limit (max_steps : Z) (st0 : state)
    (v : follow_path_vars) (st : state) :
  follow_path_head max_steps st0 0 v st →
  follow_path_end max_steps st0 v StepLimitReached st.
Proof.
  intros (front & new & Hpath & Hsteps & Hturns & Hdom & Hphil & Hlog & Hreq & Hurls).
  exists front, new. split_and!; try done.
  - split; [lia|done].
  - lia.
  - split; [done|]. intros (url & Hurl). by destruct (Hphil _ _ Hurl).
  - lia.
  - intros url Hin. rewrite Hpath. apply elem_of_app. left. by apply Hurls.
Qed.

(** [follow_path] from a given start returns, and the loop variables it
    returns with are as [follow_path_end] says. *)
Lemma follow_path_from_end (start_url : string) (max_steps : Z) (st : state) :
  ∃ v why st',
    follow_path_from start_url max_steps st
    = (Ok (fp_path v, fp_steps v, fp_titles v, why), st')
    ∧ follow_path_end max_steps st v why st'
    ∧ head (fp_path v) = Some start_url.
Proof.
  destruct (follow_path_loop_spec (Z.to_nat max_steps)
              (FollowPathVars start_url [start_url] ∅ 0) st)
    as (v & why & st' & Hloop & _).
  { exists []. split_and!; [done|apply NoDup_nil_2|done]. }
  exists v, why, st'. split.
  { unfold follow_path_from. by rewrite (io_bind_ok _ _ _ _ _ Hloop). }
  split.
  - eapply (follow_path_loop_rule (follow_path_head max_steps st)
              (follow_path_end max_steps st)); [| |idtac|exact Hloop].
    + apply follow_path_head_limit.
    + intros n v1 st1 v2 ended st2. apply follow_path_head_turn.
    + exists [], []. cbn. rewrite app_nil_r. split_and!; try done; try lia.
      intros url Hin. by apply elem_of_nil in Hin.
  - eapply (follow_path_loop_rule
              (λ _ v _, head (fp_path v) = Some start_url)
              (λ v _ _, head (fp_path v) = Some start_url)); [| |idtac|exact Hloop].
    + done.
    + intros n v1 st1 v2 ended st2 Hhead Hturn.
      apply follow_path_turn_cases in Hturn as (? & ? & ? & _ & _ & Hcases).
      destruct ended as [w|].
      * destruct Hcases as (_ & -> & _). done.
      * destruct Hcases as (_ & _ & next & _ & _ & -> & _).
        destruct (fp_path v1); [done|]. done.
    + done.
Qed.

End FollowPathFacts.

Section FollowPathTheorems.
Context `{Platform}.

(** X6. [follow_path] keeps to its budget.  From any start and for any
    [max_steps] it returns; the step count is at most [max_steps] (0 when
    [max_steps] is not positive); the walk ended because the steps ran out
    exactly when the count it returns is not below [max_steps]; it made at
    most 3 requests per allowed step, and requested no locator that is not
    in the path it returns, which begins with the start. *)
Theorem follow_path_keeps_budget (start_url : string) (max_steps : Z) (st : state) :
  ∃ path steps titles why st' new,
    follow_path_from start_url max_steps st = (Ok (path, steps, titles, why), st')
    ∧ head path = Some start_url
    ∧ (0 ≤ steps ≤ Z.max 0 max_steps)%Z
    ∧ (why = StepLimitReached ↔ (max_steps ≤ steps)%Z)
    ∧ log st' = log st ++ new
    ∧ requests new ≤ 3 * Z.to_nat max_steps
    ∧ ∀ url, Requested url ∈ new → url ∈ path.
Proof.
  destruct (follow_path_from_end start_url max_steps st)
    as (v & why & st' & Hrun & Hend & Hhead).
  destruct Hend as (front & new & Hpath & Hsteps & Hlimit & Hle & _ & _ & _ & _ & _ & _
                    & Hlog & Hreq & Hurls).
  exists (fp_path v), (fp_steps v), (fp_titles v), why, st', new.
  split_and!; try done; lia.
Qed.

(** X7. The titles [follow_path] returns are keyed by the locators it fetched:
    every locator of the path before the last has a title, no locator
    outside the path has one, and the last has one unless the walk ended
    because the steps ran out; in that case, if the last locator occurs
    only once in the path, it has none. *)
Theorem follow_path_titles_cover_path (start_url : string) (max_steps : Z) (st : state) :
  ∃ front last steps titles why st',
    follow_path_from start_url max_steps st
    = (Ok (front ++ [last], steps, titles, why), st')
    ∧ (∀ url, url ∈ front → is_Some (titles !! url))
    ∧ (∀ url, is_Some (titles !! url) → url ∈ front ++ [last])
    ∧ (why ≠ StepLimitReached → is_Some (titles !! last))
    ∧ (why = StepLimitReached → last ∉ front → titles !! last = None).
Proof.
  destruct (follow_path_from_end start_url max_steps st)
    as (v & why & st' & Hrun & Hend & _).
  destruct Hend as (front & new & Hpath & _ & _ & _ & Hdom & _).
  exists front, (fp_current_url v), (fp_steps v), (fp_titles v), why, st'.
  rewrite <- Hpath. split; [done|].
  assert (∀ url, is_Some (fp_titles v !! url)
                 ↔ url ∈ match why with StepLimitReached => front | _ => fp_path v end)
    as Hkeys.
  { intros url. rewrite <- elem_of_dom, Hdom. apply elem_of_list_to_set. }
  split_and!.
  - intros url Hin. apply Hkeys. destruct why; try done;
      rewrite Hpath; apply elem_of_app; by left.
  - intros url Hin. apply Hkeys in Hin. destruct why; try done.
    rewrite Hpath. apply elem_of_app. by left.
  - intros Hwhy. apply Hkeys. destruct why; try done;
      rewrite Hpath; apply elem_of_app; right; by apply list_elem_of_singleton.
  - intros -> Hfresh. apply eq_None_not_Some. intros Hin. by apply Hkeys in Hin.
Qed.

End FollowPathTheorems.

(** ** Callers of [follow_path] *)

Section CallerFacts.
Context `{Platform}.

Lemma article_url_truthy (article : string) :
  truthy_url (Some (article_url article)) = Some (article_url article).
Proof. unfold article_url. by unfold_append. Qed.

Lemma follow_path_article_url (article : string) (max_steps : Z) :
  follow_path (Some (article_url article)) max_steps
  = follow_path_from (article_url article) max_steps.
Proof. unfold follow_path, resolve_start. by rewrite article_url_truthy. Qed.

Lemma any_title_is_philosophy_spec (titles : gmap string string) :
  any_title_is_philosophy titles = true ↔ ∃ url, titles !! url = Some "Philosophy".
Proof.
  unfold any_title_is_philosophy. rewrite existsb_exists. split.
  - intros (title & Hin & Heq). apply String.eqb_eq in Heq as ->.
    apply list_elem_of_In, list_elem_of_fmap in Hin as ([url title] & Htitle & Hin).
    cbn in Htitle. subst title. exists url. by apply elem_of_map_to_list.
  - intros (url & Hurl). exists "Philosophy". split; [|done].
    apply list_elem_of_In, list_elem_of_fmap. exists (url, "Philosophy").
    split; [done|]. by apply elem_of_map_to_list.
Qed.

(** X8. The flag [crawl_and_store] computes from the titles, [any(title ==
    "Philosophy" ...)], is true exactly when the walk ended on a page
    whose title is [Philosophy]: no earlier page of the walk can have had
    that title, since the walk stops at the first one. *)
Theorem crawl_and_store_flag_is_exit (article_title : string) (max_steps : Z) (st : state) :
  ∃ path titles reached_philosophy why st',
    crawl_and_store_walk article_title max_steps st
    = (Ok (path, titles, reached_philosophy, why), st')
    ∧ (reached_philosophy = true ↔ why = Completed)
    ∧ (why = Completed →
       ∃ last_url, last path = Some last_url ∧ titles !! last_url = Some "Philosophy").
Proof.
  unfold crawl_and_store_walk. rewrite follow_path_article_url.
  destruct (follow_path_from_end (article_url article_title) max_steps st)
    as (v & why & st' & Hrun & Hend & _).
  destruct Hend as (front & new & Hpath & _ & _ & _ & _ & Hphil & Hlast & _).
  rewrite (io_bind_ok _ _ _ _ _ Hrun). cbn.
  eexists _, _, _, _, _. split; [done|]. split.
  - rewrite any_title_is_philosophy_spec. by symmetry.
  - intros Hwhy. exists (fp_current_url v). split; [|auto].
    rewrite Hpath. apply last_snoc.
Qed.

(** X9. What wiki_single_article.py reports agrees with how the walk ended,
    as long as the locator of the Philosophy article is not in the path:
    the step limit is reported exactly when the steps ran out, a loop with
    the very cycle the walker found, a dead end at the last article.  A walk
    that ended on a page titled [Philosophy] under another locator is not
    reported as reaching it, but as a dead end at [Philosophy] or as a
    loop.  With the locator in the path the path is printed, however the
    walk ended. *)
Theorem single_article_report_agrees (article : string) (args_steps : Z) (st : state) :
  ∃ path steps titles why rep st',
    follow_path (Some (article_url article)) args_steps st
    = (Ok (path, steps, titles, why), st')
    ∧ single_article article args_steps st = (Ok (Some rep, why), st')
    ∧ (philosophy_url ∈ path → rep = PathTaken (title_of titles <$> path))
    ∧ (philosophy_url ∉ path →
       match why with
       | StepLimitReached => rep = MaximumSteps
       | LoopDetected loop_index loop => rep = LoopCycle (title_of titles <$> loop)
       | DeadEnd =>
           ∃ last_url, last path = Some last_url ∧ rep = DeadEndAt (title_of titles last_url)
       | Completed => rep = DeadEndAt "Philosophy" ∨ ∃ loop_titles, rep = LoopCycle loop_titles
       | AlreadyKnown => False
       end).
Proof.
  unfold single_article. rewrite follow_path_article_url.
  destruct (follow_path_from_end (article_url article) args_steps st)
    as (v & why & st' & Hrun & Hend & _).
  destruct Hend as (front & new & Hpath & Hsteps & Hlimit & _ & _ & _ & Hphil & Hdead
                    & Hloop & Hknown & _).
  rewrite (io_bind_ok _ _ _ _ _ Hrun). cbn.
  assert (last (fp_path v) = Some (fp_current_url v)) as Hlast
    by (rewrite Hpath; apply last_snoc).
  assert (all_but_last (fp_path v) = front) as Hfront.
  { unfold all_but_last. rewrite Hpath. apply removelast_last. }
  unfold single_article_report.
  case_bool_decide as Hin.
  { eexists _, _, _, _, _, _. split_and!; done. }
  case_bool_decide as Hmax.
  { apply Hlimit in Hmax as ->. eexists _, _, _, _, _, _. split_and!; done. }
  assert (why ≠ StepLimitReached) as Hnl by (intros Hwhy; by apply Hlimit in Hwhy).
  rewrite Hlast. cbn [mbind option_bind]. rewrite Hfront.
  case_bool_decide as Hrep.
  - destruct (index_of_elem (fp_current_url v) (fp_path v)) as [i Hi].
    { rewrite Hpath. apply elem_of_app. by left. }
    rewrite Hi. cbn [mbind option_bind].
    eexists _, _, _, _, _, _. split_and!; try done.
    intros _. destruct why; try done.
    + right. by eexists.
    + by destruct Hdead.
    + destruct (Hloop _ _ eq_refl) as (_ & k & Hk & -> & ->).
      rewrite Hi in Hk. by injection Hk as <-.
  - eexists _, _, _, _, _, _. split_and!; try done.
    intros _. destruct why; try done.
    + left. unfold title_of. by rewrite Hphil.
    + by eexists.
    + by destruct (Hloop _ _ eq_refl) as (? & _).
Qed.

(** X10. [run_experiment] asked for at least one article with no step allowed
    never returns a result: the walk returns no titles, and looking up the
    title of the start raises (if the random start could be had at all). *)
Theorem run_experiment_needs_a_step (num_articles max_steps : Z) (st : state) :
  (1 ≤ num_articles)%Z →
  (max_steps ≤ 0)%Z →
  ∃ st', run_experiment num_articles max_steps st = (Raised, st').
Proof.
  intros Hnum Hmax. unfold run_experiment.
  destruct (Z.to_nat num_articles) as [|n] eqn:Hn; [lia|].
  cbn [run_experiment_loop].
  assert (∃ st', experiment max_steps st = (Raised, st')) as [st' Hexp].
  { unfold experiment, mbind, io_bind.
    destruct (get_random_article st) as [[start_url|] st1]; [|by eexists].
    unfold follow_path, follow_path_from, mbind, io_bind.
    replace (Z.to_nat max_steps) with 0 by lia. cbn [follow_path_loop].
    destruct (resolve_start (Some start_url) st1) as [[start|] st2]; [|by eexists].
    cbn. rewrite lookup_empty. by eexists. }
  exists st'. unfold mbind, io_bind. by rewrite Hexp.
Qed.

End CallerFacts.

Lemma run_experiment_needs_a_step_witness :
  ∃ st', @run_experiment Scenario.static_web 1 0 Scenario.start = (Raised, st').
Proof. apply (@run_experiment_needs_a_step Scenario.static_web 1 0 Scenario.start); lia. Defined.

(** ** The directed and the deep walker *)

Section GeneralFacts.
Context `{Platform}.

(** The ways a turn of [follow_general_path] can go. *)
Lemma follow_general_path_turn_cases (target_depth : Z) (v v' : general_vars)
    (ended : option PathOutcome) (st st' : state) :
  follow_general_path_turn target_depth v st = (Ok (v', ended), st') →
  ∃ next_url current_title st1,
    extract_first_link (gp_current_url v) st = (Ok (next_url, current_title), st1)
    ∧ gp_titles v' = <[gp_current_url v := current_title]> (gp_titles v)
    ∧ match ended with
      | Some why =>
          gp_current_url v' = gp_current_url v ∧ gp_path v' = gp_path v
          ∧ gp_steps v' = gp_steps v
          ∧ gp_visited_in_path v' = gp_visited_in_path v ∧ st' = st1
          ∧ match why with
            | Completed => (target_depth - 1 ≤ gp_steps v)%Z
            | DeadEnd => (gp_steps v < target_depth - 1)%Z ∧ truthy_url next_url = None
            | LoopDetected _ _ =>
                (gp_steps v < target_depth - 1)%Z
                ∧ ∃ next, truthy_url next_url = Some next
                    ∧ next ∈ gp_visited_in_path v
                    ∧ why = loop_found (gp_path v) next
            | _ => False
            end
      | None =>
          (gp_steps v < target_depth - 1)%Z
          ∧ ∃ next, truthy_url next_url = Some next
              ∧ (next ∉ gp_visited_in_path v)
              ∧ gp_current_url v' = next
              ∧ gp_path v' = gp_path v ++ [next]
              ∧ gp_steps v' = (gp_steps v + 1)%Z
              ∧ gp_visited_in_path v' = {[next]} ∪ gp_visited_in_path v
              ∧ st' = State (net st1) (log st1 ++ [Slept 500])
      end.
Proof.
  unfold follow_general_path_turn. intros Hturn.
  apply io_bind_inv in Hturn as ([next_url current_title] & st1 & Hext & Hturn).
  exists next_url, current_title, st1. split; [done|].
  cbn [gp_current_url gp_path gp_titles gp_steps gp_visited_in_path] in Hturn.
  case_bool_decide as Hdepth.
  { injection Hturn as <- <- <-. by cbn. }
  destruct (truthy_url next_url) as [next|] eqn:Hnext.
  2:{ injection Hturn as <- <- <-. cbn. split_and!; try done; lia. }
  case_bool_decide as Hloop.
  - injection Hturn as <- <- <-. cbn. split_and!; try done.
    assert (∃ i l, loop_found (gp_path v) next = LoopDetected i l) as (i & l & Hfound).
    { unfold loop_found. destruct (if bool_decide _ then _ else _); by eexists _, _. }
    rewrite Hfound. split; [lia|]. exists next. by rewrite Hfound.
  - unfold mbind, io_bind, sleep in Hturn. cbn in Hturn.
    injection Hturn as <- <- <-. cbn. split_and!; try done; [lia|]. by exists next.
Qed.

Lemma follow_general_path_loop_rule (target_depth : Z)
    (I : nat → general_vars → state → Prop)
    (Q : general_vars → PathOutcome → state → Prop) :
  (∀ v st, I 0 v st → Q v StepLimitReached st) →
  (∀ n v st v' ended st',
     I (S n) v st → follow_general_path_turn target_depth v st = (Ok (v', ended), st') →
     match ended with Some why => Q v' why st' | None => I n v' st' end) →
  ∀ n v st v' why st',
    I n v st → follow_general_path_loop target_depth n v st = (Ok (v', why), st') →
    Q v' why st'.
Proof.
  intros Hlimit Hturn. induction n as [|n IH]; intros v st v' why st' HI;
    cbn [follow_general_path_loop].
  - intros [= <- <- <-]. by apply Hlimit.
  - intros Hloop. apply io_bind_inv in Hloop as ([v1 ended] & st1 & Hstep & Hloop).
    specialize (Hturn _ _ _ _ _ _ HI Hstep). destruct ended as [why'|].
    + injection Hloop as <- <- <-. done.
    + by eapply IH.
Qed.

Lemma general_head_turn (target_depth max_steps : Z) (st0 : state) (n : nat)
    (v : general_vars) (st : state) (v' : general_vars) (ended : option PathOutcome)
    (st' : state) :
  general_head max_steps st0 (S n) v st →
  follow_general_path_turn target_depth v st = (Ok (v', ended), st') →
  match ended with
  | Some why => general_end target_depth max_steps st0 v' why st'
  | None => general_head max_steps st0 n v' st'
  end.
Proof.
  intros (front & new & Hpath & Hnodup & Hvisited & Hsteps & Hturns & Hdom & Hlog
          & Hreq & Hurls) Hturn.
  apply follow_general_path_turn_cases in Hturn
    as (next_url & current_title & st1 & Hext & Htitles & Hcases).
  destruct (extract_first_link_log _ _ _ _ Hext) as (new1 & Hlog1 & Hreq1 & Hurls1).
  assert (dom (gp_titles v') = list_to_set (gp_path v)) as Hdom'.
  { rewrite Htitles, dom_insert_L, Hdom, Hpath, list_to_set_app_L. cbn. set_solver. }
  assert (∀ url, Requested url ∈ new ++ new1 → url ∈ gp_path v) as Hurls'.
  { intros url Hin. rewrite Hpath. apply elem_of_app in Hin as [Hin|Hin].
    - apply elem_of_app. left. by apply Hurls.
    - apply elem_of_app. right. apply list_elem_of_singleton. by apply Hurls1. }
  destruct ended as [why|].
  - destruct Hcases as (Hcur & Hpath' & Hsteps' & Hvis' & -> & Hwhy).
    exists front, (new ++ new1). rewrite Hcur, Hpath', Hsteps'.
    assert (why ≠ StepLimitReached ∧ why ≠ AlreadyKnown) as [Hnl Hnk]
      by (by destruct why).
    split_and!; try done.
    + split; [done|lia].
    + lia.
    + by destruct why.
    + destruct why; try done; by destruct Hwhy.
    + rewrite Hlog1, Hlog. by rewrite app_assoc.
    + rewrite requests_app. lia.
  - destruct Hcases as (Hlt & next & Hnext & Hfresh & Hcur & Hpath' & Hsteps' & Hvis' & ->).
    exists (gp_path v), ((new ++ new1) ++ [Slept 500]).
    rewrite Hcur, Hpath', Hsteps', Hvis'.
    rewrite Hvisited, elem_of_list_to_set in Hfresh.
    split_and!; try done.
    + apply NoDup_app. split_and!; [done| |apply NoDup_singleton].
      intros x Hx Hx'. apply list_elem_of_singleton in Hx'. by subst x.
    + rewrite Hvisited, list_to_set_app_L. cbn. set_solver.
    + rewrite Hpath, length_app. cbn. lia.
    + lia.
    + cbn [log]. rewrite Hlog1, Hlog. by rewrite !app_assoc.
    + rewrite !requests_app, Hpath, length_app. cbn. lia.
    + intros url Hin. apply elem_of_app in Hin as [Hin|Hin]; [by apply Hurls'|].
      apply list_elem_of_singleton in Hin. done.
Qed.

Lemma general_head_limit (target_depth max_steps : Z) (st0 : state)
    (v : general_vars) (st : state) :
  general_head max_steps st0 0 v st →
  general_end target_depth max_steps st0 v StepLimitReached st.
Proof.
  intros (front & new & Hpath & Hnodup & Hvisited & Hsteps & Hturns & Hdom & Hlog
          & Hreq & Hurls).
  exists front, new. split_and!; try done.
  - split; [lia|done].
  - lia.
  - lia.
  - intros url Hin. rewrite Hpath. apply elem_of_app. left. by apply Hurls.
Qed.

(** [follow_general_path] from a given start returns, and the loop
    variables it returns with are as [general_end] says. *)
Lemma follow_general_path_from_end (target_depth max_steps : Z) (start_url : string)
    (st : state) :
  ∃ v why st',
    follow_general_path_from target_depth max_steps start_url st
    = (Ok (gp_path v, gp_titles v,
           match why with
           | Completed => true
           | _ => bool_decide (target_depth - 1 ≤ gp_steps v)%Z
           end, why), st')
    ∧ general_end target_depth max_steps st v why st'
    ∧ head (gp_path v) = Some start_url.
Proof.
  destruct (follow_general_path_from_spec target_depth max_steps start_url st)
    as (v & why & st' & Hloop & Hrun & _).
  exists v, why, st'. split; [done|]. split.
  - eapply (follow_general_path_loop_rule target_depth (general_head max_steps st)
              (general_end target_depth max_steps st)); [| |idtac|exact Hloop].
    + apply general_head_limit.
    + intros n v1 st1 v2 ended st2. apply general_head_turn.
    + exists [], []. cbn. rewrite app_nil_r.
      split_and!; try done; try lia; [apply NoDup_singleton|set_solver|].
      intros url Hin. by apply elem_of_nil in Hin.
  - eapply (follow_general_path_loop_rule target_depth
              (λ _ v _, head (gp_path v) = Some start_url)
              (λ v _ _, head (gp_path v) = Some start_url)); [| |idtac|exact Hloop].
    + done.
    + intros n v1 st1 v2 ended st2 Hhead Hturn.
      apply follow_general_path_turn_cases in Hturn as (? & ? & ? & _ & _ & Hcases).
      destruct ended as [w|].
      * destruct Hcases as (_ & -> & _). done.
      * destruct Hcases as (_ & next & _ & _ & _ & -> & _).
        destruct (gp_path v1); [done|]. done.
    + done.
Qed.

End GeneralFacts.

Section GeneralTheorems.
Context `{Platform}.

(** X11. A directed walk never visits a locator twice and keeps to its budget:
    whatever the exit, the path it returns begins with the start, has no
    duplicates and at most [max_steps + 1] locators; the walk ended because
    the steps ran out exactly when the path has more than [max_steps]
    locators; it made at most 3 requests per allowed step and requested
    no locator outside the path. *)
Theorem follow_general_path_never_repeats (target_depth max_steps : Z)
    (start_url : string) (st : state) :
  ∃ path titles reached_depth why st' new,
    follow_general_path_from target_depth max_steps start_url st
    = (Ok (path, titles, reached_depth, why), st')
    ∧ head path = Some start_url
    ∧ NoDup path
    ∧ length path ≤ Z.to_nat max_steps + 1
    ∧ (why = StepLimitReached ↔ (max_steps < Z.of_nat (length path))%Z)
    ∧ log st' = log st ++ new
    ∧ requests new ≤ 3 * Z.to_nat max_steps
    ∧ ∀ url, Requested url ∈ new → url ∈ path.
Proof.
  destruct (follow_general_path_from_end target_depth max_steps start_url st)
    as (v & why & st' & Hrun & Hend & Hhead).
  destruct Hend as (front & new & Hpath & Hnodup & Hsteps & Hlimit & Hle & _ & _
                    & Hlog & Hreq & Hurls).
  eexists _, _, _, why, st', new. split; [done|].
  assert (length (gp_path v) = length front + 1) as Hlen
    by (rewrite Hpath, length_app; cbn; lia).
  split_and!; try done; [lia|]. rewrite Hlimit. lia.
Qed.

(** X12. The flag a directed walk returns says whether the path is as long as
    asked: [reached_depth] is true exactly when the path has at least
    [target_depth] locators, for every target depth, step limit and exit. *)
Theorem reached_depth_is_path_length (target_depth max_steps : Z)
    (start_url : string) (st : state) :
  ∃ path titles reached_depth why st',
    follow_general_path_from target_depth max_steps start_url st
    = (Ok (path, titles, reached_depth, why), st')
    ∧ (reached_depth = true ↔ (target_depth ≤ Z.of_nat (length path))%Z).
Proof.
  destruct (follow_general_path_from_end target_depth max_steps start_url st)
    as (v & why & st' & Hrun & Hend & _).
  destruct Hend as (front & new & Hpath & _ & Hsteps & _ & _ & _ & Hwhy & _).
  eexists _, _, _, why, st'. split; [done|].
  assert (Z.of_nat (length (gp_path v)) = gp_steps v + 1)%Z as Hlen
    by (rewrite Hpath, length_app; cbn; lia).
  rewrite Hlen.
  destruct why; try done; rewrite ?bool_decide_eq_true; split; try done; lia.
Qed.

(** X13. The titles a directed walk returns are keyed by the locators it
    fetched: every locator of the path before the last has a title, no
    locator outside the path has one, and the last has one unless the walk
    ended because the steps ran out, and then it has none. *)
Theorem follow_general_path_titles_cover_path (target_depth max_steps : Z)
    (start_url : string) (st : state) :
  ∃ front last_url titles reached_depth why st',
    follow_general_path_from target_depth max_steps start_url st
    = (Ok (front ++ [last_url], titles, reached_depth, why), st')
    ∧ (∀ url, url ∈ front → is_Some (titles !! url))
    ∧ (∀ url, is_Some (titles !! url) → url ∈ front ++ [last_url])
    ∧ (why ≠ StepLimitReached → is_Some (titles !! last_url))
    ∧ (why = StepLimitReached → titles !! last_url = None).
Proof.
  destruct (follow_general_path_from_end target_depth max_steps start_url st)
    as (v & why & st' & Hrun & Hend & _).
  destruct Hend as (front & new & Hpath & Hnodup & _ & _ & _ & Hdom & _).
  exists front, (gp_current_url v), (gp_titles v). eexists _, why, st'.
  rewrite <- Hpath. split; [done|].
  assert (∀ url, is_Some (gp_titles v !! url)
                 ↔ url ∈ match why with StepLimitReached => front | _ => gp_path v end)
    as Hkeys.
  { intros url. rewrite <- elem_of_dom, Hdom. apply elem_of_list_to_set. }
  split_and!.
  - intros url Hin. apply Hkeys. destruct why; try done;
      rewrite Hpath; apply elem_of_app; by left.
  - intros url Hin. apply Hkeys in Hin. destruct why; try done.
    rewrite Hpath. apply elem_of_app. by left.
  - intros Hwhy. apply Hkeys. destruct why; try done;
      rewrite Hpath; apply elem_of_app; right; by apply list_elem_of_singleton.
  - intros ->. apply eq_None_not_Some. intros Hin. apply Hkeys in Hin.
    rewrite Hpath in Hnodup. apply NoDup_app in Hnodup as (_ & Hfresh & _).
    apply (Hfresh _ Hin). by apply list_elem_of_singleton.
Qed.

End GeneralTheorems.

Section DeepFacts.
Context `{Platform}.

(** The ways a turn of [crawl_deeply] can go. *)
Lemma crawl_deeply_turn_cases (v v' : deep_vars) (ended : option PathOutcome)
    (st st' : state) :
  crawl_deeply_turn v st = (Ok (v', ended), st') →
  ∃ next_url current_title st1,
    extract_first_link (dp_current_url v) st = (Ok (next_url, current_title), st1)
    ∧ let titles := <[dp_current_url v := current_title]> (dp_titles v) in
      match ended with
      | Some why =>
          st' = st1
          ∧ match why with
            | DeadEnd =>
                truthy_url next_url = None
                ∧ v' = DeepVars (dp_current_url v) (dp_path v) titles (dp_steps v)
                         (dp_visited_in_path v) (dp_visited_articles v)
                         (dp_visited_global v)
            | LoopDetected _ _ =>
                ∃ next, truthy_url next_url = Some next
                  ∧ next ∈ dp_visited_in_path v
                  ∧ why = loop_found (dp_path v) next
                  ∧ v' = DeepVars (dp_current_url v) (dp_path v) titles (dp_steps v)
                           (dp_visited_in_path v) (dp_visited_articles v)
                           (dp_visited_global v)
            | AlreadyKnown =>
                ∃ next, truthy_url next_url = Some next
                  ∧ (next ∉ dp_visited_in_path v)
                  ∧ known_globally (dp_visited_global v) (get_title_from_url next) = true
                  ∧ v' = DeepVars (dp_current_url v) (dp_path v ++ [next])
                           (<[next := get_title_from_url next]> titles) (dp_steps v)
                           (dp_visited_in_path v) (dp_visited_articles v)
                           (dp_visited_global v)
            | _ => False
            end
      | None =>
          ∃ next, truthy_url next_url = Some next
            ∧ (next ∉ dp_visited_in_path v)
            ∧ known_globally (dp_visited_global v) (get_title_from_url next) = false
            ∧ v' = DeepVars next (dp_path v ++ [next]) titles (dp_steps v + 1)
                     ({[next]} ∪ dp_visited_in_path v)
                     ({[get_title_from_url next]} ∪ dp_visited_articles v)
                     (add_globally (dp_visited_global v) (get_title_from_url next))
            ∧ st' = State (net st1) (log st1 ++ [Slept 500])
      end.
Proof.
  unfold crawl_deeply_turn. intros Hturn.
  apply io_bind_inv in Hturn as ([next_url current_title] & st1 & Hext & Hturn).
  exists next_url, current_title, st1. split; [done|].
  cbn [dp_current_url dp_path dp_titles dp_steps dp_visited_in_path
       dp_visited_articles dp_visited_global] in Hturn.
  destruct (truthy_url next_url) as [next|] eqn:Hnext.
  2:{ injection Hturn as <- <- <-. by cbn. }
  case_bool_decide as Hloop.
  - injection Hturn as <- <- <-. cbn. split; [done|].
    assert (∃ i l, loop_found (dp_path v) next = LoopDetected i l) as (i & l & Hfound).
    { unfold loop_found. destruct (if bool_decide _ then _ else _); by eexists _, _. }
    rewrite Hfound. exists next. by rewrite Hfound.
  - destruct (known_globally (dp_visited_global v) (get_title_from_url next)) eqn:Hknown.
    + injection Hturn as <- <- <-. cbn. split; [done|]. by exists next.
    + unfold mbind, io_bind, sleep in Hturn. cbn in Hturn.
      injection Hturn as <- <- <-. cbn. by exists next.
Qed.

Lemma crawl_deeply_loop_rule (I : nat → deep_vars → state → Prop)
    (Q : deep_vars → PathOutcome → state → Prop) :
  (∀ v st, I 0 v st → Q v StepLimitReached st) →
  (∀ n v st v' ended st',
     I (S n) v st → crawl_deeply_turn v st = (Ok (v', ended), st') →
     match ended with Some why => Q v' why st' | None => I n v' st' end) →
  ∀ n v st v' why st',
    I n v st → crawl_deeply_loop n v st = (Ok (v', why), st') → Q v' why st'.
Proof.
  intros Hlimit Hturn. induction n as [|n IH]; intros v st v' why st' HI;
    cbn [crawl_deeply_loop].
  - intros [= <- <- <-]. by apply Hlimit.
  - intros Hloop. apply io_bind_inv in Hloop as ([v1 ended] & st1 & Hstep & Hloop).
    specialize (Hturn _ _ _ _ _ _ HI Hstep). destruct ended as [why'|].
    + injection Hloop as <- <- <-. done.
    + by eapply IH.
Qed.

Lemma deep_head_turn (supplied : option (gset string)) (max_steps : Z) (st0 : state)
    (n : nat) (v : deep_vars) (st : state) (v' : deep_vars)
    (ended : option PathOutcome) (st' : state) :
  deep_head supplied max_steps st0 (S n) v st →
  crawl_deeply_turn v st = (Ok (v', ended), st') →
  match ended with
  | Some why => deep_end supplied max_steps st0 v' why st'
  | None => deep_head supplied max_steps st0 n v' st'
  end.
Proof.
  intros (front & new & Hpath & Hnodup & Hvisited & Hsteps & Hturns & Hdom & Harticles
          & Hunknown & Hglobal & Hlog & Hreq & Hurls) Hturn.
  apply crawl_deeply_turn_cases in Hturn
    as (next_url & current_title & st1 & Hext & Hcases).
  destruct (extract_first_link_log _ _ _ _ Hext) as (new1 & Hlog1 & Hreq1 & Hurls1).
  cbn zeta in Hcases.
  assert (dom (<[dp_current_url v := current_title]> (dp_titles v))
          = list_to_set (dp_path v)) as Hdom'.
  { rewrite dom_insert_L, Hdom, Hpath, list_to_set_app_L. cbn. set_solver. }
  assert (∀ url, Requested url ∈ new ++ new1 → url ∈ dp_path v) as Hurls'.
  { intros url Hin. rewrite Hpath. apply elem_of_app in Hin as [Hin|Hin].
    - apply elem_of_app. left. by apply Hurls.
    - apply elem_of_app. right. apply list_elem_of_singleton. by apply Hurls1. }
  assert (log st1 = log st0 ++ new ++ new1) as Hlog'
    by (rewrite Hlog1, Hlog; by rewrite app_assoc).
  assert (requests (new ++ new1) ≤ 3 * Z.to_nat max_steps) as Hreq'
    by (rewrite requests_app; lia).
  assert (∀ next, next ∉ dp_visited_in_path v → NoDup (dp_path v ++ [next])) as Hnodup'.
  { intros next Hfresh. rewrite Hvisited, elem_of_list_to_set in Hfresh.
    apply NoDup_app. split_and!; [done| |apply NoDup_singleton].
    intros x Hx Hx'. apply list_elem_of_singleton in Hx'. by subst x. }
  destruct ended as [why|].
  - destruct Hcases as (-> & Hwhy).
    destruct why; try done.
    + destruct Hwhy as (Hnone & ->). exists front, (new ++ new1). cbn.
      rewrite <- Hpath. split_and!; try done; [split; [done|lia]|lia].
    + destruct Hwhy as (next & Hnext & Hin & Hfound & ->).
      exists front, (new ++ new1). cbn.
      rewrite <- Hpath. split_and!; try done; [split; [done|lia]|lia].
    + destruct Hwhy as (next & Hnext & Hfresh & Hknown & ->).
      exists front, (new ++ new1). cbn.
      rewrite <- Hpath. split_and!; try done.
      * by apply Hnodup'.
      * exists next. split_and!; [done|done|]. by rewrite lookup_insert_eq.
      * split; [done|lia].
      * lia.
      * rewrite dom_insert_L, Hdom', list_to_set_app_L. cbn. set_solver.
  - destruct Hcases as (next & Hnext & Hfresh & Hknown & -> & ->).
    exists (dp_path v), ((new ++ new1) ++ [Slept 500]). cbn.
    split_and!; try done.
    + by apply Hnodup'.
    + rewrite Hvisited, list_to_set_app_L. cbn. set_solver.
    + rewrite Hpath, length_app. cbn. lia.
    + lia.
    + rewrite Harticles, fmap_app, list_to_set_app_L. cbn. set_solver.
    + intros url Hurl. apply elem_of_app in Hurl as [Hurl|Hurl]; [auto|].
      apply list_elem_of_singleton in Hurl as ->.
      destruct (known_globally supplied (get_title_from_url next)) eqn:Hs; [|done].
      rewrite Hglobal, known_globally_mono in Hknown; done.
    + rewrite Hglobal. unfold add_globally.
      destruct supplied as [g|]; cbn; [|done]. f_equal. set_solver.
    + rewrite Hlog'. by rewrite !app_assoc.
    + rewrite !requests_app, Hpath, length_app in *. cbn. lia.
    + intros url Hin. apply elem_of_app in Hin as [Hin|Hin]; [by apply Hurls'|].
      apply list_elem_of_singleton in Hin. done.
Qed.

Lemma deep_head_limit (supplied : option (gset string)) (max_steps : Z) (st0 : state)
    (v : deep_vars) (st : state) :
  deep_head supplied max_steps st0 0 v st →
  deep_end supplied max_steps st0 v StepLimitReached st.
Proof.
  intros (front & new & Hpath & Hnodup & Hvisited & Hsteps & Hturns & Hdom & Harticles
          & Hunknown & Hglobal & Hlog & Hreq & Hurls).
  exists front, new. cbn. rewrite <- Hpath. split_and!; try done.
  - split; [lia|done].
  - lia.
  - lia.
  - intros url Hin. rewrite Hpath. apply elem_of_app. left. by apply Hurls.
Qed.

Lemma deep_start_head (start_url : string) (visited_global : option (gset string))
    (max_steps : Z) (st : state) :
  known_globally visited_global (get_title_from_url start_url) = false →
  deep_head visited_global max_steps st (Z.to_nat max_steps)
    (deep_start start_url visited_global) st.
Proof.
  intros Hunknown. exists [], []. cbn. rewrite app_nil_r.
  split_and!; try done; try lia.
  - apply NoDup_singleton.
  - set_solver.
  - set_solver.
  - intros url Hurl. by apply list_elem_of_singleton in Hurl as ->.
  - intros url Hin. by apply elem_of_nil in Hin.
Qed.

(** A deep walk whose start is not known returns, and the loop variables
    it returns with are as [deep_end] says. *)
Lemma crawl_deeply_from_end (max_steps : Z) (start_url : string)
    (visited_global : option (gset string)) (st : state) :
  known_globally visited_global (get_title_from_url start_url) = false →
  ∃ v why st',
    crawl_deeply_from max_steps start_url visited_global st
    = (Ok (DeepWalk (dp_path v) (dp_titles v) (dp_visited_articles v)
             (dp_visited_global v) why), st')
    ∧ deep_end visited_global max_steps st v why st'
    ∧ head (dp_path v) = Some start_url.
Proof.
  intros Hunknown.
  destruct (crawl_deeply_loop_spec visited_global (Z.to_nat max_steps)
              (deep_start start_url visited_global) st (deep_start_inv _ _ Hunknown))
    as (v & why & st' & Hloop & _).
  exists v, why, st'. split.
  { unfold crawl_deeply_from. rewrite Hunknown.
    unfold deep_start in Hloop. by rewrite (io_bind_ok _ _ _ _ _ Hloop). }
  split.
  - eapply (crawl_deeply_loop_rule (deep_head visited_global max_steps st)
              (deep_end visited_global max_steps st)); [| |idtac|exact Hloop].
    + apply deep_head_limit.
    + intros n v1 st1 v2 ended st2. apply deep_head_turn.
    + by apply deep_start_head.
  - eapply (crawl_deeply_loop_rule
              (λ _ v _, head (dp_path v) = Some start_url)
              (λ v _ _, head (dp_path v) = Some start_url)); [| |idtac|exact Hloop].
    + done.
    + intros n v1 st1 v2 ended st2 Hhead Hturn.
      apply crawl_deeply_turn_cases in Hturn as (? & ? & ? & _ & Hcases).
      cbn zeta in Hcases. destruct ended as [w|].
      * destruct Hcases as (_ & Hw). destruct w; try done.
        -- by destruct Hw as (_ & ->).
        -- by destruct Hw as (? & _ & _ & _ & ->).
        -- destruct Hw as (? & _ & _ & _ & ->). cbn. by destruct (dp_path v1).
      * destruct Hcases as (? & _ & _ & _ & -> & _). cbn. by destruct (dp_path v1).
    + done.
Qed.

End DeepFacts.

Section DeepTheorems.
Context `{Platform}.

(** X14. A deep walk keeps account of what it visited.  The titles it returns
    as newly visited are the titles, read off the locators, of the
    locators it moved to: the whole path, or the path without its last
    locator when the walk ended on a link that was already known.  None of
    them was in the set the caller supplied, and the caller's set after
    the walk is the supplied set with exactly those titles added. *)
Theorem crawl_deeply_accounts_for_visited (max_steps : Z) (start_url : string)
    (supplied : gset string) (st : state) :
  ∃ walk st' walked,
    crawl_deeply_from max_steps start_url (Some supplied) st = (Ok walk, st')
    ∧ match dw_outcome walk with
      | AlreadyKnown => ∃ known, dw_path walk = walked ++ [known]
      | _ => dw_path walk = walked
      end
    ∧ dw_visited_articles walk = list_to_set (get_title_from_url <$> walked)
    ∧ dw_visited_articles walk ## supplied
    ∧ dw_visited_global walk = Some (dw_visited_articles walk ∪ supplied).
Proof.
  destruct (known_globally (Some supplied) (get_title_from_url start_url)) eqn:Hstart.
  { unfold crawl_deeply_from. rewrite Hstart.
    eexists _, _, []. split; [done|]. cbn.
    split_and!; [by exists start_url|done|set_solver|f_equal; set_solver]. }
  destruct (crawl_deeply_from_end max_steps start_url (Some supplied) st Hstart)
    as (v & why & st' & Hrun & Hend & _).
  destruct Hend as (front & new & Hnodup & Hshape & _ & _ & _ & _ & Harticles
                    & Hunknown & Hglobal & _).
  exists (DeepWalk (dp_path v) (dp_titles v) (dp_visited_articles v)
            (dp_visited_global v) why), st', (front ++ [dp_current_url v]).
  split; [done|]. cbn [dw_path dw_outcome dw_visited_articles dw_visited_global].
  split_and!; try done.
  - destruct why; try done. destruct Hshape as (next & Hpath & _). by exists next.
  - rewrite Harticles. intros title Hin Hsup.
    apply elem_of_list_to_set, list_elem_of_fmap in Hin as (url & -> & Hurl).
    specialize (Hunknown url Hurl). cbn in Hunknown.
    by apply bool_decide_eq_false in Hunknown.
Qed.

(** X15. A deep walk keeps to its budget and never visits a locator twice:
    whatever the exit, the path it returns begins with the start, has no
    duplicates and at most [max_steps + 1] locators (the known link
    appended at the end included); it made at most 3 requests per allowed
    step, and requested no locator outside the path. *)
Theorem crawl_deeply_never_repeats (max_steps : Z) (start_url : string)
    (visited_global : option (gset string)) (st : state) :
  ∃ walk st' new,
    crawl_deeply_from max_steps start_url visited_global st = (Ok walk, st')
    ∧ head (dw_path walk) = Some start_url
    ∧ NoDup (dw_path walk)
    ∧ length (dw_path walk) ≤ Z.to_nat max_steps + 1
    ∧ log st' = log st ++ new
    ∧ requests new ≤ 3 * Z.to_nat max_steps
    ∧ ∀ url, Requested url ∈ new → url ∈ dw_path walk.
Proof.
  destruct (known_globally visited_global (get_title_from_url start_url)) eqn:Hstart.
  { unfold crawl_deeply_from. rewrite Hstart.
    eexists _, _, []. split; [done|]. cbn. rewrite app_nil_r.
    split_and!; try done; [apply NoDup_singleton|lia|lia|].
    intros url Hin. by apply elem_of_nil in Hin. }
  destruct (crawl_deeply_from_end max_steps start_url visited_global st Hstart)
    as (v & why & st' & Hrun & Hend & Hhead).
  destruct Hend as (front & new & Hnodup & Hshape & Hsteps & Hlimit & Hle & _ & _
                    & _ & _ & Hlog & Hreq & Hurls).
  eexists _, st', new. split; [done|].
  cbn [dw_path dw_outcome dw_visited_articles dw_visited_global].
  split_and!; try done.
  - destruct why; try done.
    + rewrite Hshape, length_app. cbn. lia.
    + rewrite Hshape, length_app. cbn. lia.
    + rewrite Hshape, length_app. cbn. lia.
    + destruct Hshape as (next & -> & _). rewrite !length_app. cbn.
      assert (¬ (max_steps ≤ dp_steps v)%Z) by (intros Hm; by apply Hlimit in Hm).
      lia.
  - intros url Hin. apply Hurls in Hin. destruct why; try done; try by rewrite Hshape.
    destruct Hshape as (next & -> & _). apply elem_of_app. by left.
Qed.

End DeepTheorems.

(** ** Paths on a network that answers steadily *)

Lemma first_link_chain_snoc {A : Type} (step : string → option string * A)
    (path : list string) (current next : string) :
  last path = Some current →
  first_link_chain step path →
  truthy_url (step current).1 = Some next →
  first_link_chain step (path ++ [next]).
Proof.
  intros Hlast Hchain Hnext i url nx Hi HSi.
  destruct (decide (S i < length path)) as [Hlt|Hge].
  - rewrite lookup_app_l in Hi by lia. rewrite lookup_app_l in HSi by lia.
    by eapply Hchain.
  - apply lookup_lt_Some in HSi as Hlen. rewrite length_app in Hlen. cbn in Hlen.
    assert (S i = length path) as Heq by lia.
    rewrite lookup_app_l in Hi by lia.
    rewrite last_lookup in Hlast. replace (pred (length path)) with i in Hlast by lia.
    rewrite Hlast in Hi. injection Hi as <-.
    rewrite lookup_app_r in HSi by lia. rewrite Heq, Nat.sub_diag in HSi.
    by injection HSi as <-.
Qed.

Lemma first_link_chain_singleton {A : Type} (step : string → option string * A)
    (url : string) :
  first_link_chain step [url].
Proof. intros i u nx Hi HSi. by destruct i. Qed.

Section SteadyNetwork.
Context `{Platform}.
Variable answer : string → option string * string.
Hypothesis Hsteady : steady answer.

Lemma steady_extract (url : string) (st st1 : state) next_url title :
  extract_first_link url st = (Ok (next_url, title), st1) →
  answer url = (next_url, title).
Proof.
  intros Hext. destruct (Hsteady url st) as [st' Hans].
  rewrite Hext in Hans. by injection Hans as <- _.
Qed.

Lemma follow_path_chain (start_url : string) (max_steps : Z) (st : state)
    path steps titles why st' :
  follow_path_from start_url max_steps st = (Ok (path, steps, titles, why), st') →
  first_link_chain answer path
  ∧ ∀ url title, titles !! url = Some title → title = (answer url).2.
Proof.
  unfold follow_path_from. intros Hrun.
  apply io_bind_inv in Hrun as ([v w] & st1 & Hloop & Hret).
  injection Hret as <- <- <- <- <-.
  pose (I := λ (_ : nat) (v : follow_path_vars) (_ : state),
          last (fp_path v) = Some (fp_current_url v)
          ∧ first_link_chain answer (fp_path v)
          ∧ ∀ url title, fp_titles v !! url = Some title → title = (answer url).2).
  assert (I 0 v st1) as (_ & Hchain & Htitles); [|done].
  eapply (follow_path_loop_rule I (λ v _ st, I 0 v st)); [done| |idtac|exact Hloop].
  - unfold I. intros n v1 s1 v2 ended s2 (Hlast & Hchain & Htitles) Hturn.
    apply follow_path_turn_cases in Hturn
      as (next_url & current_title & s' & Hext & Ht & Hcases).
    apply steady_extract in Hext.
    assert (∀ url title, fp_titles v2 !! url = Some title → title = (answer url).2)
      as Htitles'.
    { rewrite Ht. intros url title Hurl.
      destruct (decide (url = fp_current_url v1)) as [->|Hne].
      - rewrite lookup_insert_eq in Hurl. injection Hurl as <-. by rewrite Hext.
      - rewrite lookup_insert_ne in Hurl by done. by eapply Htitles. }
    destruct ended as [why|].
    + destruct Hcases as (-> & -> & _). by split_and!.
    + destruct Hcases as (_ & _ & next & Hnext & -> & -> & _). split_and!; [|  |done].
      * apply last_snoc.
      * eapply first_link_chain_snoc; [done|done|]. by rewrite Hext.
  - unfold I. split_and!; [done|apply first_link_chain_singleton|].
    cbn. intros url title Hurl. by rewrite lookup_empty in Hurl.
Qed.

Lemma follow_general_path_chain (target_depth max_steps : Z) (start_url : string)
    (st : state) path titles reached why st' :
  follow_general_path_from target_depth max_steps start_url st
  = (Ok (path, titles, reached, why), st') →
  first_link_chain answer path
  ∧ ∀ url title, titles !! url = Some title → title = (answer url).2.
Proof.
  unfold follow_general_path_from. intros Hrun.
  apply io_bind_inv in Hrun as ([v w] & st1 & Hloop & Hret).
  injection Hret as <- <- _ <- <-.
  pose (I := λ (_ : nat) (v : general_vars) (_ : state),
          last (gp_path v) = Some (gp_current_url v)
          ∧ first_link_chain answer (gp_path v)
          ∧ ∀ url title, gp_titles v !! url = Some title → title = (answer url).2).
  assert (I 0 v st1) as (_ & Hchain & Htitles); [|done].
  eapply (follow_general_path_loop_rule target_depth I (λ v _ st, I 0 v st));
    [done| |idtac|exact Hloop].
  - unfold I. intros n v1 s1 v2 ended s2 (Hlast & Hchain & Htitles) Hturn.
    apply follow_general_path_turn_cases in Hturn
      as (next_url & current_title & s' & Hext & Ht & Hcases).
    apply steady_extract in Hext.
    assert (∀ url title, gp_titles v2 !! url = Some title → title = (answer url).2)
      as Htitles'.
    { rewrite Ht. intros url title Hurl.
      destruct (decide (url = gp_current_url v1)) as [->|Hne].
      - rewrite lookup_insert_eq in Hurl. injection Hurl as <-. by rewrite Hext.
      - rewrite lookup_insert_ne in Hurl by done. by eapply Htitles. }
    destruct ended as [why|].
    + destruct Hcases as (-> & -> & _). by split_and!.
    + destruct Hcases as (_ & next & Hnext & _ & -> & -> & _). split_and!; [|  |done].
      * apply last_snoc.
      * eapply first_link_chain_snoc; [done|done|]. by rewrite Hext.
  - unfold I. split_and!; [done|apply first_link_chain_singleton|].
    cbn. intros url title Hurl. by rewrite lookup_empty in Hurl.
Qed.

Lemma crawl_deeply_chain (max_steps : Z) (start_url : string)
    (visited_global : option (gset string)) (st : state) walk st' :
  crawl_deeply_from max_steps start_url visited_global st = (Ok walk, st') →
  first_link_chain answer (dw_path walk).
Proof.
  unfold crawl_deeply_from.
  destruct (known_globally visited_global (get_title_from_url start_url)).
  { intros [= <- _]. apply first_link_chain_singleton. }
  intros Hrun. apply io_bind_inv in Hrun as ([v w] & st1 & Hloop & Hret).
  injection Hret as <- <-. cbn [dw_path].
  pose (I := λ (_ : nat) (v : deep_vars) (_ : state),
          last (dp_path v) = Some (dp_current_url v)
          ∧ first_link_chain answer (dp_path v)).
  eapply (crawl_deeply_loop_rule I (λ v _ _, first_link_chain answer (dp_path v)));
    [by intros ? ? [_ ?]| |idtac|exact Hloop].
  - unfold I. intros n v1 s1 v2 ended s2 (Hlast & Hchain) Hturn.
    apply crawl_deeply_turn_cases in Hturn
      as (next_url & current_title & s' & Hext & Hcases).
    apply steady_extract in Hext. cbn zeta in Hcases.
    destruct ended as [why|].
    + destruct Hcases as (_ & Hwhy). destruct why; try done.
      * by destruct Hwhy as (_ & ->).
      * by destruct Hwhy as (? & _ & _ & _ & ->).
      * destruct Hwhy as (next & Hnext & _ & _ & ->). cbn.
        eapply first_link_chain_snoc; [done|done|]. by rewrite Hext.
    + destruct Hcases as (next & Hnext & _ & _ & -> & _). cbn. split.
      * apply last_snoc.
      * eapply first_link_chain_snoc; [done|done|]. by rewrite Hext.
  - unfold I. split; [done|apply first_link_chain_singleton].
Qed.

End SteadyNetwork.

(** X16. On a network that answers steadily the path a walker returns is a
    chain of first links: each locator after the start is the next link
    the extractor gives for the locator before it.  This holds for the
    three walkers; for [follow_path] and [follow_general_path] every
    title returned is moreover the title the extractor gives for its
    locator. *)
Theorem paths_are_first_link_chains `{Platform}
    (answer : string → option string * string) :
  steady answer →
  (∀ start_url max_steps st,
     ∃ path steps titles why st',
       follow_path_from start_url max_steps st = (Ok (path, steps, titles, why), st')
       ∧ first_link_chain answer path
       ∧ ∀ url title, titles !! url = Some title → title = (answer url).2)
  ∧ (∀ target_depth max_steps start_url st,
       ∃ path titles reached_depth why st',
         follow_general_path_from target_depth max_steps start_url st
         = (Ok (path, titles, reached_depth, why), st')
         ∧ first_link_chain answer path
         ∧ ∀ url title, titles !! url = Some title → title = (answer url).2)
  ∧ (∀ max_steps start_url visited_global st,
       ∃ walk st',
         crawl_deeply_from max_steps start_url visited_global st = (Ok walk, st')
         ∧ first_link_chain answer (dw_path walk)).
Proof.
  intros Hsteady. split_and!.
  - intros start_url max_steps st.
    destruct (follow_path_from_spec start_url max_steps st)
      as (path & steps & titles & why & st' & Hrun & _).
    exists path, steps, titles, why, st'. split; [done|].
    by eapply follow_path_chain.
  - intros target_depth max_steps start_url st.
    destruct (follow_general_path_from_spec target_depth max_steps start_url st)
      as (v & why & st' & _ & Hrun & _).
    eexists _, _, _, _, _. split; [done|].
    by eapply follow_general_path_chain.
  - intros max_steps start_url visited_global st.
    destruct (crawl_deeply_from_spec max_steps start_url visited_global st)
      as (walk & st' & Hrun & _).
    exists walk, st'. split; [done|].
    by eapply crawl_deeply_chain.
Qed.

Lemma static_extract_attempts (n : nat) (url : string)
    (st1 st2 : @state Scenario.static_web) :
  (@extract_attempts Scenario.static_web n url st1).1
  = (@extract_attempts Scenario.static_web n url st2).1.
Proof.
  revert st1 st2. induction n as [|n IH]; intros st1 st2; cbn [extract_attempts]; [done|].
  unfold mbind, io_bind, fetch.
  change (@session_get Scenario.static_web url (net st1))
    with (Scenario.lookup_page url Scenario.pages, net st1).
  change (@session_get Scenario.static_web url (net st2))
    with (Scenario.lookup_page url Scenario.pages, net st2).
  cbv beta iota.
  destruct (Scenario.lookup_page url Scenario.pages) as [|soup].
  - unfold sleep. apply IH.
  - destruct (@parse_article Scenario.static_web url soup); [done|].
    unfold sleep. apply IH.
Qed.

Lemma static_web_steady : @steady Scenario.static_web static_answer.
Proof.
  intros url st. unfold static_answer.
  destruct (@extract_first_link_returns Scenario.static_web url st) as (r & st' & Hrun).
  exists st'. rewrite Hrun. f_equal. f_equal.
  pose proof (static_extract_attempts max_retries url st Scenario.start) as Heq.
  unfold extract_first_link in *. rewrite Hrun in Heq. cbn [fst] in Heq.
  by rewrite <- Heq.
Qed.

Lemma paths_are_first_link_chains_witness :
  (∀ start_url max_steps st,
     ∃ path steps titles why st',
       @follow_path_from Scenario.static_web start_url max_steps st
       = (Ok (path, steps, titles, why), st')
       ∧ first_link_chain static_answer path
       ∧ ∀ url title, titles !! url = Some title → title = (static_answer url).2)
  ∧ (∀ target_depth max_steps start_url st,
       ∃ path titles reached_depth why st',
         @follow_general_path_from Scenario.static_web target_depth max_steps start_url st
         = (Ok (path, titles, reached_depth, why), st')
         ∧ first_link_chain static_answer path
         ∧ ∀ url title, titles !! url = Some title → title = (static_answer url).2)
  ∧ (∀ max_steps start_url visited_global st,
       ∃ walk st',
         @crawl_deeply_from Scenario.static_web max_steps start_url visited_global st
         = (Ok walk, st')
         ∧ first_link_chain static_answer (dw_path walk)).
Proof.
  apply (@paths_are_first_link_chains Scenario.static_web static_answer).
  apply static_web_steady.
Defined.

(** ** Storing a path *)

Lemma insert_nodes_spec (title_for : string → string) (titles : gmap string string)
    (path_id : Z) (path : list string) (i : Z) (c : connection) :
  match insert_nodes title_for titles path_id i path c with
  | (Some _, c') =>
      Forall (λ failed, failed = false) (take (length path) (failures c))
      ∧ committed c' = committed c
      ∧ WIKI_PATHS (working c') = WIKI_PATHS (working c)
      ∧ WIKI_PATH_NODES (working c')
        = WIKI_PATH_NODES (working c)
          ++ node_rows title_for titles path_id (next_node_id c) i path
  | (None, c') =>
      (∃ k, k < length path ∧ failures c !! k = Some true)
      ∧ committed c' = committed c
  end.
Proof.
  revert i c. induction path as [|url path IH]; intros i c; cbn [insert_nodes].
  - cbn. by rewrite app_nil_r.
  - unfold execute.
    destruct (failures c) as [|[|] rest] eqn:Hfailures; cbn [tail insert_node].
    + specialize (IH (i + 1)%Z
        (Connection (committed c)
           (Tables (WIKI_PATHS (working c))
              (WIKI_PATH_NODES (working c)
               ++ [NodeRow (next_node_id c) path_id i
                     (default (title_for url) (titles !! url)) url]))
           (next_path_id c) (next_node_id c + 1) [])).
      destruct (insert_nodes _ _ _ _ _ _) as [[[]|] c'];
        cbn [failures committed working WIKI_PATHS WIKI_PATH_NODES next_node_id] in IH.
      * destruct IH as (_ & Hc & Hp & Hn). split_and!; [by rewrite take_nil|done|done|].
        rewrite Hn. cbn [node_rows]. by rewrite <- app_assoc.
      * destruct IH as ((k & _ & Hk) & _). by rewrite lookup_nil in Hk.
    + split; [|done]. exists 0. cbn. split; [lia|done].
    + specialize (IH (i + 1)%Z
        (Connection (committed c)
           (Tables (WIKI_PATHS (working c))
              (WIKI_PATH_NODES (working c)
               ++ [NodeRow (next_node_id c) path_id i
                     (default (title_for url) (titles !! url)) url]))
           (next_path_id c) (next_node_id c + 1) rest)).
      destruct (insert_nodes _ _ _ _ _ _) as [[[]|] c'];
        cbn [failures committed working WIKI_PATHS WIKI_PATH_NODES next_node_id] in IH.
      * destruct IH as (Hok & Hc & Hp & Hn). split_and!; [|done|done|].
        -- cbn [length take]. by apply Forall_cons.
        -- rewrite Hn. cbn [node_rows]. by rewrite <- app_assoc.
      * destruct IH as ((k & Hlt & Hk) & Hc). split; [|done].
        exists (S k). cbn. split; [lia|done].
Qed.

(** X17. When no statement fails, [store_path] returns the new [path_id] and
    commits exactly one row of [WIKI_PATHS], whose [steps] is the number of
    locators less one (0 for an empty path) and whose [end_article] is the
    recorded title of the last locator or [Unknown], and one row of
    [WIKI_PATH_NODES] per locator, numbered from 0 in path order; nothing
    else in the tables changes. *)
Theorem store_path_stores_the_path (title_for : string → string) (path : list string)
    (titles : gmap string string) (start_article : string) (reached_target : bool)
    (c : connection) :
  Forall (λ failed, failed = false) (take (S (length path)) (failures c)) →
  ∃ c',
    store_path title_for path titles start_article reached_target c
    = (Some (next_path_id c), c')
    ∧ working c' = committed c'
    ∧ WIKI_PATHS (committed c')
      = WIKI_PATHS (working c)
        ++ [PathRow (next_path_id c) start_article
              (default "Unknown" (last path ≫= λ last_url, titles !! last_url))
              (Z.of_nat (length path - 1))
              (if reached_target then 1 else 0)]
    ∧ WIKI_PATH_NODES (committed c')
      = WIKI_PATH_NODES (working c)
        ++ node_rows title_for titles (next_path_id c) (next_node_id c) 0 path
    ∧ (nr_step_number <$> node_rows title_for titles (next_path_id c) (next_node_id c) 0 path)
      = Z.of_nat <$> seq 0 (length path)
    ∧ (nr_article_url <$> node_rows title_for titles (next_path_id c) (next_node_id c) 0 path)
      = path.
Proof.
  intros Hok. unfold store_path, execute.
  assert (∀ nid i, (nr_article_url <$> node_rows title_for titles (next_path_id c) nid i path)
                   = path) as Hurls.
  { clear. induction path as [|u p IH]; intros nid i; cbn; [done|]. f_equal. apply IH. }
  assert (∀ nid (i : nat),
            (nr_step_number <$> node_rows title_for titles (next_path_id c) nid
                                  (Z.of_nat i) path)
            = Z.of_nat <$> seq i (length path)) as Hnumbers.
  { clear. induction path as [|u p IH]; intros nid i; cbn; [done|]. f_equal.
    replace (Z.of_nat i + 1)%Z with (Z.of_nat (S i)) by lia. apply IH. }
  destruct (failures c) as [|[|] rest] eqn:Hfailures.
  - cbn [tail insert_path].
    pose proof (insert_nodes_spec title_for titles (next_path_id c) path 0
      (Connection (committed c)
         (Tables (WIKI_PATHS (working c) ++ [PathRow (next_path_id c) start_article
             match last path with
             | Some last_url => default "Unknown" (titles !! last_url)
             | None => "Unknown"
             end
             (if bool_decide (0 < length path) then Z.of_nat (length path) - 1 else 0)
             (if reached_target then 1 else 0)])
            (WIKI_PATH_NODES (working c)))
         (next_path_id c + 1) (next_node_id c) [])) as Hnodes.
    destruct (insert_nodes _ _ _ _ _ _) as [[[]|] c'];
      cbn [failures committed working WIKI_PATHS WIKI_PATH_NODES next_node_id] in Hnodes.
    + destruct Hnodes as (_ & Hc & Hp & Hn). eexists. split; [done|]. cbn.
      split_and!; [done| |done|apply (Hnumbers _ 0)|apply Hurls].
      rewrite Hp. f_equal. f_equal. f_equal.
      * by destruct (last path).
      * case_bool_decide; [lia|]. destruct path; cbn in *; [done|lia].
    + destruct Hnodes as ((k & _ & Hk) & _). by rewrite lookup_nil in Hk.
  - cbn [take] in Hok. by apply Forall_cons in Hok as [[=] _].
  - cbn [tail insert_path].
    pose proof (insert_nodes_spec title_for titles (next_path_id c) path 0
      (Connection (committed c)
         (Tables (WIKI_PATHS (working c) ++ [PathRow (next_path_id c) start_article
             match last path with
             | Some last_url => default "Unknown" (titles !! last_url)
             | None => "Unknown"
             end
             (if bool_decide (0 < length path) then Z.of_nat (length path) - 1 else 0)
             (if reached_target then 1 else 0)])
            (WIKI_PATH_NODES (working c)))
         (next_path_id c + 1) (next_node_id c) rest)) as Hnodes.
    destruct (insert_nodes _ _ _ _ _ _) as [[[]|] c'];
      cbn [failures committed working WIKI_PATHS WIKI_PATH_NODES next_node_id] in Hnodes.
    + destruct Hnodes as (_ & Hc & Hp & Hn). eexists. split; [done|]. cbn.
      split_and!; [done| |done|apply (Hnumbers _ 0)|apply Hurls].
      rewrite Hp. f_equal. f_equal. f_equal.
      * by destruct (last path).
      * case_bool_decide; [lia|]. destruct path; cbn in *; [done|lia].
    + destruct Hnodes as ((k & Hlt & Hk) & _).
      cbn [take] in Hok. apply Forall_cons in Hok as [_ Hok].
      rewrite Forall_lookup in Hok. specialize (Hok k true).
      rewrite lookup_take_lt in Hok by done. by discriminate Hok.
Qed.

(** X18. When one of its statements fails, [store_path] returns [None] and
    leaves the committed tables as they were: the rows written before the
    failure are rolled back. *)
Theorem store_path_is_atomic (title_for : string → string) (path : list string)
    (titles : gmap string string) (start_article : string) (reached_target : bool)
    (c : connection) (k : nat) :
  k ≤ length path →
  failures c !! k = Some true →
  ∃ c',
    store_path title_for path titles start_article reached_target c = (None, c')
    ∧ committed c' = committed c
    ∧ working c' = committed c.
Proof.
  intros Hk Hfail. unfold store_path, execute.
  destruct (failures c) as [|[|] rest] eqn:Hfailures.
  - by rewrite lookup_nil in Hfail.
  - eexists. split; [done|]. by cbn.
  - cbn [tail insert_path].
    match goal with
    | |- context [insert_nodes ?t ?ti ?p ?i ?pa ?co] =>
        pose proof (insert_nodes_spec t ti p pa i co) as Hnodes;
        destruct (insert_nodes t ti p i pa co) as [[[]|] c']
    end; cbn [failures committed working WIKI_PATHS WIKI_PATH_NODES next_node_id] in Hnodes.
    + destruct Hnodes as (Hok & _). destruct k as [|k]; [done|]. cbn in Hfail.
      rewrite Forall_lookup in Hok. specialize (Hok k true).
      rewrite lookup_take_lt in Hok by lia. by discriminate Hok.
    + destruct Hnodes as (_ & Hc). eexists. split; [done|]. by cbn.
Qed.

Lemma store_path_stores_the_path_witness :
  ∃ c',
    store_path unknown_title ["/wiki/A"; "/wiki/B"] ∅ "A" true empty_connection
    = (Some (next_path_id empty_connection), c')
    ∧ working c' = committed c'
    ∧ WIKI_PATHS (committed c')
      = WIKI_PATHS (working empty_connection)
        ++ [PathRow (next_path_id empty_connection) "A"
              (default "Unknown"
                 (last ["/wiki/A"; "/wiki/B"]
                  ≫= λ last_url, (∅ : gmap string string) !! last_url))
              (Z.of_nat (length ["/wiki/A"; "/wiki/B"] - 1))
              (if true then 1 else 0)]
    ∧ WIKI_PATH_NODES (committed c')
      = WIKI_PATH_NODES (working empty_connection)
        ++ node_rows unknown_title ∅ (next_path_id empty_connection)
             (next_node_id empty_connection) 0 ["/wiki/A"; "/wiki/B"]
    ∧ (nr_step_number <$> node_rows unknown_title ∅ (next_path_id empty_connection)
                            (next_node_id empty_connection) 0 ["/wiki/A"; "/wiki/B"])
      = Z.of_nat <$> seq 0 (length ["/wiki/A"; "/wiki/B"])
    ∧ (nr_article_url <$> node_rows unknown_title ∅ (next_path_id empty_connection)
                            (next_node_id empty_connection) 0 ["/wiki/A"; "/wiki/B"])
      = ["/wiki/A"; "/wiki/B"].
Proof.
  apply (store_path_stores_the_path unknown_title ["/wiki/A"; "/wiki/B"] ∅ "A" true
           empty_connection).
  cbn. by repeat constructor.
Defined.

Lemma store_path_is_atomic_witness :
  ∃ c',
    store_path (@title_from_locator Scenario.static_web) ["/wiki/A"; "/wiki/B"] ∅ "A" true
      (Connection (Tables [] []) (Tables [] []) 1 1 [false; false; true])
    = (None, c')
    ∧ committed c' = Tables [] []
    ∧ working c' = Tables [] [].
Proof.
  apply (store_path_is_atomic (@title_from_locator Scenario.static_web)
           ["/wiki/A"; "/wiki/B"] ∅ "A" true
           (Connection (Tables [] []) (Tables [] []) 1 1 [false; false; true]) 2);
    [cbn; lia|reflexivity].
Defined.

(** ** From an article name to its locator and back *)

Lemma count_app (a b : string) (c : ascii) :
  PyStr.count (a +:+ b) c = PyStr.count a c + PyStr.count b c.
Proof.
  induction a as [|d a IH]; unfold_append; cbn [PyStr.count]; [done|].
  rewrite IH. lia.
Qed.

Lemma count_zero_not_contains (s : string) (c : ascii) :
  PyStr.count s c = 0 → PyStr.contains s (String c "") = false.
Proof.
  intros Hcount. destruct (PyStr.contains s (String c "")) eqn:Hc; [|done].
  apply contains_spec in Hc as (a & b & ->).
  rewrite !count_app in Hcount. cbn [PyStr.count] in Hcount.
  rewrite Ascii.eqb_refl in Hcount. lia.
Qed.

Lemma last_segment_after (before name : string) (sep : ascii) :
  PyStr.count name sep = 0 →
  PyStr.last_segment (before +:+ String sep name) sep = name.
Proof.
  intros Hcount. pose proof (count_zero_not_contains _ _ Hcount) as Hnone.
  induction before as [|d before IH]; unfold_append; cbn [PyStr.last_segment].
  - rewrite Hnone. by rewrite Ascii.eqb_refl.
  - assert (PyStr.contains (before +:+ String sep name) (String sep "") = true) as ->; [|done].
    apply contains_spec. exists before, name. by unfold_append.
Qed.

Lemma replace_back (s : string) :
  PyStr.replace (PyStr.replace s " " "_") "_" " " = PyStr.replace s "_" " ".
Proof.
  induction s as [|c s IH]; cbn [PyStr.replace]; [done|]. rewrite IH. f_equal.
  destruct (Ascii.eqb_spec c " ") as [->|Hsp]; [done|].
  by destruct (Ascii.eqb_spec c "_").
Qed.

Lemma replace_absent (s : string) (a b : ascii) :
  PyStr.count s a = 0 → PyStr.replace s a b = s.
Proof.
  induction s as [|c s IH]; cbn [PyStr.replace PyStr.count]; [done|].
  destruct (Ascii.eqb_spec c a) as [->|Hne]; [done|].
  intros Hcount. by rewrite IH.
Qed.

Lemma count_replace_other (s : string) (a b c : ascii) :
  c ≠ a → c ≠ b → PyStr.count (PyStr.replace s a b) c = PyStr.count s c.
Proof.
  intros Ha Hb. induction s as [|d s IH]; cbn [PyStr.replace PyStr.count]; [done|].
  rewrite IH. f_equal. destruct (Ascii.eqb_spec d a) as [->|Hda].
  - apply Ascii.eqb_neq in Ha, Hb. rewrite Ascii.eqb_sym in Ha, Hb.
    by rewrite Ha, Hb.
  - done.
Qed.

(** X19. The title read back from the locator built for an article name is the
    name with its outer white space stripped and its underscores turned
    into spaces, hence the stripped name itself when it has no underscore:
    provided the name has no [/], and on locators whose path [urlparse]
    returns whole and which [unquote] leaves alone. *)
Theorem article_title_round_trip `{Platform} (article : string) :
  let name := PyStr.replace (PyStr.strip article) " " "_" in
  PyStr.count (PyStr.strip article) "/" = 0 →
  urlparse_path (article_url article) = Some ("/wiki/" +:+ name) →
  unquote (PyStr.replace (PyStr.strip article) "_" " ")
  = PyStr.replace (PyStr.strip article) "_" " " →
  get_title_from_url (article_url article) = PyStr.replace (PyStr.strip article) "_" " "
  ∧ (PyStr.count (PyStr.strip article) "_" = 0 →
     get_title_from_url (article_url article) = PyStr.strip article).
Proof.
  intros name Hslash Hparse Hunquote.
  assert (get_title_from_url (article_url article)
          = PyStr.replace (PyStr.strip article) "_" " ") as Htitle.
  { unfold get_title_from_url. rewrite Hparse.
    change ("/wiki/" +:+ name) with ("/wiki" +:+ String "/" name).
    rewrite last_segment_after.
    - unfold name. by rewrite replace_back.
    - unfold name. by rewrite count_replace_other. }
  split; [done|]. intros Hunder. by rewrite Htitle, replace_absent.
Qed.

Lemma article_title_round_trip_witness :
  @get_title_from_url Scenario.static_web (article_url "  Ada Lovelace ")
  = PyStr.replace (PyStr.strip "  Ada Lovelace ") "_" " "
  ∧ (PyStr.count (PyStr.strip "  Ada Lovelace ") "_" = 0 →
     @get_title_from_url Scenario.static_web (article_url "  Ada Lovelace ")
     = PyStr.strip "  Ada Lovelace ").
Proof.
  apply (@article_title_round_trip Scenario.static_web "  Ada Lovelace ");
    reflexivity.
Defined.

(** ** Exceptions and titles of the walkers *)

Section WalkerEdges.
Context `{Platform}.

Lemma resolve_start_cases (start_url : option string) (st : state) :
  (∃ start st', resolve_start start_url st = (Ok start, st'))
  ∨ ((∃ st', resolve_start start_url st = (Raised, st'))
     ∧ truthy_url start_url = None ∧ (special_random (net st)).1 = None).
Proof.
  unfold resolve_start. destruct (truthy_url start_url) as [start|] eqn:Hstart.
  - left. by eexists _, _.
  - unfold get_random_article.
    destruct (special_random (net st)) as [[url|] w]; cbn.
    + left. by eexists _, _.
    + right. split_and!; try done. by eexists.
Qed.

Lemma resolve_start_raises (start_url : option string) (st : state) :
  truthy_url start_url = None → (special_random (net st)).1 = None →
  ∃ st', resolve_start start_url st = (Raised, st').
Proof.
  intros Hstart Hrandom. unfold resolve_start, get_random_article. rewrite Hstart.
  destruct (special_random (net st)) as [[url|] w]; cbn in *; [done|]. by eexists.
Qed.

(** X20. The one exception that can leave a walker is that of the request for
    a random start: [follow_path], [follow_general_path] and [crawl_deeply]
    raise exactly when no start was given (none, or an empty one) and the
    request for a random article raises. *)
Theorem walkers_raise_only_without_start (start_url : option string) (st : state) :
  let no_start := truthy_url start_url = None ∧ (special_random (net st)).1 = None in
  (∀ max_steps,
     (∃ st', follow_path start_url max_steps st = (Raised, st')) ↔ no_start)
  ∧ (∀ target_depth max_steps,
       (∃ st', follow_general_path target_depth max_steps start_url st = (Raised, st'))
       ↔ no_start)
  ∧ (∀ max_steps visited_global,
       (∃ st', crawl_deeply max_steps start_url visited_global st = (Raised, st'))
       ↔ no_start).
Proof.
  intros no_start. split_and!.
  - intros max_steps. unfold follow_path, mbind, io_bind. split.
    + intros [st' Hrun].
      destruct (resolve_start_cases start_url st) as [(start & st1 & Hs)|(_ & Hno)];
        [|done].
      rewrite Hs in Hrun.
      destruct (follow_path_from_spec start max_steps st1)
        as (? & ? & ? & ? & ? & Hok & _).
      unfold io in *. by rewrite Hok in Hrun.
    + intros [Hstart Hrandom].
      destruct (resolve_start_raises _ _ Hstart Hrandom) as [st' ->]. by eexists.
  - intros target_depth max_steps. unfold follow_general_path, mbind, io_bind. split.
    + intros [st' Hrun].
      destruct (resolve_start_cases start_url st) as [(start & st1 & Hs)|(_ & Hno)];
        [|done].
      rewrite Hs in Hrun.
      destruct (follow_general_path_from_spec target_depth max_steps start st1)
        as (? & ? & ? & _ & Hok & _).
      unfold io in *. by rewrite Hok in Hrun.
    + intros [Hstart Hrandom].
      destruct (resolve_start_raises _ _ Hstart Hrandom) as [st' ->]. by eexists.
  - intros max_steps visited_global. unfold crawl_deeply, mbind, io_bind. split.
    + intros [st' Hrun].
      destruct (resolve_start_cases start_url st) as [(start & st1 & Hs)|(_ & Hno)];
        [|done].
      rewrite Hs in Hrun.
      destruct (crawl_deeply_from_spec max_steps start visited_global st1)
        as (? & ? & Hok & _).
      unfold io in *. by rewrite Hok in Hrun.
    + intros [Hstart Hrandom].
      destruct (resolve_start_raises _ _ Hstart Hrandom) as [st' ->]. by eexists.
Qed.

(** X21. The titles a deep walk returns are keyed by locators of its path, and
    a locator of the path is without a title only if it is the last one
    and either the steps ran out there, or it is a start that was already
    known. *)
Theorem crawl_deeply_titles_cover_path (max_steps : Z) (start_url : string)
    (visited_global : option (gset string)) (st : state) :
  ∃ walk st',
    crawl_deeply_from max_steps start_url visited_global st = (Ok walk, st')
    ∧ (∀ url, is_Some (dw_titles walk !! url) → url ∈ dw_path walk)
    ∧ ∀ i url,
        dw_path walk !! i = Some url → dw_titles walk !! url = None →
        S i = length (dw_path walk)
        ∧ (dw_outcome walk = StepLimitReached
           ∨ (dw_outcome walk = AlreadyKnown ∧ dw_path walk = [start_url])).
Proof.
  destruct (known_globally visited_global (get_title_from_url start_url)) eqn:Hstart.
  { unfold crawl_deeply_from. rewrite Hstart. eexists _, _. split; [done|]. cbn. split.
    - intros url [t Ht]. by rewrite lookup_empty in Ht.
    - intros [|i] url Hi _; [|done]. split; [done|]. by right. }
  destruct (crawl_deeply_from_end max_steps start_url visited_global st Hstart)
    as (v & why & st' & Hrun & Hend & _).
  destruct Hend as (front & new & _ & Hshape & _ & _ & _ & Hdom & _).
  eexists _, st'. split; [done|].
  cbn [dw_path dw_titles dw_outcome].
  assert (∀ url, is_Some (dp_titles v !! url)
                 ↔ url ∈ match why with StepLimitReached => front | _ => dp_path v end)
    as Hkeys.
  { intros url. rewrite <- elem_of_dom, Hdom. apply elem_of_list_to_set. }
  split.
  - intros url Hin. apply Hkeys in Hin. destruct why; try done.
    rewrite Hshape. apply elem_of_app. by left.
  - intros i url Hi Hnone. apply eq_None_not_Some in Hnone.
    assert (url ∈ dp_path v) as Hin by (by eapply list_elem_of_lookup_2).
    destruct why; try (by destruct Hnone; apply Hkeys).
    rewrite Hshape in Hi |- *. rewrite length_app. cbn. split; [|by left].
    destruct (decide (i < length front)) as [Hlt|Hge].
    + rewrite lookup_app_l in Hi by done. destruct Hnone. apply Hkeys.
      by eapply list_elem_of_lookup_2.
    + apply lookup_lt_Some in Hi. rewrite length_app in Hi. cbn in Hi. lia.
Qed.

End WalkerEdges.

(** ** The corrector on stored paths *)

Lemma first_link_chain_tail {A : Type} (step : string → option string * A)
    (url : string) (path : list string) :
  first_link_chain step (url :: path) → first_link_chain step path.
Proof. intros Hchain i u nx Hi HSi. by apply (Hchain (S i)). Qed.

(** X22. On a network that answers steadily, for the rows of a stored path
    that is a chain of first links, every correction [process_path]
    collects concerns two consecutive rows and leaves the locator of the
    row it updates as it is: the corrected locator is the stored one, and
    the corrected title is the title read off that locator, which differs
    from the stored title.  There is at most one correction per pair of
    consecutive rows. *)
Theorem corrections_keep_locators `{Platform}
    (answer : string → option string * string) (path_id : Z) (nodes : list node_row)
    (st : state) :
  steady answer →
  first_link_chain answer (nr_article_url <$> nodes) →
  ∃ corrections st',
    find_corrections path_id nodes st = (Ok corrections, st')
    ∧ length corrections ≤ length nodes - 1
    ∧ ∀ k, k ∈ corrections →
        ∃ i current_node next_node,
          nodes !! i = Some current_node ∧ nodes !! S i = Some next_node
          ∧ k_node_to_update k = nr_node_id next_node
          ∧ k_correct_url k = nr_article_url next_node
          ∧ k_correct_next k = get_title_from_url (nr_article_url next_node)
          ∧ nr_article_title next_node ≠ get_title_from_url (nr_article_url next_node).
Proof.
  intros Hsteady. revert st.
  induction nodes as [|current_node rest IH]; intros st Hchain.
  { exists [], st. split_and!; [done|cbn; lia|]. intros k Hk. by apply elem_of_nil in Hk. }
  destruct rest as [|next_node tail].
  { exists [], st. split_and!; [done|cbn; lia|]. intros k Hk. by apply elem_of_nil in Hk. }
  assert (∀ st1, ∃ corrections st',
            find_corrections path_id (next_node :: tail) st1 = (Ok corrections, st')
            ∧ length corrections ≤ length (next_node :: tail) - 1
            ∧ ∀ k, k ∈ corrections →
                ∃ i c n,
                  (current_node :: next_node :: tail) !! i = Some c
                  ∧ (current_node :: next_node :: tail) !! S i = Some n
                  ∧ k_node_to_update k = nr_node_id n
                  ∧ k_correct_url k = nr_article_url n
                  ∧ k_correct_next k = get_title_from_url (nr_article_url n)
                  ∧ nr_article_title n ≠ get_title_from_url (nr_article_url n)) as Hrest.
  { intros st1. destruct (IH st1) as (corrections & st' & Hrun & Hlen & Hall).
    { by eapply first_link_chain_tail. }
    exists corrections, st'. split_and!; [done|done|].
    intros k Hk. destruct (Hall k Hk) as (i & c & n & Hc & Hn & Hk').
    by exists (S i), c, n. }
  cbn [find_corrections].
  destruct (String.eqb (nr_article_title current_node) "Unknown").
  { destruct (Hrest st) as (corrections & st' & Hrun & Hlen & Hall).
    exists corrections, st'. split_and!; [done|cbn in *; lia|done]. }
  destruct (Hsteady (nr_article_url current_node) st) as [st1 Hext].
  rewrite (io_bind_ok _ _ _ _ _ Hext).
  specialize (Hchain 0 (nr_article_url current_node) (nr_article_url next_node)
                eq_refl eq_refl).
  destruct (answer (nr_article_url current_node)) as [correct_url title].
  cbn [fst] in Hchain. rewrite Hchain.
  unfold mbind at 1, io_bind at 1, sleep.
  destruct (Hrest (State (net st1) (log st1 ++ [Slept 500])))
    as (corrections & st' & Hrun & Hlen & Hall).
  rewrite (io_bind_ok _ _ _ _ _ Hrun). cbn [mret io_ret].
  eexists _, st'. split; [done|].
  destruct (String.eqb_spec (get_title_from_url (nr_article_url next_node))
              (nr_article_title next_node)) as [Heq|Hne].
  - split; [cbn in *; lia|done].
  - split; [cbn in *; lia|]. intros k Hk. apply elem_of_cons in Hk as [->|Hk]; [|auto].
    exists 0, current_node, next_node. cbn. by split_and!.
Qed.

Lemma corrections_keep_locators_witness :
  ∃ corrections st',
    @find_corrections Scenario.static_web 7
      [NodeRow 1 7 0 "X" (Scenario.wiki "X"); NodeRow 2 7 1 "Why" (Scenario.wiki "Y")]
      Scenario.start
    = (Ok corrections, st')
    ∧ length corrections
      ≤ length [NodeRow 1 7 0 "X" (Scenario.wiki "X");
                NodeRow 2 7 1 "Why" (Scenario.wiki "Y")] - 1
    ∧ ∀ k, k ∈ corrections →
        ∃ i current_node next_node,
          [NodeRow 1 7 0 "X" (Scenario.wiki "X"); NodeRow 2 7 1 "Why" (Scenario.wiki "Y")]
            !! i = Some current_node
          ∧ [NodeRow 1 7 0 "X" (Scenario.wiki "X"); NodeRow 2 7 1 "Why" (Scenario.wiki "Y")]
              !! S i = Some next_node
          ∧ k_node_to_update k = nr_node_id next_node
          ∧ k_correct_url k = nr_article_url next_node
          ∧ k_correct_next k
            = @get_title_from_url Scenario.static_web (nr_article_url next_node)
          ∧ nr_article_title next_node
            ≠ @get_title_from_url Scenario.static_web (nr_article_url next_node).
Proof.
  apply (@corrections_keep_locators Scenario.static_web static_answer 7
           [NodeRow 1 7 0 "X" (Scenario.wiki "X"); NodeRow 2 7 1 "Why" (Scenario.wiki "Y")]
           Scenario.start static_web_steady).
  intros [|[|i]] url next Hurl Hnext; try done.
  cbn in Hurl, Hnext. injection Hurl as <-. injection Hnext as <-. reflexivity.
Defined.

(** ** Jobs that return nothing *)

Section DiscardedJobs.
Context `{Platform}.

Lemma pick_unmapped_performs {R : Type} (tries : nat) mapped start_url start_title
    (k : string * string → prog R) (did : list deed) (r : result R) :
  performs (pick_unmapped tries mapped start_url start_title ≫= k) did r →
  r = Raised
  ∨ ∃ x before rest, did = before ++ rest ∧ Forall quiet before ∧ performs (k x) rest r.
Proof.
  revert did. induction tries as [|n IH]; intros did; cbn.
  - intros Hk. right. exists (start_url, start_title), [], did. by split_and!.
  - intros ([new_url|] & rest & -> & _ & Hrun); cbn in Hrun; [|left; by destruct Hrun].
    case_bool_decide.
    + right. exists (new_url, get_title_from_url new_url),
        [Did (Network get_random_article) (Ok new_url)], rest.
      split_and!; [done|by repeat constructor|done].
    + apply IH in Hrun as [->|(x & before & rest' & -> & Hquiet & Hrun)]; [by left|].
      right. exists x, (Did (Network get_random_article) (Ok new_url) :: before), rest'.
      split_and!; [done| |done]. apply Forall_cons. by split.
Qed.

(** X23. A job of the parallel controller that returns nothing has left no
    trace: it has neither called the store nor merged any title into the
    set of mapped articles. *)
Theorem discarded_parallel_job_leaves_no_trace (target_depth max_steps : Z)
    (article_or_url : string) (did : list deed) :
  performs (parallel_crawl_article target_depth max_steps article_or_url) did (Ok None) →
  Forall (λ d, merged d = None ∧ stores d = false) did.
Proof.
  cbn -[pick_unmapped]. intros ([|] & rest & -> & _ & Hrun).
  { cbn in Hrun. destruct Hrun as [-> _]. by repeat constructor. }
  cbn -[pick_unmapped] in Hrun.
  destruct Hrun as (mapped_articles & rest1 & -> & _ & Hrun).
  apply Forall_cons. split; [done|]. apply Forall_cons. split; [done|].
  match type of Hrun with performs (_ ≫= ?k) _ _ => set (job := k) in * end.
  assert (∃ x before rest, rest1 = before ++ rest ∧ Forall quiet before
                           ∧ performs (job x) rest (Ok None))
    as ([start start_title] & before & rest & -> & Hquiet & Hrest).
  { case_bool_decide.
    - apply pick_unmapped_performs in Hrun as [Hr|Hr]; [discriminate|exact Hr].
    - eexists _, [], rest1. split_and!; [done|done|exact Hrun]. }
  clear Hrun. apply Forall_app. split; [done|].
  unfold job in Hrest. cbn in Hrest.
  destruct Hrest as ([[[[path titles] reached] why]|] & rest2 & -> & _ & Hrun);
    cbn in Hrun; [|by destruct Hrun].
  apply Forall_cons. split; [done|].
  destruct Hrun as ([|] & rest3 & -> & _ & Hrun); cbn in Hrun.
  - destruct Hrun as [-> _]. by repeat constructor.
  - destruct Hrun as ([|] & rest4 & -> & _ & Hrun); cbn in Hrun.
    + destruct Hrun as (path_id & rest5 & -> & _ & [] & rest6 & -> & _ & _ & [=]).
    + by destruct Hrun as [_ [=]].
Qed.

(** X24. A job of the large controller that returns nothing has not called the
    store; and unless it returned at its first look at the flag, it has
    by then merged the titles its walk visited into the shared set: the
    articles of a discarded walk count as visited. *)
Theorem discarded_large_job_has_merged (max_steps : Z) (start_url : option string)
    (did : list deed) :
  performs (large_crawl_article max_steps start_url) did (Ok None) →
  Forall (λ d, stores d = false) did
  ∧ (did = [Did StopFlagIsSet true]
     ∨ ∃ start visited_global st st' walk d,
         crawl_deeply max_steps (Some start) (Some visited_global) st = (Ok walk, st')
         ∧ d ∈ did
         ∧ merged d = Some (dw_visited_articles walk)).
Proof.
  cbn. intros ([|] & rest & -> & _ & Hrun).
  { cbn in Hrun. destruct Hrun as [-> _]. split; [by repeat constructor|by left]. }
  cbn in Hrun. destruct Hrun as ([start|] & rest1 & -> & _ & Hrun); cbn in Hrun;
    [|by destruct Hrun].
  destruct Hrun as (visited_global & rest2 & -> & _ & Hrun). cbn in Hrun.
  destruct Hrun as ([walk|] & rest3 & -> & [_ (st & st' & Hwalk)] & Hrun); cbn in Hrun;
    [|by destruct Hrun].
  destruct Hrun as ([] & rest4 & -> & _ & Hrun).
  destruct (dw_path walk) as [|first path]; [by destruct Hrun|]. cbn in Hrun.
  destruct Hrun as ([|] & rest5 & -> & _ & Hrun); cbn in Hrun.
  - destruct Hrun as [-> _]. split; [by repeat constructor|]. right.
    exists start, visited_global, st, st', walk, (Did (AddVisited (dw_visited_articles walk)) ()).
    split_and!; [done| |done]. set_solver.
  - destruct Hrun as ([|] & rest6 & -> & _ & Hrun); cbn in Hrun.
    + by destruct Hrun as (path_id & rest7 & -> & _ & _ & [=]).
    + by destruct Hrun as [_ [=]].
Qed.

End DiscardedJobs.

Lemma discarded_parallel_job_leaves_no_trace_witness :
  Forall (λ d, @merged Scenario.static_web d = None ∧ @stores Scenario.static_web d = false)
    parallel_job_discarded.
Proof.
  apply (@discarded_parallel_job_leaves_no_trace Scenario.static_web 3 10 "Dead").
  exists false; eexists.
  split_and!; [reflexivity|by exists (@initial Scenario.static_web)|].
  exists ∅; eexists.
  split_and!; [reflexivity|by exists (@initial Scenario.static_web)|].
  exists (Ok dead_path); eexists. split_and!; [reflexivity| |].
  { exists (@initial Scenario.static_web), Scenario.start. eexists.
    vm_compute. reflexivity. }
  exists true; eexists.
  split_and!; [reflexivity|by exists (@System Scenario.static_web true ∅ [] [])|].
  done.
Defined.

Lemma discarded_large_job_has_merged_witness :
  Forall (λ d, @stores Scenario.static_web d = false) large_job_discarded
  ∧ (large_job_discarded = [Did StopFlagIsSet true]
     ∨ ∃ start visited_global st st' walk d,
         @crawl_deeply Scenario.static_web 10 (Some start) (Some visited_global) st
         = (Ok walk, st')
         ∧ d ∈ large_job_discarded
         ∧ merged d = Some (dw_visited_articles walk)).
Proof.
  apply (@discarded_large_job_has_merged Scenario.static_web 10
           (Some (Scenario.wiki "Dead"))).
  exists false; eexists.
  split_and!; [reflexivity|by exists (@initial Scenario.static_web)|].
  exists (Ok (Scenario.wiki "Dead")); eexists. split_and!; [reflexivity| |].
  { exists (@initial Scenario.static_web), Scenario.start, Scenario.start. reflexivity. }
  exists ∅; eexists.
  split_and!; [reflexivity|by exists (@initial Scenario.static_web)|].
  exists (Ok dead_walk); eexists. split_and!; [reflexivity| |].
  { exists (@initial Scenario.static_web), Scenario.start. eexists.
    vm_compute. reflexivity. }
  exists (); eexists.
  split_and!; [reflexivity|by exists (@initial Scenario.static_web)|].
  exists true; eexists.
  split_and!; [reflexivity|by exists (@System Scenario.static_web true ∅ [] [])|].
  done.
Defined.
